(** * HikariWeave: event queue, onset detection and modulation matrix

    A shallow embedding of the audio core of HikariWeave
    ([EventQueue.ts], [AudioEngine.ts], [ModMatrix.ts], [LivePresets.ts]
    and the per-frame use of the queue in [StudioView.tsx]) together with
    the properties its specification states about it and further
    properties read off the code.

    JavaScript numbers are idealised as real numbers: every [number] of the
    source is an [R], arithmetic is exact and there is no NaN or infinity.
    Comparisons of the source ([>=], [<=], [>], [<]) are the boolean tests
    of module [Num], decided by the order of [R]. *)

From Stdlib Require Import Reals Lra Lia ZArith List Bool String Permutation.
Import ListNotations.

Open Scope R_scope.

(** ** Numbers *)

Module Num.

Definition geb (x y : R) : bool := if Rge_dec x y then true else false.
Definition leb (x y : R) : bool := if Rle_dec x y then true else false.
Definition gtb (x y : R) : bool := if Rgt_dec x y then true else false.
Definition ltb (x y : R) : bool := if Rlt_dec x y then true else false.

(** [Math.min] and [Math.round]; [Math.round] rounds half-way cases up. *)
Definition min (x y : R) : R := Rmin x y.
Definition round (x : R) : R := IZR (Zfloor (x + 1 / 2)).

End Num.

Declare Scope js_scope.
Infix ">=?" := Num.geb (at level 70) : js_scope.
Infix "<=?" := Num.leb (at level 70) : js_scope.
Infix ">?" := Num.gtb (at level 70) : js_scope.
Infix "<?" := Num.ltb (at level 70) : js_scope.
Open Scope js_scope.

(** ** The event queue ([EventQueue.ts]) *)

Module EventQueue.

Inductive Band := low | mid | high | full.

Definition Band_eqb (a b : Band) : bool :=
  match a, b with
  | low, low | mid, mid | high, high | full, full => true
  | _, _ => false
  end.

(** [AudioEvent]: the optional [pitch] and [centroid] are [None] when the
    property is [undefined]. *)
Record AudioEvent := mkEvent {
  t : R;
  band : Band;
  energy : R;
  pitch : option R;
  centroid : option R
}.

(** The private fields of the class. [clusterWindow] is initialised to
    0.03 and never assigned again. *)
Record queue := mkQueue {
  events : list AudioEvent;
  halfLife : R
}.

Definition clusterWindow : R := 3 / 100.

Definition constructor (halfLife : R) : queue := mkQueue [] halfLife.

Definition setEvents (q : queue) (l : list AudioEvent) : queue :=
  mkQueue l (halfLife q).

(** The five accumulators of the combining loop of [clusterEvent]. *)
Record totals := mkTotals {
  totalEnergy : R;
  weightedPitch : R;
  weightedCentroid : R;
  pitchWeight : R;
  centroidWeight : R
}.

Definition accumulate (acc : totals) (event : AudioEvent) : totals :=
  let totalEnergy' := totalEnergy acc + energy event in
  let '(weightedPitch', pitchWeight') :=
    match pitch event with
    | Some p => (weightedPitch acc + p * energy event, pitchWeight acc + energy event)
    | None => (weightedPitch acc, pitchWeight acc)
    end in
  let '(weightedCentroid', centroidWeight') :=
    match centroid event with
    | Some c => (weightedCentroid acc + c * energy event, centroidWeight acc + energy event)
    | None => (weightedCentroid acc, centroidWeight acc)
    end in
  mkTotals totalEnergy' weightedPitch' weightedCentroid' pitchWeight' centroidWeight'.

Definition inCluster (newEvent event : AudioEvent) : bool :=
  let clusterStart := t newEvent - clusterWindow in
  let clusterEnd := t newEvent + clusterWindow in
  (t event >=? clusterStart) && (t event <=? clusterEnd).

Definition combine (clusteredEvents : list AudioEvent) (newEvent : AudioEvent)
  : AudioEvent :=
  let acc := fold_left accumulate clusteredEvents (mkTotals 0 0 0 0 0) in
  {| t := t newEvent;
     band := band newEvent;
     energy := Num.min (totalEnergy acc) 1;
     pitch := if pitchWeight acc >? 0
              then Some (weightedPitch acc / pitchWeight acc) else None;
     centroid := if centroidWeight acc >? 0
                 then Some (weightedCentroid acc / centroidWeight acc) else None |}.

(** [clusterEvent] returns the event to append and replaces [this.events]
    by the events outside the cluster window. *)
Definition clusterEvent (q : queue) (newEvent : AudioEvent)
  : option AudioEvent * queue :=
  let '(clusteredEvents, remainingEvents) :=
    partition (inCluster newEvent) (events q) in
  match clusteredEvents with
  | [] => (Some newEvent, setEvents q remainingEvents)
  | _ :: _ =>
      let clusteredEvents := clusteredEvents ++ [newEvent] in
      (Some (combine clusteredEvents newEvent), setEvents q remainingEvents)
  end.

Definition push (q : queue) (event : AudioEvent) : queue :=
  match clusterEvent q event with
  | (Some clusteredEvent, q') => setEvents q' (events q' ++ [clusteredEvent])
  | (None, q') => q'
  end.

Definition inWindow (t0 t1 : R) (event : AudioEvent) : bool :=
  (t event >=? t0) && (t event <=? t1).

Definition popStep (t0 t1 : R) (acc : list AudioEvent * list AudioEvent)
  (event : AudioEvent) : list AudioEvent * list AudioEvent :=
  let '(relevantEvents, remainingEvents) := acc in
  if inWindow t0 t1 event then (relevantEvents ++ [event], remainingEvents)
  else if t event >? t1 then (relevantEvents, remainingEvents ++ [event])
  else (relevantEvents, remainingEvents).

(** [popSince] returns the events of the window and the queue left behind. *)
Definition popSince (q : queue) (t0 t1 : R) : list AudioEvent * queue :=
  let '(relevantEvents, remainingEvents) :=
    fold_left (popStep t0 t1) (events q) ([], []) in
  (relevantEvents, setEvents q remainingEvents).

(** One round of the loop of [getMemoryValue]. The division by the
    half-life is that of the source for every half-life but 0, where the
    source divides by zero; what is stated about the memory value is
    stated for half-lives other than 0. *)
Definition memoryStep (q : queue) (currentTime : R) (memory : R)
  (event : AudioEvent) : R :=
  let age := currentTime - t event in
  if age >=? 0 then
    let decay := exp (- age / halfLife q) in
    memory + energy event * decay
  else memory.

Definition getMemoryValue (q : queue) (currentTime : R) : R :=
  let memory := fold_left (memoryStep q currentTime) (events q) 0 in
  Num.min memory 1.

Definition getBandEvents (q : queue) (b : Band) (currentTime : R)
  : list AudioEvent :=
  filter (fun event =>
            Band_eqb (band event) b
            && ((currentTime - t event) <? halfLife q * 3))
         (events q).

Definition cleanup (q : queue) (currentTime : R) : queue :=
  let cutoffTime := currentTime - halfLife q * 3 in
  setEvents q (filter (fun event => t event >? cutoffTime) (events q)).

Definition getEventCount (q : queue) : nat := List.length (events q).

Definition setHalfLife (q : queue) (halfLife : R) : queue :=
  mkQueue (events q) halfLife.

End EventQueue.

(** ** Onset detection ([AudioEngine.ts]) *)

Module AudioEngine.

(** The bands are those of the event queue: ['low'|'mid'|'high'|'full']. *)
Definition Band : Type := EventQueue.Band.

Record Onset := mkOnset {
  band : Band;
  energy : R
}.

(** [AnalysisFrame], reduced to the fields that onset detection reads or
    writes; the band energies, pitch, chroma, tempo and colour fields are
    computed independently of the onsets and are left out. *)
Record AnalysisFrame := mkFrame {
  time : R;
  onsets : list Onset
}.

(** The fields of the engine that [getAnalysisFrame] and its onset
    detection use. [analyser] is [true] when the analyser node exists;
    [sampleRate] is [audioContext.sampleRate]. *)
Record engine := mkEngine {
  analyser : bool;
  sampleRate : R;
  bufferLength : Z;
  frequencyData : list R;
  previousSpectrum : list R;
  previousFrame : option AnalysisFrame
}.

Definition lowPassFreq : R := 250.
Definition midPassFreq : R := 2000.
Definition highPassFreq : R := 4000.

Definition onsetThresholds (b : Band) : R :=
  match b with
  | EventQueue.low => 3 / 10
  | EventQueue.mid => 25 / 100
  | EventQueue.high => 2 / 10
  | EventQueue.full => 15 / 100
  end.

(** [a[i]] on a typed array: [None] stands for [undefined]. *)
Definition get (a : list R) (i : Z) : option R :=
  if (i <? 0)%Z then None else nth_error a (Z.to_nat i).

(** The indices visited by [for (let i = startBin; i < endBin; i++)]. *)
Definition bins (startBin endBin : Z) : list Z :=
  map (fun k => (startBin + Z.of_nat k)%Z) (seq 0 (Z.to_nat (endBin - startBin))).

(** One round of the flux loop. A difference with an [undefined] operand
    is NaN and fails the test [diff > 0]. *)
Definition fluxStep (currentSpectrum previousSpectrum : list R) (flux : R) (i : Z)
  : R :=
  match get currentSpectrum i, get previousSpectrum i with
  | Some c, Some p =>
      let diff := c - p in
      if diff >? 0 then flux + diff else flux
  | _, _ => flux
  end.

Definition bin (st : engine) (freq : R) : Z :=
  Zfloor ((freq / (sampleRate st / 2)) * IZR (bufferLength st)).

Definition calculateSpectralFlux (st : engine) (b : Band) : R :=
  match previousFrame st with
  | None => 0
  | Some _ =>
      let currentSpectrum := frequencyData st in
      let previousSpectrum :=
        match previousFrame st with
        | Some _ => frequencyData st
        | None => repeat 0 (Z.to_nat (bufferLength st))
        end in
      let '(startBin, endBin) :=
        match b with
        | EventQueue.low => (0%Z, bin st lowPassFreq)
        | EventQueue.mid => (bin st lowPassFreq, bin st midPassFreq)
        | EventQueue.high => (bin st midPassFreq, bufferLength st)
        | EventQueue.full => (0%Z, bufferLength st)
        end in
      let flux :=
        fold_left (fluxStep currentSpectrum previousSpectrum)
                  (bins startBin endBin) 0 in
      flux / IZR (endBin - startBin)
  end.

Definition detectBandOnsets (st : engine) : list Onset :=
  match previousFrame st with
  | None => []
  | Some _ =>
      let lowFlux := calculateSpectralFlux st EventQueue.low in
      let midFlux := calculateSpectralFlux st EventQueue.mid in
      let highFlux := calculateSpectralFlux st EventQueue.high in
      let fullFlux := calculateSpectralFlux st EventQueue.full in
      (if lowFlux >? onsetThresholds EventQueue.low
       then [mkOnset EventQueue.low lowFlux] else [])
      ++ (if midFlux >? onsetThresholds EventQueue.mid
          then [mkOnset EventQueue.mid midFlux] else [])
      ++ (if highFlux >? onsetThresholds EventQueue.high
          then [mkOnset EventQueue.high highFlux] else [])
      ++ (if fullFlux >? onsetThresholds EventQueue.full
          then [mkOnset EventQueue.full fullFlux] else [])
  end.

(** One analysis tick. The analyser overwrites [frequencyData] in place
    with [spectrum]; [currentTime] is the clock of the audio context. The
    call throws ([None]) when the analyser does not exist. *)
Definition getAnalysisFrame (st : engine) (currentTime : R) (spectrum : list R)
  : option (AnalysisFrame * engine) :=
  if analyser st then
    let st1 := mkEngine (analyser st) (sampleRate st) (bufferLength st)
                        spectrum (previousSpectrum st) (previousFrame st) in
    let onsets := detectBandOnsets st1 in
    let frame := mkFrame currentTime onsets in
    Some (frame,
          mkEngine (analyser st1) (sampleRate st1) (bufferLength st1)
                   (frequencyData st1) (previousSpectrum st1) (Some frame))
  else None.

(** *** The colour parameters of a frame *)

Definition calculateHue (bassDrum snare hihat melody : R) : R :=
  if bassDrum >? 1 / 10 then 0
  else if snare >? 1 / 10 then 33 / 100
  else if hihat >? 1 / 10 then 67 / 100
  else if melody >? 1 / 10 then 8 / 10
  else
    let total := bassDrum + snare + hihat + melody in
    if total >? 0
    then (bassDrum * 0 + snare * (33 / 100) + hihat * (67 / 100) + melody * (8 / 10))
         / total
    else 0.

Definition calculateSaturation (rms centroid : R) : R :=
  let rmsSaturation := Num.min 1 (rms * 3) in
  let centroidSaturation := Num.min 1 (centroid * (15 / 10)) in
  Rmax (3 / 10) ((rmsSaturation + centroidSaturation) / 2).

Definition calculateBrightness (rms bassDrum hihat : R) : R :=
  let baseBrightness := Num.min 1 (rms * 2) in
  let bassDarkness := bassDrum * (3 / 10) in
  let hihatBrightness := hihat * (4 / 10) in
  Rmax (1 / 10) (Num.min 1 (baseBrightness - bassDarkness + hihatBrightness)).

(** *** Band energy, centroid and pitch *)

(** [Math.pow(10, x / 10)] of a bin; reading outside the array gives
    [undefined] and the power is NaN ([None]). *)
Definition magnitude (a : list R) (i : Z) : option R :=
  match get a i with
  | Some x => Some (Rpower 10 (x / 10))
  | None => None
  end.

(** [acc += v] where either side may be NaN. *)
Definition addNaN (acc : option R) (v : option R) : option R :=
  match acc, v with
  | Some a, Some x => Some (a + x)
  | _, _ => None
  end.

(** [for (let i = lowBin; i < highBin && i < this.bufferLength; i++)]. *)
Definition calculateBandEnergy (st : engine) (lowFreq highFreq : R) : option R :=
  let nyquist := sampleRate st / 2 in
  let lowBin := Zfloor ((lowFreq / nyquist) * IZR (bufferLength st)) in
  let highBin := Zfloor ((highFreq / nyquist) * IZR (bufferLength st)) in
  fold_left (fun energy i => addNaN energy (magnitude (frequencyData st) i))
            (bins lowBin (Z.min highBin (bufferLength st))) (Some 0).

Definition centroidStep (a : list R) (acc : option R * option R) (i : Z)
  : option R * option R :=
  let '(weightedSum, magnitudeSum) := acc in
  let magnitude := magnitude a i in
  (addNaN weightedSum
          (match magnitude with Some m => Some (IZR i * m) | None => None end),
   addNaN magnitudeSum magnitude).

(** A comparison with NaN is false, so a NaN magnitude sum gives 0. *)
Definition calculateSpectralCentroid (st : engine) : option R :=
  let '(weightedSum, magnitudeSum) :=
    fold_left (centroidStep (frequencyData st)) (bins 0 (bufferLength st))
              (Some 0, Some 0) in
  match magnitudeSum with
  | Some ms =>
      if ms >? 0
      then match weightedSum with Some ws => Some (ws / ms) | None => None end
      else Some 0
  | None => Some 0
  end.

(** The autocorrelation of the time-domain buffer at one lag; both reads
    are inside the buffer. *)
Definition correlation (timeData : list R) (period : nat) : R :=
  fold_left (fun correlation i =>
               correlation + nth i timeData 0 * nth (i + period) timeData 0)
            (seq 0 (List.length timeData - period)) 0.

Definition pitchStep (timeData : list R) (best : nat * R) (period : nat)
  : nat * R :=
  let '(bestPeriod, bestCorrelation) := best in
  let correlation := correlation timeData period in
  if correlation >? bestCorrelation then (period, correlation)
  else (bestPeriod, bestCorrelation).

Definition calculatePitch (st : engine) (timeData : list R) : R :=
  let minPeriod := 10%nat in
  let maxPeriod := 200%nat in
  let '(bestPeriod, _) :=
    fold_left (pitchStep timeData) (seq minPeriod (maxPeriod - minPeriod))
              (0%nat, 0) in
  if (0 <? bestPeriod)%nat then sampleRate st / INR bestPeriod else 0.

(** *** The hold counter and the tempo of the first analysis path *)

(** The fields of the engine used by [detectOnset], [calculateBPM] and
    [updateBeatPhase], beside those of [engine]. *)
Record tempo := mkTempo {
  core : engine;
  onsetCounter : Z;
  bpmHistory : list R;
  lastBeatTime : R;
  beatPhase : R
}.

Definition onsetThreshold : R := 3 / 10.

(** [target.set(source)] on typed arrays: a [RangeError] ([None]) when the
    source is longer than the target. *)
Definition typedSet (target source : list R) : option (list R) :=
  if (List.length target <? List.length source)%nat then None
  else Some (source ++ skipn (List.length source) target).

(** [detectOnset]: the answer ([None] when [set] throws) and the engine
    afterwards. *)
Definition detectOnset (st : tempo) : option bool * tempo :=
  let e := core st in
  let flux :=
    fold_left (fluxStep (frequencyData e) (previousSpectrum e))
              (bins 0 (bufferLength e)) 0 in
  let detected := flux >? onsetThreshold in
  let counter := if detected then 10%Z else Z.max 0 (onsetCounter st - 1) in
  match typedSet (previousSpectrum e) (frequencyData e) with
  | Some previous =>
      (Some (0 <? counter)%Z,
       mkTempo (mkEngine (analyser e) (sampleRate e) (bufferLength e)
                         (frequencyData e) previous (previousFrame e))
               counter (bpmHistory st) (lastBeatTime st) (beatPhase st))
  | None =>
      (None, mkTempo e counter (bpmHistory st) (lastBeatTime st) (beatPhase st))
  end.

(** [this.bpmHistory.reduce((a, b) => a + b)] on a non-empty array. *)
Definition reduceSum (l : list R) : R := fold_left Rplus (tl l) (hd 0 l).

(** [calculateBPM]; [now] is the value of [Date.now()]. *)
Definition calculateBPM (st : tempo) (now : R) : R * tempo :=
  let st1 :=
    if (0 <? onsetCounter st)%Z then
      let history :=
        if lastBeatTime st >? 0 then
          let interval := now - lastBeatTime st in
          if (interval >? 200) && (interval <? 2000) then
            let pushed := bpmHistory st ++ [60000 / interval] in
            if (10 <? List.length pushed)%nat then tl pushed else pushed
          else bpmHistory st
        else bpmHistory st in
      mkTempo (core st) (onsetCounter st) history now (beatPhase st)
    else st in
  (if (0 <? List.length (bpmHistory st1))%nat
   then reduceSum (bpmHistory st1) / INR (List.length (bpmHistory st1))
   else 120,
   st1).

(** The remainder [x % y] of JavaScript: the quotient is truncated
    towards zero. *)
Definition jsRem (x y : R) : R :=
  let quotient := x / y in
  let truncated := if quotient <? 0 then (- Zfloor (- quotient))%Z else Zfloor quotient in
  x - y * IZR truncated.

(** [updateBeatPhase]; [currentTime] is [audioContext.currentTime]. A [bpm]
    of 0 is falsy and is below 60 as well. *)
Definition updateBeatPhase (st : tempo) (bpm currentTime : R) : tempo :=
  if bpm <? 60 then st
  else
    let beatInterval := 60 / bpm in
    if Req_dec_T (lastBeatTime st) 0 then
      mkTempo (core st) (onsetCounter st) (bpmHistory st) currentTime 0
    else
      let timeSinceLastBeat := currentTime - lastBeatTime st in
      let phase := jsRem timeSinceLastBeat beatInterval / beatInterval in
      if timeSinceLastBeat >=? beatInterval
      then mkTempo (core st) (onsetCounter st) (bpmHistory st) currentTime 0
      else mkTempo (core st) (onsetCounter st) (bpmHistory st) (lastBeatTime st) phase.

(** The onset part of one [getAnalysis] call: the analyser writes
    [spectrum] into [frequencyData], then [detectOnset] runs. *)
Definition onsetTick (st : tempo) (spectrum : list R) : option bool * tempo :=
  let e := core st in
  detectOnset
    (mkTempo (mkEngine (analyser e) (sampleRate e) (bufferLength e)
                       spectrum (previousSpectrum e) (previousFrame e))
             (onsetCounter st) (bpmHistory st) (lastBeatTime st) (beatPhase st)).

(** The answers of successive calls, one per spectrum. *)
Fixpoint onsetTicks (st : tempo) (spectra : list (list R))
  : list (option bool) * tempo :=
  match spectra with
  | [] => ([], st)
  | spectrum :: rest =>
      let '(answer, st1) := onsetTick st spectrum in
      let '(answers, st2) := onsetTicks st1 rest in
      (answer :: answers, st2)
  end.

End AudioEngine.

(** ** The modulation matrix ([ModMatrix.ts]) *)

Module ModMatrix.

Local Open Scope string_scope.

Inductive SourceType := audio | manual | lfo.
Inductive Curve := linear | exponential | logarithmic | quantized.
Inductive Polarity := unipolar | bipolar.
Inductive Category := motion | shape | color | fx | material | mask.

Definition SourceType_eqb (a b : SourceType) : bool :=
  match a, b with
  | audio, audio | manual, manual | lfo, lfo => true
  | _, _ => false
  end.

Module Source.
Record t := mk {
  id : string;
  name : string;
  value : R;
  type : SourceType
}.
End Source.

Record Range := mkRange { min : R; max : R }.

Module Transform.
Record t := mk {
  id : string;
  name : string;
  attack : R;
  decay : R;
  hold : R;
  curve : Curve;
  range : Range;
  polarity : Polarity;
  gate : bool;
  trigger : bool;
  jitter : R
}.
End Transform.

Module Target.
Record t := mk {
  id : string;
  name : string;
  category : Category;
  value : R
}.
End Target.

Record ModConnection := mkConnection {
  sourceId : string;
  transformId : string;
  targetId : string;
  amount : R
}.

(** The four private arrays of the class. *)
Record matrix := mkMatrix {
  sources : list Source.t;
  transforms : list Transform.t;
  targets : list Target.t;
  connections : list ModConnection
}.

(** The matrix together with what it touches outside itself: the number
    of [Math.random()] calls made so far and the lines written with
    [console.warn]. *)
Record world := mkWorld {
  self : matrix;
  randomCalls : nat;
  console : list string
}.

Definition initializeDefaultSources : list Source.t :=
  [ Source.mk "low" "Low" 0 audio;
    Source.mk "mid" "Mid" 0 audio;
    Source.mk "high" "High" 0 audio;
    Source.mk "rms" "RMS" 0 audio;
    Source.mk "peak" "Peak" 0 audio;
    Source.mk "onset" "Onset" 0 audio;
    Source.mk "bpm" "BPM" 0 audio;
    Source.mk "centroid" "Centroid" 0 audio;
    Source.mk "pitch" "Pitch" 0 audio;
    Source.mk "manual1" "Manual 1" 0 manual;
    Source.mk "manual2" "Manual 2" 0 manual;
    Source.mk "lfo1" "LFO 1" 0 lfo;
    Source.mk "lfo2" "LFO 2" 0 lfo ].

Definition initializeDefaultTransforms : list Transform.t :=
  [ Transform.mk "env1" "Envelope 1" (1 / 10) (3 / 10) (1 / 10) exponential
                 (mkRange 0 1) unipolar false false 0;
    Transform.mk "env2" "Envelope 2" (5 / 100) (5 / 10) (2 / 10) linear
                 (mkRange (- 1) 1) bipolar true true (1 / 10);
    Transform.mk "curve1" "Curve 1" 0 0 0 quantized
                 (mkRange 0 1) unipolar false false 0 ].

Definition initializeDefaultTargets : list Target.t :=
  [ Target.mk "posX" "Position X" motion 0;
    Target.mk "posY" "Position Y" motion 0;
    Target.mk "rotation" "Rotation" motion 0;
    Target.mk "scale" "Scale" motion 1;
    Target.mk "tile" "Tile" motion 1;
    Target.mk "shake" "Shake" motion 0;
    Target.mk "waveform" "Waveform" shape 0;
    Target.mk "vertices" "Vertices" shape 3;
    Target.mk "pwm" "PWM" shape (5 / 10);
    Target.mk "noise" "Noise" shape 0;
    Target.mk "domainWarp" "Domain Warp" shape 0;
    Target.mk "hue" "Hue" color 0;
    Target.mk "saturation" "Saturation" color 1;
    Target.mk "value" "Value" color 1;
    Target.mk "gradientPos" "Gradient Position" color 0;
    Target.mk "bloom" "Bloom" color 0;
    Target.mk "temperature" "Temperature" color 0;
    Target.mk "strobe" "Strobe" fx 0;
    Target.mk "blur" "Blur" fx 0;
    Target.mk "edge" "Edge" fx 0;
    Target.mk "glitch" "Glitch" fx 0;
    Target.mk "chromaticAberration" "Chromatic Aberration" fx 0;
    Target.mk "fresnel" "Fresnel" material 0;
    Target.mk "roughness" "Roughness" material (5 / 10);
    Target.mk "metallic" "Metallic" material 0;
    Target.mk "maskOpen" "Mask Open" mask 1;
    Target.mk "maskFeather" "Mask Feather" mask 0;
    Target.mk "maskRotation" "Mask Rotation" mask 0 ].

Definition constructor : matrix :=
  mkMatrix initializeDefaultSources initializeDefaultTransforms
           initializeDefaultTargets [].

Definition findSource (m : matrix) (sourceId : string) : option Source.t :=
  find (fun s => Source.id s =? sourceId) (sources m).

Definition findTransform (m : matrix) (transformId : string) : option Transform.t :=
  find (fun t => Transform.id t =? transformId) (transforms m).

Definition findTarget (m : matrix) (targetId : string) : option Target.t :=
  find (fun t => Target.id t =? targetId) (targets m).

Definition applyEnvelope (value : R) (transform : Transform.t) : R :=
  if value >? 1 / 10 then 1 else value * Transform.decay transform.

(** The [switch] on the curve of [applyTransform]. [Math.sqrt] is the
    square root on non-negative values (it is NaN on negative ones), so the
    logarithmic curve is stated for non-negative values only. *)
Definition applyCurve (c : Curve) (value : R) : R :=
  match c with
  | linear => value
  | exponential => value ^ 2
  | logarithmic => sqrt value
  | quantized => Num.round (value * 8) / 8
  end.

(** [target.value = value] on the object that [find] returned: the first
    target with the id. *)
Fixpoint writeTarget (l : list Target.t) (targetId : string) (value : R)
  : list Target.t :=
  match l with
  | [] => []
  | x :: r =>
      if Target.id x =? targetId
      then Target.mk (Target.id x) (Target.name x) (Target.category x) value :: r
      else x :: writeTarget r targetId value
  end.

Definition warning (connection : ModConnection) : string :=
  String.append "Connection missing: source="
    (String.append (sourceId connection)
       (String.append ", transform="
          (String.append (transformId connection)
             (String.append ", target=" (targetId connection))))).

Section WithRandom.

(** The results of the successive calls of [Math.random()]. *)
Variable random : nat -> R.

(** [applyTransform] returns the value and the number of [Math.random()]
    calls made after it. *)
Definition applyTransform (value : R) (transform : Transform.t) (calls : nat)
  : R * nat :=
  let value :=
    if Transform.trigger transform && Transform.gate transform
    then applyEnvelope value transform else value in
  let value := applyCurve (Transform.curve transform) value in
  let range := Transform.range transform in
  let value := value * (max range - min range) + min range in
  if Transform.jitter transform >? 0 then
    let jitterAmount := (random calls - 1 / 2) * 2 * Transform.jitter transform in
    (value + jitterAmount, S calls)
  else (value, calls).

(** The body of the [forEach] of [processConnections]. *)
Definition processConnection (w : world) (connection : ModConnection) : world :=
  let m := self w in
  match findSource m (sourceId connection),
        findTransform m (transformId connection),
        findTarget m (targetId connection) with
  | Some source, Some transform, Some target =>
      let value := Source.value source in
      let '(value, calls) := applyTransform value transform (randomCalls w) in
      let value := value * amount connection in
      mkWorld (mkMatrix (sources m) (transforms m)
                        (writeTarget (targets m) (targetId connection) value)
                        (connections m))
              calls (console w)
  | _, _, _ =>
      mkWorld m (randomCalls w) (console w ++ [warning connection])%list
  end.

Definition processConnections (w : world) : world :=
  fold_left processConnection (connections (self w)) w.

End WithRandom.

Definition clearConnections (m : matrix) : matrix :=
  mkMatrix (sources m) (transforms m) (targets m) [].

Definition addConnection (m : matrix) (connection : ModConnection) : matrix :=
  mkMatrix (sources m) (transforms m) (targets m)
           (connections m ++ [connection])%list.

Definition removeConnection (m : matrix) (sourceId' targetId' : string) : matrix :=
  mkMatrix (sources m) (transforms m) (targets m)
           (filter (fun conn => negb ((sourceId conn =? sourceId')
                                      && (targetId conn =? targetId')))
                   (connections m)).

(** [connection.amount = amount] on the first connection of the pair. *)
Fixpoint writeAmount (l : list ModConnection) (sourceId' targetId' : string)
  (amount' : R) : list ModConnection :=
  match l with
  | [] => []
  | conn :: r =>
      if (sourceId conn =? sourceId') && (targetId conn =? targetId')
      then mkConnection (sourceId conn) (transformId conn) (targetId conn) amount' :: r
      else conn :: writeAmount r sourceId' targetId' amount'
  end.

Definition updateConnectionAmount (m : matrix) (sourceId' targetId' : string)
  (amount' : R) : matrix :=
  match find (fun conn => (sourceId conn =? sourceId') && (targetId conn =? targetId'))
             (connections m) with
  | Some _ =>
      mkMatrix (sources m) (transforms m) (targets m)
               (writeAmount (connections m) sourceId' targetId' amount')
  | None => m
  end.

(** The [updates] object of [updateTransform]: the properties it has. *)
Record TransformUpdates := mkUpdates {
  u_id : option string;
  u_name : option string;
  u_attack : option R;
  u_decay : option R;
  u_hold : option R;
  u_curve : option Curve;
  u_range : option Range;
  u_polarity : option Polarity;
  u_gate : option bool;
  u_trigger : option bool;
  u_jitter : option R
}.

Definition orElse {A} (o : option A) (d : A) : A :=
  match o with Some x => x | None => d end.

(** [Object.assign(transform, updates)]. *)
Definition assign (transform : Transform.t) (updates : TransformUpdates)
  : Transform.t :=
  Transform.mk
    (orElse (u_id updates) (Transform.id transform))
    (orElse (u_name updates) (Transform.name transform))
    (orElse (u_attack updates) (Transform.attack transform))
    (orElse (u_decay updates) (Transform.decay transform))
    (orElse (u_hold updates) (Transform.hold transform))
    (orElse (u_curve updates) (Transform.curve transform))
    (orElse (u_range updates) (Transform.range transform))
    (orElse (u_polarity updates) (Transform.polarity transform))
    (orElse (u_gate updates) (Transform.gate transform))
    (orElse (u_trigger updates) (Transform.trigger transform))
    (orElse (u_jitter updates) (Transform.jitter transform)).

Fixpoint assignFirst (l : list Transform.t) (transformId' : string)
  (updates : TransformUpdates) : list Transform.t :=
  match l with
  | [] => []
  | x :: r =>
      if Transform.id x =? transformId'
      then assign x updates :: r
      else x :: assignFirst r transformId' updates
  end.

Definition updateTransform (m : matrix) (transformId' : string)
  (updates : TransformUpdates) : matrix :=
  match findTransform m transformId' with
  | Some _ =>
      mkMatrix (sources m) (assignFirst (transforms m) transformId' updates)
               (targets m) (connections m)
  | None => m
  end.

Definition isManual (sourceId' : string) (s : Source.t) : bool :=
  (Source.id s =? sourceId') && SourceType_eqb (Source.type s) manual.

Fixpoint writeManual (l : list Source.t) (sourceId' : string) (value : R)
  : list Source.t :=
  match l with
  | [] => []
  | s :: r =>
      if isManual sourceId' s
      then Source.mk (Source.id s) (Source.name s) value (Source.type s) :: r
      else s :: writeManual r sourceId' value
  end.

Definition updateManualSource (m : matrix) (sourceId' : string) (value : R)
  : matrix :=
  match find (isManual sourceId') (sources m) with
  | Some _ =>
      mkMatrix (writeManual (sources m) sourceId' value) (transforms m)
               (targets m) (connections m)
  | None => m
  end.

Definition updateLFOs (m : matrix) (time : R) : matrix :=
  mkMatrix
    (map (fun source =>
            if SourceType_eqb (Source.type source) lfo then
              let frequency := if Source.id source =? "lfo1" then 1 / 2 else 1 in
              Source.mk (Source.id source) (Source.name source)
                        (sin (time * frequency * PI * 2) * (1 / 2) + 1 / 2)
                        (Source.type source)
            else source)
         (sources m))
    (transforms m) (targets m) (connections m).

Definition Category_eqb (a b : Category) : bool :=
  match a, b with
  | motion, motion | shape, shape | color, color
  | fx, fx | material, material | mask, mask => true
  | _, _ => false
  end.

Definition getTargetsByCategory (m : matrix) (category : Category) : list Target.t :=
  filter (fun target => Category_eqb (Target.category target) category) (targets m).

End ModMatrix.

(** ** The built-in presets ([LivePresets.ts]) *)

Module LivePresets.

Import ModMatrix.

Local Open Scope string_scope.

Record preset := mkPreset {
  id : string;
  name : string;
  type : string;
  parameters : list (string * R);
  connections : list ModConnection
}.

Definition getBeamPreset : preset :=
  mkPreset "beam" "BEAM" "beam"
    [ ("waveform", 0); ("vertices", 3); ("scale", 1); ("rotation", 0);
      ("hue", 0); ("saturation", 1); ("value", 1); ("bloom", 3 / 10);
      ("strobe", 0) ]
    [ mkConnection "low" "env1" "scale" (8 / 10);
      mkConnection "low" "env1" "bloom" (6 / 10);
      mkConnection "high" "env2" "strobe" (4 / 10);
      mkConnection "centroid" "curve1" "hue" (3 / 10);
      mkConnection "rms" "env1" "value" (7 / 10);
      mkConnection "onset" "env2" "rotation" (5 / 10) ].

Definition getWavePreset : preset :=
  mkPreset "wave" "WAVE" "wave"
    [ ("waveform", 2 / 10); ("vertices", 4); ("scale", 1); ("rotation", 0);
      ("hue", 33 / 100); ("saturation", 1); ("value", 1); ("bloom", 2 / 10);
      ("domainWarp", 0); ("noise", 0) ]
    [ mkConnection "low" "env1" "scale" 1;
      mkConnection "mid" "env1" "domainWarp" (6 / 10);
      mkConnection "high" "env2" "noise" (4 / 10);
      mkConnection "centroid" "curve1" "hue" (4 / 10);
      mkConnection "peak" "env1" "bloom" (5 / 10);
      mkConnection "bpm" "curve1" "rotation" (3 / 10) ].

Definition getParticlesPreset : preset :=
  mkPreset "particles" "PARTICLES" "particles"
    [ ("waveform", 8 / 10); ("vertices", 5); ("scale", 1); ("rotation", 0);
      ("hue", 67 / 100); ("saturation", 1); ("value", 1); ("bloom", 4 / 10);
      ("noise", 0); ("shake", 0) ]
    [ mkConnection "low" "env1" "scale" (9 / 10);
      mkConnection "mid" "env1" "noise" (7 / 10);
      mkConnection "high" "env2" "shake" (6 / 10);
      mkConnection "centroid" "curve1" "hue" (5 / 10);
      mkConnection "rms" "env1" "bloom" (8 / 10);
      mkConnection "onset" "env2" "rotation" (7 / 10) ].

Definition getAllPresets : list preset :=
  [ getBeamPreset; getWavePreset; getParticlesPreset ].

(** [presets.find(...) || null]. *)
Definition getPresetById (id' : string) : option preset :=
  find (fun preset => id preset =? id') getAllPresets.

Definition applyPresetToModMatrix (modMatrix : matrix) (p : preset) : matrix :=
  fold_left addConnection (connections p) (clearConnections modMatrix).

End LivePresets.

(** ** The per-frame use of the queue ([StudioView.tsx], [animate]) *)

Module StudioView.

(** "Process onsets into events": one event per onset of the frame, all
    with the frame's time; [pitch] and [centroid] are [analysisFrame.pitch]
    and [analysisFrame.centroid]. *)
Definition eventsOfFrame (analysisFrame : AudioEngine.AnalysisFrame)
  (pitch centroid : option R) : list EventQueue.AudioEvent :=
  map (fun onset =>
         EventQueue.mkEvent (AudioEngine.time analysisFrame)
                            (AudioEngine.band onset) (AudioEngine.energy onset)
                            pitch centroid)
      (AudioEngine.onsets analysisFrame).

(** The events handed to the renderer for a frame, and the queue left
    behind: push every event of the frame, then take the window of the
    last 16 ms. *)
Definition frameEvents (q : EventQueue.queue)
  (analysisFrame : AudioEngine.AnalysisFrame) (pitch centroid : option R)
  : list EventQueue.AudioEvent * EventQueue.queue :=
  let events := eventsOfFrame analysisFrame pitch centroid in
  let q := fold_left EventQueue.push events q in
  let currentTime := AudioEngine.time analysisFrame in
  EventQueue.popSince q (currentTime - 16 / 1000) currentTime.

End StudioView.

(** ** Definitions that follow the words of the specification *)

Module Spec.

Import EventQueue.

(** The members of a cluster that carry the optional property [f], each
    paired with its energy. *)
Definition carriers (f : AudioEvent -> option R) (members : list AudioEvent)
  : list (R * R) :=
  flat_map (fun e => match f e with
                     | Some v => [(v, energy e)]
                     | None => []
                     end) members.

Definition sumWeights (cs : list (R * R)) : R :=
  fold_right (fun c s => snd c + s) 0 cs.

Definition sumWeighted (cs : list (R * R)) : R :=
  fold_right (fun c s => fst c * snd c + s) 0 cs.

Definition sumEnergy (members : list AudioEvent) : R :=
  fold_right (fun e s => energy e + s) 0 members.

(** "energy-weighted average of all cluster members that carry a pitch
    (undefined if none do)". *)
Definition weightedAverage (f : AudioEvent -> option R)
  (members : list AudioEvent) : option R :=
  match carriers f members with
  | [] => None
  | cs => Some (sumWeighted cs / sumWeights cs)
  end.

(** The average as the queue computes it: present only when the carrying
    members have positive total energy. *)
Definition guardedAverage (f : AudioEvent -> option R)
  (members : list AudioEvent) : option R :=
  let cs := carriers f members in
  if sumWeights cs >? 0 then Some (sumWeighted cs / sumWeights cs) else None.

(** The merged event of two clustered events, as the specification words
    it, for a given reading [average] of the weighted average. *)
Definition merged (average : (AudioEvent -> option R) -> list AudioEvent -> option R)
  (e1 e2 : AudioEvent) : AudioEvent :=
  {| t := t e2;
     band := band e2;
     energy := Rmin 1 (energy e1 + energy e2);
     pitch := average pitch [e1; e2];
     centroid := average centroid [e1; e2] |}.

(** "[Σ energy_i * exp(-(now - t_i)/halfLife)] over all retained events with
    [now >= t_i], clamped to 1.0". *)
Definition memory (q : queue) (now : R) : R :=
  Rmin 1 (fold_right
            (fun e s => energy e * exp (- (now - t e) / halfLife q) + s) 0
            (filter (fun e => t e <=? now) (events q))).

(** Call sequences on a queue: the operations that the specification
    lists as mutating it, and the setter of the half-life. *)
Inductive op :=
| Push (event : AudioEvent)
| PopSince (t0 t1 : R)
| Cleanup (currentTime : R)
| SetHalfLife (halfLife : R).

Definition step (q : queue) (o : op) : queue :=
  match o with
  | Push event => push q event
  | PopSince t0 t1 => snd (popSince q t0 t1)
  | Cleanup currentTime => cleanup q currentTime
  | SetHalfLife h => setHalfLife q h
  end.

Definition run (q : queue) (ops : list op) : queue := fold_left step ops q.

(** Two events lie outside each other's cluster window. *)
Definition apart (a b : AudioEvent) : Prop := Rabs (t a - t b) > clusterWindow.

(** "at most one [AudioEvent] exists per 30 ms cluster window": events at
    different positions of the list are more than the window apart. *)
Definition separated (l : list AudioEvent) : Prop :=
  forall (i j : nat) (a b : AudioEvent),
    i <> j -> nth_error l i = Some a -> nth_error l j = Some b -> apart a b.

(** "spectral flux = sum of positive differences between the current and
    previous magnitude spectrum restricted to the band's bin range,
    normalized by bin count". *)
Definition spectralFlux (current previous : list R) (startBin endBin : Z) : R :=
  fold_right
    (fun i s => Rmax (nth (Z.to_nat i) current 0 - nth (Z.to_nat i) previous 0) 0 + s)
    0 (AudioEngine.bins startBin endBin)
  / IZR (endBin - startBin).

(** "look up Source/Transform/Target by id; if any is missing, skip the
    connection": a connection resolves when all three ids are found. *)
Definition resolves (m : ModMatrix.matrix) (c : ModMatrix.ModConnection) : bool :=
  match ModMatrix.findSource m (ModMatrix.sourceId c),
        ModMatrix.findTransform m (ModMatrix.transformId c),
        ModMatrix.findTarget m (ModMatrix.targetId c) with
  | Some _, Some _, Some _ => true
  | _, _, _ => false
  end.

(** A connection from source [s] to target [t]: the test of
    [removeConnection] and [updateConnectionAmount]. *)
Definition samePair (s t : string) (c : ModMatrix.ModConnection) : bool :=
  (String.eqb (ModMatrix.sourceId c) s) && (String.eqb (ModMatrix.targetId c) t).

(** The matrix with another connection list. *)
Definition withConnections (w : ModMatrix.world) (l : list ModMatrix.ModConnection)
  : ModMatrix.world :=
  ModMatrix.mkWorld
    (ModMatrix.mkMatrix (ModMatrix.sources (ModMatrix.self w))
                        (ModMatrix.transforms (ModMatrix.self w))
                        (ModMatrix.targets (ModMatrix.self w)) l)
    (ModMatrix.randomCalls w) (ModMatrix.console w).

End Spec.

(** * Properties *)

(** ** Comparisons *)

Lemma geb_true (x y : R) : Num.geb x y = true <-> x >= y.
Proof. unfold Num.geb; destruct (Rge_dec x y); split; intros; auto; discriminate. Qed.

Lemma leb_true (x y : R) : Num.leb x y = true <-> x <= y.
Proof. unfold Num.leb; destruct (Rle_dec x y); split; intros; auto; discriminate. Qed.

Lemma gtb_true (x y : R) : Num.gtb x y = true <-> x > y.
Proof. unfold Num.gtb; destruct (Rgt_dec x y); split; intros; auto; discriminate. Qed.

Lemma ltb_true (x y : R) : Num.ltb x y = true <-> x < y.
Proof. unfold Num.ltb; destruct (Rlt_dec x y); split; intros; auto; discriminate. Qed.

Lemma geb_false (x y : R) : Num.geb x y = false <-> x < y.
Proof. unfold Num.geb; destruct (Rge_dec x y); split; intros; try lra; auto; discriminate. Qed.

Lemma leb_false (x y : R) : Num.leb x y = false <-> y < x.
Proof. unfold Num.leb; destruct (Rle_dec x y); split; intros; try lra; auto; discriminate. Qed.

Lemma gtb_false (x y : R) : Num.gtb x y = false <-> x <= y.
Proof. unfold Num.gtb; destruct (Rgt_dec x y); split; intros; try lra; auto; discriminate. Qed.

Lemma ltb_false (x y : R) : Num.ltb x y = false <-> y <= x.
Proof. unfold Num.ltb; destruct (Rlt_dec x y); split; intros; try lra; auto; discriminate. Qed.


(** Decide a comparison of the source in the goal or a hypothesis. *)
Ltac js_cmp :=
  repeat match goal with
  | H : (_ >=? _) = true |- _ => apply geb_true in H
  | H : (_ <=? _) = true |- _ => apply leb_true in H
  | H : (_ >? _) = true |- _ => apply gtb_true in H
  | H : (_ <? _) = true |- _ => apply ltb_true in H
  | H : (_ >=? _) = false |- _ => apply geb_false in H
  | H : (_ <=? _) = false |- _ => apply leb_false in H
  | H : (_ >? _) = false |- _ => apply gtb_false in H
  | H : (_ <? _) = false |- _ => apply ltb_false in H
  | H : (_ && _) = true |- _ => apply andb_true_iff in H; destruct H
  | |- (_ >=? _) = true => apply geb_true
  | |- (_ <=? _) = true => apply leb_true
  | |- (_ >? _) = true => apply gtb_true
  | |- (_ <? _) = true => apply ltb_true
  | |- (_ >=? _) = false => apply geb_false
  | |- (_ <=? _) = false => apply leb_false
  | |- (_ >? _) = false => apply gtb_false
  | |- (_ <? _) = false => apply ltb_false
  end.


(** ** Clustering on push *)

Section Clustering.

Import EventQueue.

Lemma fold_accumulate (l : list AudioEvent) (acc : totals) :
  let r := fold_left accumulate l acc in
  totalEnergy r = totalEnergy acc + Spec.sumEnergy l
  /\ weightedPitch r = weightedPitch acc + Spec.sumWeighted (Spec.carriers pitch l)
  /\ pitchWeight r = pitchWeight acc + Spec.sumWeights (Spec.carriers pitch l)
  /\ weightedCentroid r = weightedCentroid acc + Spec.sumWeighted (Spec.carriers centroid l)
  /\ centroidWeight r = centroidWeight acc + Spec.sumWeights (Spec.carriers centroid l).
Proof.
  revert acc; induction l as [|e l IH]; intros acc; simpl.
  - repeat split; lra.
  - specialize (IH (accumulate acc e)); simpl in IH.
    destruct IH as (H1 & H2 & H3 & H4 & H5).
    rewrite H1, H2, H3, H4, H5; clear.
    unfold accumulate.
    destruct (pitch e), (centroid e); simpl; repeat split; lra.
Qed.

(** The combined event of a cluster: energies add up and are capped at 1,
    time and band are the new event's, pitch and centroid are the guarded
    energy-weighted averages. *)
Lemma combine_eq (l : list AudioEvent) (newEvent : AudioEvent) :
  combine l newEvent =
  {| t := t newEvent;
     band := band newEvent;
     energy := Rmin 1 (Spec.sumEnergy l);
     pitch := Spec.guardedAverage pitch l;
     centroid := Spec.guardedAverage centroid l |}.
Proof.
  unfold combine, Spec.guardedAverage, Num.min.
  destruct (fold_accumulate l (mkTotals 0 0 0 0 0)) as (H1 & H2 & H3 & H4 & H5).
  simpl in *. rewrite H1, H2, H3, H4, H5, !Rplus_0_l, Rmin_comm.
  reflexivity.
Qed.

Lemma inCluster_iff (newEvent event : AudioEvent) :
  inCluster newEvent event = true
  <-> Rabs (t event - t newEvent) <= clusterWindow.
Proof.
  unfold inCluster; rewrite andb_true_iff, geb_true, leb_true.
  split.
  - intros [H1 H2]; unfold Rabs; destruct (Rcase_abs _); lra.
  - unfold Rabs; destruct (Rcase_abs _); lra.
Qed.

Lemma filter_none {A} (f : A -> bool) (l : list A) :
  forallb (fun x => negb (f x)) l = true -> filter f l = [].
Proof.
  induction l as [|x l IH]; simpl; auto.
  intros H; apply andb_true_iff in H; destruct H as [Hx Hl].
  destruct (f x); [discriminate | auto].
Qed.

Lemma filter_all {A} (f : A -> bool) (l : list A) :
  forallb f l = true -> filter f l = l.
Proof.
  induction l as [|x l IH]; simpl; auto.
  intros H; apply andb_true_iff in H; destruct H as [Hx Hl].
  rewrite Hx, IH; auto.
Qed.

(** Pushing into a queue that holds nothing in the window of the event
    appends the event unchanged. *)
Lemma push_outside (q : queue) (e : AudioEvent) :
  forallb (fun x => negb (inCluster e x)) (events q) = true ->
  events (push q e) = events q ++ [e].
Proof.
  intros H. unfold push, clusterEvent.
  rewrite partition_as_filter.
  rewrite (filter_none _ _ H), (filter_all _ _ H); reflexivity.
Qed.

(** Pushing into a queue that holds events in the window of the new event
    replaces them by one combined event, placed last. *)
Lemma push_inside (q : queue) (e : AudioEvent) :
  filter (inCluster e) (events q) <> [] ->
  events (push q e) =
  filter (fun x => negb (inCluster e x)) (events q)
  ++ [combine (filter (inCluster e) (events q) ++ [e]) e].
Proof.
  intros H. unfold push, clusterEvent.
  rewrite partition_as_filter.
  destruct (filter (inCluster e) (events q)); [congruence | reflexivity].
Qed.

Lemma push_two (h : R) (e1 e2 : AudioEvent) :
  Rabs (t e1 - t e2) <= 3 / 100 ->
  events (push (push (constructor h) e1) e2) = [Spec.merged Spec.guardedAverage e1 e2].
Proof.
  intros H.
  assert (H1 : events (push (constructor h) e1) = [e1]) by reflexivity.
  apply inCluster_iff in H.
  rewrite push_inside; rewrite H1; simpl; rewrite H; simpl; [|discriminate].
  rewrite combine_eq. unfold Spec.merged, Spec.sumEnergy; simpl.
  now rewrite Rplus_0_r.
Qed.

Lemma guardedAverage_positive (f : AudioEvent -> option R) (l : list AudioEvent) :
  0 < Spec.sumWeights (Spec.carriers f l) ->
  Spec.guardedAverage f l = Spec.weightedAverage f l.
Proof.
  intros H. unfold Spec.guardedAverage, Spec.weightedAverage.
  assert (Hg : (Spec.sumWeights (Spec.carriers f l) >? 0) = true) by (js_cmp; lra).
  rewrite Hg. destruct (Spec.carriers f l); [simpl in H; lra | reflexivity].
Qed.

Lemma guardedAverage_no_carrier (f : AudioEvent -> option R) (l : list AudioEvent) :
  Spec.carriers f l = [] ->
  Spec.guardedAverage f l = None /\ Spec.weightedAverage f l = None.
Proof.
  intros H. unfold Spec.guardedAverage, Spec.weightedAverage. rewrite H; simpl.
  assert (Hg : (0 >? 0) = false) by (js_cmp; lra).
  now rewrite Hg.
Qed.

(** C1 (as amended): two events at most 30 ms apart, pushed into an empty
    queue, leave exactly one retained event. Its energy is
    [min 1 (e1.energy + e2.energy)], its [t] and [band] are those of the
    newest event, and its pitch (likewise its centroid) is the
    energy-weighted average of the members that carry one when the total
    energy of those members is positive, and absent otherwise; the latter
    covers the case where no member carries one. *)
Theorem push_pair_within_window (h : R) (e1 e2 : AudioEvent) :
  Rabs (t e1 - t e2) <= 3 / 100 ->
  exists m,
    events (push (push (constructor h) e1) e2) = [m]
    /\ energy m = Rmin 1 (energy e1 + energy e2)
    /\ t m = t e2
    /\ band m = band e2
    /\ (forall f, (f = pitch \/ f = centroid) ->
        let cs := Spec.carriers f [e1; e2] in
        f m = (if Spec.sumWeights cs >? 0
               then Some (Spec.sumWeighted cs / Spec.sumWeights cs) else None)
        /\ (0 < Spec.sumWeights cs -> f m = Spec.weightedAverage f [e1; e2])
        /\ (cs = [] -> f m = None)).
Proof.
  intros H. exists (Spec.merged Spec.guardedAverage e1 e2).
  split; [now apply push_two|].
  repeat split; try reflexivity.
  - destruct H0; subst f; reflexivity.
  - intros Hpos. destruct H0; subst f; simpl; now apply guardedAverage_positive.
  - intros Hnil.
    destruct H0; subst f; simpl; now apply guardedAverage_no_carrier.
Qed.

(** The scenario of the specification: [{t=0, energy=0.4}] followed by
    [{t=0.02, energy=0.5, band='low'}] leaves one event of energy 0.9. *)
Lemma push_pair_within_window_witness :
  let e1 := mkEvent 0 low (4 / 10) None None in
  let e2 := mkEvent (2 / 100) low (5 / 10) None None in
  Rabs (t e1 - t e2) <= 3 / 100
  /\ exists m, events (push (push (constructor (3 / 2)) e1) e2) = [m]
               /\ energy m = 9 / 10 /\ band m = low /\ pitch m = None.
Proof.
  intros e1 e2.
  assert (H : Rabs (t e1 - t e2) <= 3 / 100).
  { unfold e1, e2; simpl. unfold Rabs; destruct (Rcase_abs _); lra. }
  split; [exact H|].
  destruct (push_pair_within_window (3 / 2) e1 e2 H) as (m & Hm & He & _ & Hb & Hf).
  exists m. split; [exact Hm|]. split; [|split].
  - rewrite He. unfold e1, e2; simpl. unfold Rmin; destruct (Rle_dec _ _); lra.
  - rewrite Hb; reflexivity.
  - destruct (Hf pitch (or_introl eq_refl)) as (_ & _ & Hn). apply Hn; reflexivity.
Defined.

(** C1 as the specification words it fails: a member that carries a pitch
    but has energy 0 leaves the merged pitch absent, although one member
    carries a pitch. *)
Lemma push_pair_pitch_counterexample :
  ~ (forall (h : R) (e1 e2 : AudioEvent),
        Rabs (t e1 - t e2) <= 3 / 100 ->
        events (push (push (constructor h) e1) e2)
        = [Spec.merged Spec.weightedAverage e1 e2]).
Proof.
  intros C.
  pose (e1 := mkEvent 0 low 0 (Some 440) None).
  pose (e2 := mkEvent (2 / 100) low (1 / 2) None None).
  assert (H : Rabs (t e1 - t e2) <= 3 / 100).
  { unfold e1, e2; simpl. unfold Rabs; destruct (Rcase_abs _); lra. }
  specialize (C (3 / 2) e1 e2 H).
  rewrite (push_two _ _ _ H) in C.
  assert (Hp : pitch (Spec.merged Spec.guardedAverage e1 e2)
               = pitch (Spec.merged Spec.weightedAverage e1 e2)) by congruence.
  unfold Spec.merged, Spec.guardedAverage, Spec.weightedAverage in Hp; simpl in Hp.
  assert (Hg : (0 + 0 >? 0) = false) by (js_cmp; lra).
  rewrite Hg in Hp; discriminate.
Qed.

End Clustering.

(** ** Consuming a window: [popSince] *)

Section Windows.

Import EventQueue.

Lemma fold_popStep (t0 t1 : R) (l rel rem : list AudioEvent) :
  fold_left (popStep t0 t1) l (rel, rem)
  = (rel ++ filter (inWindow t0 t1) l,
     rem ++ filter (fun e => t e >? t1) l).
Proof.
  revert rel rem; induction l as [|e l IH]; intros rel rem; cbn [fold_left filter].
  - now rewrite !app_nil_r.
  - unfold popStep at 2.
    destruct (inWindow t0 t1 e) eqn:Hw.
    + rewrite IH, <- app_assoc; simpl.
      unfold inWindow in Hw; js_cmp.
      assert (Hg : (t e >? t1) = false) by (js_cmp; lra).
      now rewrite Hg.
    + destruct (t e >? t1); rewrite IH; [rewrite <- app_assoc|]; reflexivity.
Qed.

Lemma popSince_eq (q : queue) (t0 t1 : R) :
  popSince q t0 t1
  = (filter (inWindow t0 t1) (events q),
     setEvents q (filter (fun e => t e >? t1) (events q))).
Proof. unfold popSince. now rewrite fold_popStep. Qed.

Lemma filter_twice {A} (f g : A -> bool) (l : list A) :
  filter f (filter g l) = filter (fun x => g x && f x) l.
Proof.
  induction l as [|x l IH]; simpl; auto.
  destruct (g x); simpl; [destruct (f x)|]; now rewrite IH.
Qed.

Lemma filter_split {A} (f g : A -> bool) (l : list A) :
  (forall x, f x = true -> g x = false) ->
  Permutation (filter f l ++ filter g l) (filter (fun x => f x || g x) l).
Proof.
  intros Hd. induction l as [|x l IH]; simpl; auto.
  destruct (f x) eqn:Hf; simpl.
  - rewrite (Hd _ Hf). now constructor.
  - destruct (g x); auto.
    symmetry. apply Permutation_cons_app. now symmetry.
Qed.

(** C2: [popSince t0 t1] returns exactly the retained events with
    [t0 <= t <= t1], so nothing outside the window; the queue keeps exactly
    the events with [t > t1], hence the returned events are removed and,
    for a window [t0 <= t1], the events before [t0] are dropped. Two calls
    over adjacent windows [[a,b]] and [[b',c]] with [a <= b <= b' <= c]
    return disjoint lists that together hold each event of the union of
    the windows exactly as often as the queue did. *)
Theorem popSince_window (q : queue) (t0 t1 : R) :
  let returned := fst (popSince q t0 t1) in
  let q' := snd (popSince q t0 t1) in
  returned = filter (inWindow t0 t1) (events q)
  /\ (forall e, In e returned <-> In e (events q) /\ t0 <= t e <= t1)
  /\ (forall e, In e (events q') <-> In e (events q) /\ t e > t1)
  /\ events q' = filter (fun e => t e >? t1) (events q)
  /\ (forall e, In e returned -> ~ In e (events q'))
  /\ (t0 <= t1 ->
      forall e, t e < t0 -> ~ In e returned /\ ~ In e (events q'))
  /\ (forall b' c, t0 <= t1 -> t1 <= b' -> b' <= c ->
      let returned' := fst (popSince q' b' c) in
      Permutation (returned ++ returned')
        (filter (fun e => inWindow t0 t1 e || inWindow b' c e) (events q))
      /\ (forall e, In e returned -> In e returned' -> False)).
Proof.
  rewrite popSince_eq; simpl.
  assert (Hret : forall e, In e (filter (inWindow t0 t1) (events q))
                           <-> In e (events q) /\ t0 <= t e <= t1).
  { intros e. rewrite filter_In. unfold inWindow.
    rewrite andb_true_iff, geb_true, leb_true.
    split; intros [H1 H2]; split; auto; lra. }
  assert (Hrem : forall e, In e (filter (fun e => t e >? t1) (events q))
                           <-> In e (events q) /\ t e > t1).
  { intros e. rewrite filter_In, gtb_true. tauto. }
  split; [reflexivity|].
  split; [exact Hret|].
  split; [exact Hrem|].
  split; [reflexivity|].
  split; [|split].
  - intros e H1 H2. apply Hret in H1. apply Hrem in H2. lra.
  - intros Hle e Hlt. rewrite Hret, Hrem. split; intros [_ H]; lra.
  - intros b' c H01 H1b Hbc. rewrite popSince_eq; simpl.
    rewrite filter_twice. split.
    + rewrite filter_split.
      * apply Permutation_refl'. apply filter_ext_in. intros e _.
        destruct (inWindow t0 t1 e) eqn:H1; simpl; auto.
        destruct (inWindow b' c e) eqn:H2; simpl.
        -- rewrite andb_true_r. unfold inWindow in *. js_cmp.
           apply andb_false_iff in H1.
           destruct H1 as [H1|H1]; js_cmp; lra.
        -- now rewrite andb_false_r.
      * intros e H1. unfold inWindow in H1. js_cmp.
        assert (Hg : (t e >? t1) = false) by (js_cmp; lra).
        now rewrite Hg.
    + intros e H1 H2. apply Hret in H1. apply filter_In in H2.
      destruct H2 as [_ H2]. js_cmp. lra.
Qed.

Lemma popSince_window_witness :
  let q := mkQueue [mkEvent 1 low (1 / 2) None None;
                    mkEvent 2 mid (1 / 2) None None;
                    mkEvent 3 high (1 / 2) None None] (3 / 2) in
  let returned := fst (popSince q 2 2) in
  let q' := snd (popSince q 2 2) in
  2 <= 2
  /\ (forall e, t e < 2 -> ~ In e returned /\ ~ In e (events q'))
  /\ returned = filter (inWindow 2 2) (events q).
Proof.
  intros q returned q'.
  destruct (popSince_window q 2 2) as (H1 & _ & _ & _ & _ & H6 & _).
  split; [lra|]. split; [|exact H1].
  apply H6; lra.
Defined.

End Windows.

(** ** Half-life memory: [getMemoryValue] *)

Section Memory.

Import EventQueue.

Lemma fold_memoryStep (q : queue) (now : R) (l : list AudioEvent) (acc : R) :
  fold_left (memoryStep q now) l acc
  = acc + fold_right
            (fun e s => energy e * exp (- (now - t e) / halfLife q) + s) 0
            (filter (fun e => t e <=? now) l).
Proof.
  revert acc; induction l as [|e l IH]; intros acc; cbn [fold_left filter].
  - simpl; lra.
  - rewrite IH. unfold memoryStep.
    destruct (t e <=? now) eqn:Hle; js_cmp.
    + assert (Hg : (now - t e >=? 0) = true) by (js_cmp; lra).
      rewrite Hg; simpl; lra.
    + assert (Hg : (now - t e >=? 0) = false) by (js_cmp; lra).
      rewrite Hg; reflexivity.
Qed.

Lemma getMemoryValue_eq (q : queue) (now : R) :
  getMemoryValue q now = Spec.memory q now.
Proof.
  unfold getMemoryValue, Spec.memory, Num.min.
  now rewrite fold_memoryStep, Rplus_0_l, Rmin_comm.
Qed.

Lemma filter_idem {A} (f : A -> bool) (l : list A) :
  filter f (filter f l) = filter f l.
Proof.
  induction l as [|x l IH]; simpl; auto.
  destruct (f x) eqn:Hf; simpl; [rewrite Hf, IH|]; auto.
Qed.




(** *** Numeric bounds on [exp (-1)] and [exp (-2)] *)

Lemma exp_double_lower (a x : R) :
  0 <= a -> a <= exp x -> a * a <= exp (2 * x).
Proof.
  intros Ha H. replace (2 * x) with (x + x) by ring.
  rewrite exp_plus. apply Rmult_le_compat; lra.
Qed.

Lemma exp_neg_lower : 363 / 1000 <= exp (- 1) /\ 131 / 1000 <= exp (- 2).
Proof.
  assert (H0 : 63 / 64 <= exp (- / 64)).
  { generalize (exp_ineq1_le (- / 64)); lra. }
  assert (H1 : 9689 / 10000 <= exp (2 * - / 64))
    by (apply Rle_trans with (63 / 64 * (63 / 64)); [lra | apply exp_double_lower; lra]).
  assert (H2 : 9387 / 10000 <= exp (2 * (2 * - / 64)))
    by (apply Rle_trans with (9689 / 10000 * (9689 / 10000)); [lra | apply exp_double_lower; lra]).
  assert (H3 : 8811 / 10000 <= exp (2 * (2 * (2 * - / 64))))
    by (apply Rle_trans with (9387 / 10000 * (9387 / 10000)); [lra | apply exp_double_lower; lra]).
  assert (H4 : 7763 / 10000 <= exp (2 * (2 * (2 * (2 * - / 64)))))
    by (apply Rle_trans with (8811 / 10000 * (8811 / 10000)); [lra | apply exp_double_lower; lra]).
  assert (H5 : 6026 / 10000 <= exp (2 * (2 * (2 * (2 * (2 * - / 64))))))
    by (apply Rle_trans with (7763 / 10000 * (7763 / 10000)); [lra | apply exp_double_lower; lra]).
  assert (H6 : 3631 / 10000 <= exp (2 * (2 * (2 * (2 * (2 * (2 * - / 64)))))))
    by (apply Rle_trans with (6026 / 10000 * (6026 / 10000)); [lra | apply exp_double_lower; lra]).
  assert (H7 : 1318 / 10000 <= exp (2 * (2 * (2 * (2 * (2 * (2 * (2 * - / 64))))))))
    by (apply Rle_trans with (3631 / 10000 * (3631 / 10000)); [lra | apply exp_double_lower; lra]).
  replace (2 * (2 * (2 * (2 * (2 * (2 * - / 64)))))) with (- 1) in H6 by lra.
  replace (2 * (2 * (2 * (2 * (2 * (2 * (2 * - / 64))))))) with (- 2) in H7 by lra.
  lra.
Qed.

Lemma exp_pos_lower : 26843 / 10000 <= exp 1 /\ 72054 / 10000 <= exp 2.
Proof.
  assert (H0 : 65 / 64 <= exp (/ 64)).
  { generalize (exp_ineq1_le (/ 64)); lra. }
  assert (H1 : 10314 / 10000 <= exp (2 * / 64))
    by (apply Rle_trans with (65 / 64 * (65 / 64)); [lra | apply exp_double_lower; lra]).
  assert (H2 : 10637 / 10000 <= exp (2 * (2 * / 64)))
    by (apply Rle_trans with (10314 / 10000 * (10314 / 10000)); [lra | apply exp_double_lower; lra]).
  assert (H3 : 11314 / 10000 <= exp (2 * (2 * (2 * / 64))))
    by (apply Rle_trans with (10637 / 10000 * (10637 / 10000)); [lra | apply exp_double_lower; lra]).
  assert (H4 : 12800 / 10000 <= exp (2 * (2 * (2 * (2 * / 64)))))
    by (apply Rle_trans with (11314 / 10000 * (11314 / 10000)); [lra | apply exp_double_lower; lra]).
  assert (H5 : 16384 / 10000 <= exp (2 * (2 * (2 * (2 * (2 * / 64))))))
    by (apply Rle_trans with (12800 / 10000 * (12800 / 10000)); [lra | apply exp_double_lower; lra]).
  assert (H6 : 26843 / 10000 <= exp (2 * (2 * (2 * (2 * (2 * (2 * / 64)))))))
    by (apply Rle_trans with (16384 / 10000 * (16384 / 10000)); [lra | apply exp_double_lower; lra]).
  assert (H7 : 72054 / 10000 <= exp (2 * (2 * (2 * (2 * (2 * (2 * (2 * / 64))))))))
    by (apply Rle_trans with (26843 / 10000 * (26843 / 10000)); [lra | apply exp_double_lower; lra]).
  replace (2 * (2 * (2 * (2 * (2 * (2 * / 64)))))) with 1 in H6 by lra.
  replace (2 * (2 * (2 * (2 * (2 * (2 * (2 * / 64))))))) with 2 in H7 by lra.
  lra.
Qed.

Lemma exp_neg_upper : exp (- 1) <= 373 / 1000 /\ exp (- 2) <= 139 / 1000.
Proof.
  destruct exp_pos_lower as [H1 H2].
  assert (P1 := exp_pos (- 1)). assert (P2 := exp_pos (- 2)).
  assert (E1 : exp (- 1) * exp 1 = 1).
  { rewrite <- exp_plus. replace (- 1 + 1) with 0 by ring. apply exp_0. }
  assert (E2 : exp (- 2) * exp 2 = 1).
  { rewrite <- exp_plus. replace (- 2 + 2) with 0 by ring. apply exp_0. }
  split; nra.
Qed.

(** The queue of the scenario: one event [{t=0, band='low', energy=1.0}]
    pushed into an empty queue of half-life 1.5 s. *)
Lemma memory_single (now : R) :
  0 <= now ->
  getMemoryValue (push (constructor (3 / 2)) (mkEvent 0 low 1 None None)) now
  = exp (- now / (3 / 2)).
Proof.
  intros Hn.
  unfold getMemoryValue; simpl. unfold memoryStep; simpl.
  assert (Hg : (now - 0 >=? 0) = true) by (js_cmp; lra).
  rewrite Hg. unfold Num.min.
  replace (- (now - 0) / (3 / 2)) with (- now / (3 / 2)) by (f_equal; lra).
  assert (Hle : exp (- now / (3 / 2)) <= 1).
  { rewrite <- exp_0. destruct Hn as [Hn|Hn].
    - left. apply exp_increasing.
      apply Rmult_lt_reg_r with (3 / 2); [lra|]. 
      unfold Rdiv. rewrite Rmult_assoc, Rinv_l; lra.
    - subst now. right. f_equal. lra. }
  rewrite Rmin_left; lra.
Qed.

(** C4 (as amended): with half-life 1.5 s and the single event
    [{t=0, band='low', energy=1.0}], [getMemoryValue 1.5] is [exp (-1)],
    about 0.368, and [getMemoryValue 3.0] is [exp (-2)], about 0.135:
    the decay is [exp (-age / halfLife)], so one [halfLife] scales the
    contribution by [1/e], not by [1/2]. *)
Theorem getMemoryValue_scenario :
  let q := push (constructor (3 / 2)) (mkEvent 0 low 1 None None) in
  getMemoryValue q (3 / 2) = exp (- 1)
  /\ getMemoryValue q 3 = exp (- 2)
  /\ 363 / 1000 <= getMemoryValue q (3 / 2) <= 373 / 1000
  /\ 131 / 1000 <= getMemoryValue q 3 <= 139 / 1000.
Proof.
  intros q. unfold q.
  rewrite !memory_single by lra.
  replace (- (3 / 2) / (3 / 2)) with (- 1) by lra.
  replace (- (3) / (3 / 2)) with (- 2) by lra.
  destruct exp_neg_lower, exp_neg_upper. repeat split; lra.
Qed.

(** C4 as the specification words it fails: the value at 1.5 s is not
    within 0.001 of 0.5, and the value at 3.0 s is not within 0.001 of
    0.25. *)
Lemma getMemoryValue_scenario_counterexample :
  let q := push (constructor (3 / 2)) (mkEvent 0 low 1 None None) in
  ~ Rabs (getMemoryValue q (3 / 2) - 1 / 2) <= 1 / 1000
  /\ ~ Rabs (getMemoryValue q 3 - 1 / 4) <= 1 / 1000.
Proof.
  intros q. unfold q.
  rewrite !memory_single by lra.
  replace (- (3 / 2) / (3 / 2)) with (- 1) by lra.
  replace (- (3) / (3 / 2)) with (- 2) by lra.
  destruct exp_neg_upper as [Hu1 Hu2].
  split; intros H; unfold Rabs in H; destruct (Rcase_abs _); lra.
Qed.

End Memory.

(** ** Expiry and configuration: [cleanup], [setHalfLife] *)

Section Expiry.

Import EventQueue.

Lemma cleanup_eq (q : queue) (now : R) :
  events (cleanup q now)
  = filter (fun e => now - t e <? 3 * halfLife q) (events q).
Proof.
  unfold cleanup; simpl. apply filter_ext. intros e.
  destruct (t e >? now - halfLife q * 3) eqn:H; js_cmp; symmetry; js_cmp; lra.
Qed.

(** C10 (as amended): [cleanup now] keeps exactly the retained events with
    [now - t < 3 * halfLife] and so removes all and only those with
    [now - t >= 3 * halfLife]; an event exactly three half-lives old is
    removed. The half-life is left as it was. *)
Theorem cleanup_spec (q : queue) (now : R) :
  events (cleanup q now)
  = filter (fun e => now - t e <? 3 * halfLife q) (events q)
  /\ (forall e, In e (events (cleanup q now))
                <-> In e (events q) /\ now - t e < 3 * halfLife q)
  /\ (forall e, In e (events q) ->
                (~ In e (events (cleanup q now)) <-> now - t e >= 3 * halfLife q))
  /\ halfLife (cleanup q now) = halfLife q.
Proof.
  assert (H : forall e, In e (events (cleanup q now))
                        <-> In e (events q) /\ now - t e < 3 * halfLife q).
  { intros e. rewrite cleanup_eq, filter_In, ltb_true. tauto. }
  split; [apply cleanup_eq|]. split; [exact H|]. split; [|reflexivity].
  intros e He. rewrite H. split.
  - intros Hn. destruct (Rlt_dec (now - t e) (3 * halfLife q)); [tauto | lra].
  - intros Hge [_ Hlt]. lra.
Qed.

(** C10 as the specification words it fails at the boundary: an event whose
    age equals three half-lives is removed. *)
Lemma cleanup_boundary_counterexample :
  ~ (forall (q : queue) (now : R) (e : AudioEvent),
        In e (events q) ->
        (~ In e (events (cleanup q now)) <-> now - t e > 3 * halfLife q)).
Proof.
  intros C.
  pose (e := mkEvent 0 low (1 / 2) None None).
  specialize (C (mkQueue [e] 1) 3 e (or_introl eq_refl)).
  destruct C as [C _].
  assert (Hgone : ~ In e (events (cleanup (mkQueue [e] 1) 3))).
  { rewrite cleanup_eq; simpl.
    assert (Hf : (3 - 0 <? 3 * 1) = false) by (js_cmp; lra).
    rewrite Hf. intros []. }
  apply C in Hgone. simpl in Hgone. lra.
Qed.

(** C9 (as amended): [setHalfLife h] stores [h] whatever its sign and
    leaves the retained events untouched; it is a no-op exactly when [h]
    is the half-life the queue already has. Afterwards [cleanup] and
    [getBandEvents] are computed with [h], and so is the memory value when
    [h] is not 0. *)
Theorem setHalfLife_spec (q : queue) (h : R) :
  halfLife (setHalfLife q h) = h
  /\ events (setHalfLife q h) = events q
  /\ (setHalfLife q h = q <-> h = halfLife q)
  /\ (h <> 0 -> forall now,
        getMemoryValue (setHalfLife q h) now = Spec.memory (mkQueue (events q) h) now)
  /\ (forall now,
        events (cleanup (setHalfLife q h) now)
        = filter (fun e => now - t e <? 3 * h) (events q))
  /\ (forall b now,
        getBandEvents (setHalfLife q h) b now
        = filter (fun e => Band_eqb (band e) b && (now - t e <? h * 3)) (events q)).
Proof.
  split; [reflexivity|]. split; [reflexivity|]. split; [|split; [|split]].
  - destruct q as [l h0]; unfold setHalfLife; simpl. split.
    + intros H; now inversion H.
    + intros ->; reflexivity.
  - intros _ now. apply getMemoryValue_eq.
  - intros now. now rewrite cleanup_eq.
  - reflexivity.
Qed.

Lemma setHalfLife_changes_cleanup :
  let e := mkEvent (- 1) low (1 / 2) None None in
  let q := mkQueue [e] (3 / 2) in
  events (cleanup q 0) = [e] /\ events (cleanup (setHalfLife q (- 1)) 0) = [].
Proof.
  intros e q. rewrite !cleanup_eq; simpl.
  assert (H1 : (0 - -1 <? 3 * (3 / 2)) = true) by (js_cmp; lra).
  assert (H2 : (0 - -1 <? 3 * -1) = false) by (js_cmp; lra).
  now rewrite H1, H2.
Qed.

(** C9 as the specification words it fails: a non-positive half-life is
    not rejected but stored, and a later [cleanup] behaves differently. *)
Lemma setHalfLife_counterexample :
  ~ (forall (q : queue) (h : R),
        h <= 0 -> halfLife (setHalfLife q h) = halfLife q)
  /\ ~ (forall (q : queue) (h : R),
          h <= 0 ->
          forall now, events (cleanup (setHalfLife q h) now) = events (cleanup q now)).
Proof.
  pose (e := mkEvent (- 1) low (1 / 2) None None).
  assert (Hh : - 1 <= 0) by lra.
  split; intros C.
  - specialize (C (mkQueue [e] (3 / 2)) (- 1) Hh). simpl in C. lra.
  - specialize (C (mkQueue [e] (3 / 2)) (- 1) Hh 0).
    destruct setHalfLife_changes_cleanup as [H1 H2].
    fold e in H1, H2. rewrite H1, H2 in C. discriminate.
Qed.

End Expiry.

(** ** One event per cluster window *)

Section Separation.

Import EventQueue.

Import Spec.

Lemma apart_sym (a b : AudioEvent) : apart a b -> apart b a.
Proof. unfold apart. now rewrite Rabs_minus_sym. Qed.

Lemma ordPairs_nth (l : list AudioEvent) :
  ForallOrdPairs apart l ->
  forall i j a b, (i < j)%nat ->
    nth_error l i = Some a -> nth_error l j = Some b -> apart a b.
Proof.
  induction 1 as [|x l Hx Hl IH]; intros i j a b Hij Ha Hb.
  - destruct i; discriminate.
  - destruct j as [|j]; [lia|]. simpl in Hb.
    destruct i as [|i]; simpl in Ha.
    + inversion Ha; subst x.
      rewrite Forall_forall in Hx. apply Hx. eapply nth_error_In; eauto.
    + apply (IH i j); auto; lia.
Qed.

Lemma ordPairs_separated (l : list AudioEvent) :
  ForallOrdPairs apart l -> Spec.separated l.
Proof.
  intros H i j a b Hij Ha Hb.
  destruct (Nat.lt_ge_cases i j) as [Hlt|Hge].
  - exact (ordPairs_nth l H i j a b Hlt Ha Hb).
  - apply apart_sym. apply (ordPairs_nth l H j i b a); auto; lia.
Qed.

Lemma ordPairs_filter (f : AudioEvent -> bool) (l : list AudioEvent) :
  ForallOrdPairs apart l -> ForallOrdPairs apart (filter f l).
Proof.
  induction 1 as [|x l Hx Hl IH]; simpl; [constructor|].
  destruct (f x); auto. constructor; auto.
  rewrite Forall_forall in *. intros y Hy. apply Hx.
  apply filter_In in Hy. tauto.
Qed.

Lemma ordPairs_snoc (l : list AudioEvent) (e : AudioEvent) :
  ForallOrdPairs apart l -> Forall (fun a => apart a e) l ->
  ForallOrdPairs apart (l ++ [e]).
Proof.
  induction 1 as [|x l Hx Hl IH]; intros Hall; simpl.
  - constructor; constructor.
  - inversion Hall; subst. constructor; auto.
    apply Forall_app; split; auto.
Qed.

Lemma outside_apart (e x : AudioEvent) :
  inCluster e x = false <-> apart x e.
Proof.
  unfold apart. rewrite <- not_true_iff_false, inCluster_iff. lra.
Qed.

(** What [push] leaves in the queue: the events outside the window of the
    new event, followed by one event that carries the new event's time. *)
Lemma push_shape (q : queue) (e : AudioEvent) :
  exists m, t m = t e
    /\ events (push q e)
       = filter (fun x => negb (inCluster e x)) (events q) ++ [m].
Proof.
  destruct (filter (inCluster e) (events q)) as [|c cs] eqn:Hc.
  - exists e. split; auto.
    unfold push, clusterEvent. rewrite partition_as_filter, Hc. reflexivity.
  - exists (combine (filter (inCluster e) (events q) ++ [e]) e).
    split; [reflexivity|]. apply push_inside. rewrite Hc; discriminate.
Qed.

Lemma push_ordPairs (q : queue) (e : AudioEvent) :
  ForallOrdPairs apart (events q) -> ForallOrdPairs apart (events (push q e)).
Proof.
  intros H. destruct (push_shape q e) as (m & Hm & ->).
  apply ordPairs_snoc.
  - now apply ordPairs_filter.
  - rewrite Forall_forall. intros x Hx. apply filter_In in Hx.
    destruct Hx as [_ Hx]. apply negb_true_iff, outside_apart in Hx.
    unfold apart in *. now rewrite Hm.
Qed.

Lemma step_ordPairs (q : queue) (o : Spec.op) :
  ForallOrdPairs apart (events q) ->
  ForallOrdPairs apart (events (Spec.step q o)).
Proof.
  intros H. destruct o as [e|t0 t1|now|h]; simpl.
  - now apply push_ordPairs.
  - rewrite popSince_eq; simpl. now apply ordPairs_filter.
  - now apply ordPairs_filter.
  - exact H.
Qed.

Lemma run_ordPairs (ops : list Spec.op) (q : queue) :
  ForallOrdPairs apart (events q) ->
  ForallOrdPairs apart (events (Spec.run q ops)).
Proof.
  revert q; induction ops as [|o ops IH]; intros q H; simpl; auto.
  apply IH. now apply step_ordPairs.
Qed.

Lemma sumEnergy_snoc (l : list AudioEvent) (e : AudioEvent) :
  Spec.sumEnergy (l ++ [e]) = Spec.sumEnergy l + energy e.
Proof.
  induction l as [|x l IH]; simpl; [lra|]. rewrite IH; lra.
Qed.

(** C6: after any sequence of [push], [popSince] and [cleanup] calls on an
    empty queue, retained events at different positions have times more
    than 0.03 s apart. A new event within 0.03 s of a retained one is
    merged, not appended: the events in its window are replaced by a
    single event with the new time and band, whose energy is the sum of
    their energies and the new one capped at 1 and whose pitch and centroid
    are the energy-weighted averages over them and the new event; the queue
    does not grow. A new event outside the window of every retained event
    is appended unchanged, so two events more than 0.03 s apart pushed into
    an empty queue are both retained. *)
Theorem one_event_per_window (h : R) (ops : list Spec.op) :
  (forall i j a b,
      i <> j ->
      nth_error (events (Spec.run (constructor h) ops)) i = Some a ->
      nth_error (events (Spec.run (constructor h) ops)) j = Some b ->
      Rabs (t a - t b) > 3 / 100)
  /\ (forall q e,
        (exists x, In x (events q) /\ Rabs (t x - t e) <= 3 / 100) ->
        (List.length (events (push q e)) <= List.length (events q))%nat
        /\ exists m, t m = t e /\ band m = band e
           /\ events (push q e)
              = filter (fun x => negb (inCluster e x)) (events q) ++ [m]
           /\ (forall x, In x (filter (fun x => negb (inCluster e x)) (events q))
                         <-> In x (events q) /\ Rabs (t x - t e) > 3 / 100)
           /\ energy m
              = Rmin 1 (Spec.sumEnergy (filter (inCluster e) (events q)) + energy e)
           /\ pitch m
              = Spec.guardedAverage pitch (filter (inCluster e) (events q) ++ [e])
           /\ centroid m
              = Spec.guardedAverage centroid (filter (inCluster e) (events q) ++ [e])
           /\ (forall x, In x (filter (inCluster e) (events q))
                         <-> In x (events q) /\ Rabs (t x - t e) <= 3 / 100))
  /\ (forall q e,
        (forall x, In x (events q) -> Rabs (t x - t e) > 3 / 100) ->
        events (push q e) = events q ++ [e])
  /\ (forall e1 e2,
        Rabs (t e1 - t e2) > 3 / 100 ->
        events (push (push (constructor h) e1) e2) = [e1; e2]).
Proof.
  assert (Hout : forall q e,
             (forall x, In x (events q) -> Rabs (t x - t e) > 3 / 100) ->
             events (push q e) = events q ++ [e]).
  { intros q e H. apply push_outside. apply forallb_forall. intros x Hx.
    apply negb_true_iff, outside_apart. exact (H x Hx). }
  split; [|split; [|split]].
  - apply (ordPairs_separated _ (run_ordPairs ops (constructor h) (FOP_nil _))).
  - intros q e (x & Hx & Hnear).
    assert (Hne : filter (inCluster e) (events q) <> []).
    { assert (Hin : In x (filter (inCluster e) (events q))).
      { apply filter_In. split; auto. now apply inCluster_iff. }
      intros E; rewrite E in Hin; exact Hin. }
    split.
    + rewrite (push_inside q e Hne), length_app; simpl.
      rewrite <- (filter_length (inCluster e) (events q)).
      destruct (filter (inCluster e) (events q)); [congruence | simpl; lia].
    + exists (combine (filter (inCluster e) (events q) ++ [e]) e).
      split; [reflexivity|]. split; [reflexivity|].
      split; [now apply push_inside|].
      split; [intros y; rewrite filter_In, negb_true_iff, outside_apart; reflexivity|].
      rewrite combine_eq. cbn [energy pitch centroid]. rewrite sumEnergy_snoc.
      split; [reflexivity|]. split; [reflexivity|]. split; [reflexivity|].
      intros y. rewrite filter_In, inCluster_iff. reflexivity.
  - exact Hout.
  - intros e1 e2 H.
    assert (H1 : events (push (constructor h) e1) = [e1]) by reflexivity.
    rewrite Hout; rewrite H1; [reflexivity|].
    intros x [<-|[]]. exact H.
Qed.

Lemma one_event_per_window_witness :
  let e1 := mkEvent 0 low (4 / 10) (Some 100) None in
  let e2 := mkEvent (2 / 100) mid (5 / 10) (Some 200) None in
  let q := push (constructor (3 / 2)) e1 in
  exists m, events (push q e2) = [m]
            /\ t m = 2 / 100 /\ band m = mid
            /\ energy m = 9 / 10
            /\ pitch m = Some (140 / (9 / 10))
            /\ centroid m = None.
Proof.
  intros e1 e2 q.
  assert (Hq : events q = [e1]) by reflexivity.
  assert (Hnear : Rabs (t e1 - t e2) <= 3 / 100).
  { unfold e1, e2; simpl. unfold Rabs; destruct (Rcase_abs _); lra. }
  assert (Hin : inCluster e2 e1 = true) by (apply inCluster_iff; exact Hnear).
  destruct (proj1 (proj2 (one_event_per_window (3 / 2) [])) q e2
              (ex_intro _ e1 (conj (or_introl eq_refl) Hnear)))
    as (_ & m & Ht & Hb & Hev & _ & He & Hp & Hc & _).
  rewrite Hq in Hev, He, Hp, Hc.
  cbn [filter] in Hev, He, Hp, Hc. rewrite Hin in Hev, He, Hp, Hc.
  exists m. split; [exact Hev|]. split; [exact Ht|]. split; [exact Hb|].
  split; [|split].
  - rewrite He. unfold e1, e2; simpl. unfold Rmin; destruct (Rle_dec _ _); lra.
  - rewrite Hp. unfold Spec.guardedAverage, e1, e2; simpl.
    assert (Hg : (4 / 10 + (5 / 10 + 0) >? 0) = true) by (js_cmp; lra).
    rewrite Hg. f_equal. f_equal; lra.
  - rewrite Hc. unfold Spec.guardedAverage, e1, e2; simpl.
    assert (Hg : (0 >? 0) = false) by (js_cmp; lra).
    now rewrite Hg.
Defined.

End Separation.

(** ** Onset detection *)

Section Onsets.

Import AudioEngine.

Lemma fluxStep_same (l : list R) (flux : R) (i : Z) : fluxStep l l flux i = flux.
Proof.
  unfold fluxStep. destruct (get l i) as [c|]; auto.
  assert (H : (c - c >? 0) = false) by (js_cmp; lra).
  now rewrite H.
Qed.

Lemma fluxLoop_same (l : list R) (ixs : list Z) (flux : R) :
  fold_left (fluxStep l l) ixs flux = flux.
Proof.
  revert flux; induction ixs as [|i ixs IH]; intros flux; simpl; auto.
  now rewrite fluxStep_same.
Qed.

Lemma calculateSpectralFlux_zero (st : engine) (b : Band) :
  calculateSpectralFlux st b = 0.
Proof.
  unfold calculateSpectralFlux.
  destruct (previousFrame st); auto.
  destruct b; rewrite fluxLoop_same; unfold Rdiv; apply Rmult_0_l.
Qed.

Lemma detectBandOnsets_nil (st : engine) : detectBandOnsets st = [].
Proof.
  unfold detectBandOnsets. destruct (previousFrame st); auto.
  rewrite !calculateSpectralFlux_zero.
  assert (H : forall b, (0 >? onsetThresholds b) = false).
  { intros b. js_cmp. destruct b; simpl; lra. }
  now rewrite !H.
Qed.

Lemma spectralFlux_step (c p : R) (n : nat) :
  p < c ->
  fold_right
    (fun i s => Rmax (nth (Z.to_nat i) (repeat c n) 0
                      - nth (Z.to_nat i) (repeat p n) 0) 0 + s)
    0 (bins 0 (Z.of_nat n))
  = INR n * (c - p).
Proof.
  intros Hlt. unfold bins. rewrite Z.sub_0_r, Nat2Z.id.
  assert (H : forall m, (m <= n)%nat ->
            fold_right
              (fun i s => Rmax (nth (Z.to_nat i) (repeat c n) 0
                                - nth (Z.to_nat i) (repeat p n) 0) 0 + s)
              0 (map (fun k => (0 + Z.of_nat k)%Z) (seq (n - m) m))
            = INR m * (c - p)).
  { induction m as [|m IH]; intros Hm.
    - simpl; lra.
    - cbn [seq map fold_right].
      replace (S (n - S m)) with (n - m)%nat by lia.
      rewrite IH by lia. rewrite S_INR.
      rewrite Z.add_0_l, Nat2Z.id.
      rewrite !nth_repeat_lt by lia.
      rewrite Rmax_left by lra. lra. }
  specialize (H n (Nat.le_refl n)). now rewrite Nat.sub_diag in H.
Qed.

(** C5 on the code: once a previous frame exists, the flux loop compares
    the current spectrum with itself, so every band's flux is 0 and no
    onset is ever reported, whatever the spectrum. At the second tick of
    an engine with 16 bins whose spectrum rises from -100 dB to -90 dB in
    every bin, the flux of the full band as specified is 10, above the
    threshold 0.15, and the frame still reports no onset. *)
Theorem onsets_always_empty :
  (forall st now spectrum frame st',
      getAnalysisFrame st now spectrum = Some (frame, st') ->
      onsets frame = [])
  /\ (let st0 := mkEngine true 44100 16 (repeat 0 16) (repeat 0 16) None in
      let s1 := repeat (- 100) 16 in
      let s2 := repeat (- 90) 16 in
      exists f1 st1 f2 st2,
        getAnalysisFrame st0 0 s1 = Some (f1, st1)
        /\ getAnalysisFrame st1 (16 / 1000) s2 = Some (f2, st2)
        /\ onsets f2 = []
        /\ Spec.spectralFlux s2 s1 0 16 = 10
        /\ Spec.spectralFlux s2 s1 0 16 > onsetThresholds EventQueue.full).
Proof.
  split.
  - intros st now spectrum frame st'. unfold getAnalysisFrame.
    destruct (analyser st); [|discriminate].
    intros H; inversion H; subst; simpl. apply detectBandOnsets_nil.
  - intros st0 s1 s2.
    assert (Hflux : Spec.spectralFlux s2 s1 0 16 = 10).
    { unfold Spec.spectralFlux, s1, s2.
      change 16%Z with (Z.of_nat 16) at 1.
      rewrite (spectralFlux_step (- 90) (- 100) 16) by lra.
      simpl. lra. }
    unfold getAnalysisFrame; simpl analyser; cbv iota.
    do 4 eexists. split; [reflexivity|]. split; [reflexivity|].
    split; [apply detectBandOnsets_nil|].
    split; [exact Hflux|]. rewrite Hflux; simpl; lra.
Qed.

End Onsets.

(** ** The modulation matrix *)

Section Matrix.

Import ModMatrix.

Local Open Scope string_scope.

Variable random : nat -> R.

Lemma findTarget_writeTarget (l : list Target.t) (i : string) (v : R) (x : Target.t) :
  find (fun t => Target.id t =? i) l = Some x ->
  exists x', find (fun t => Target.id t =? i) (writeTarget l i v) = Some x'
             /\ Target.value x' = v /\ Target.id x' = Target.id x.
Proof.
  induction l as [|y l IH]; simpl; [discriminate|].
  destruct (Target.id y =? i) eqn:E; intros H.
  - inversion H; subst y. simpl. rewrite E. eexists; split; [reflexivity|]. now split.
  - simpl. rewrite E. now apply IH.
Qed.

Lemma writeTarget_ids (l : list Target.t) (i j : string) (v : R) :
  find (fun t => Target.id t =? j) (writeTarget l i v) = None
  <-> find (fun t => Target.id t =? j) l = None.
Proof.
  induction l as [|y l IH]; simpl; [tauto|].
  destruct (Target.id y =? i) eqn:E; simpl;
    destruct (Target.id y =? j) eqn:F; try tauto.
  split; discriminate.
Qed.

Lemma processConnection_dangling (w : world) (c : ModConnection) :
  Spec.resolves (self w) c = false ->
  processConnection random w c
  = mkWorld (self w) (randomCalls w) (console w ++ [warning c])%list.
Proof.
  unfold Spec.resolves, processConnection.
  destruct (findSource (self w) (sourceId c)); auto.
  destruct (findTransform (self w) (transformId c)); auto.
  destruct (findTarget (self w) (targetId c)); auto. discriminate.
Qed.

Lemma processConnection_resolves (w : world) (c c' : ModConnection) :
  Spec.resolves (self (processConnection random w c')) c = Spec.resolves (self w) c.
Proof.
  unfold processConnection.
  destruct (findSource (self w) (sourceId c')); auto.
  destruct (findTransform (self w) (transformId c')); auto.
  destruct (findTarget (self w) (targetId c')); auto.
  destruct (applyTransform random (Source.value t) t0 (randomCalls w)) as [v n].
  unfold Spec.resolves, findSource, findTransform, findTarget; simpl.
  destruct (find _ (sources (self w))); auto.
  destruct (find _ (transforms (self w))); auto.
  destruct (find (fun t => Target.id t =? targetId c) (targets (self w))) eqn:E.
  - destruct (find _ (writeTarget _ _ _)) eqn:F; auto.
    apply writeTarget_ids in F. congruence.
  - now rewrite (proj2 (writeTarget_ids _ _ _ _) E).
Qed.

Lemma processList_resolves (l : list ModConnection) (w : world) (c : ModConnection) :
  Spec.resolves (self (fold_left (processConnection random) l w)) c
  = Spec.resolves (self w) c.
Proof.
  revert w; induction l as [|c' l IH]; intros w; simpl; auto.
  now rewrite IH, processConnection_resolves.
Qed.

(** Processing does not read the console. *)
Lemma processConnection_console (w w' : world) (c : ModConnection) :
  self w = self w' -> randomCalls w = randomCalls w' ->
  self (processConnection random w c) = self (processConnection random w' c)
  /\ randomCalls (processConnection random w c)
     = randomCalls (processConnection random w' c).
Proof.
  intros Hs Hr. unfold processConnection. rewrite <- Hs, <- Hr.
  destruct (findSource _ _); auto.
  destruct (findTransform _ _); auto.
  destruct (findTarget _ _); auto.
  destruct (applyTransform _ _ _ _); auto.
Qed.

Lemma processList_console (l : list ModConnection) (w w' : world) :
  self w = self w' -> randomCalls w = randomCalls w' ->
  self (fold_left (processConnection random) l w)
  = self (fold_left (processConnection random) l w')
  /\ randomCalls (fold_left (processConnection random) l w)
     = randomCalls (fold_left (processConnection random) l w').
Proof.
  revert w w'; induction l as [|c l IH]; intros w w' Hs Hr; simpl; auto.
  destruct (processConnection_console w w' c Hs Hr). now apply IH.
Qed.

(** Processing reads the connection list only to iterate over it. *)
Lemma processList_connections (l l1 l2 : list ModConnection) (w : world) :
  let r1 := fold_left (processConnection random) l (Spec.withConnections w l1) in
  let r2 := fold_left (processConnection random) l (Spec.withConnections w l2) in
  sources (self r1) = sources (self r2)
  /\ transforms (self r1) = transforms (self r2)
  /\ targets (self r1) = targets (self r2)
  /\ randomCalls r1 = randomCalls r2
  /\ connections (self r1) = l1 /\ connections (self r2) = l2.
Proof.
  assert (G : forall w1 w2,
             sources (self w1) = sources (self w2) ->
             transforms (self w1) = transforms (self w2) ->
             targets (self w1) = targets (self w2) ->
             randomCalls w1 = randomCalls w2 ->
             let r1 := fold_left (processConnection random) l w1 in
             let r2 := fold_left (processConnection random) l w2 in
             sources (self r1) = sources (self r2)
             /\ transforms (self r1) = transforms (self r2)
             /\ targets (self r1) = targets (self r2)
             /\ randomCalls r1 = randomCalls r2
             /\ connections (self r1) = connections (self w1)
             /\ connections (self r2) = connections (self w2)).
  { induction l as [|c l IH]; intros w1 w2 H1 H2 H3 H4; simpl; [tauto|].
    assert (K : forall u, connections (self (processConnection random u c))
                          = connections (self u)).
    { intros u. unfold processConnection.
      destruct (findSource _ _); auto. destruct (findTransform _ _); auto.
      destruct (findTarget _ _); auto. destruct (applyTransform _ _ _ _); auto. }
    rewrite <- (K w1), <- (K w2).
    apply IH; unfold processConnection, findSource, findTransform, findTarget;
      rewrite <- H1, <- H2, <- H3, <- H4;
      destruct (find _ (sources (self w1))); auto;
      destruct (find _ (transforms (self w1))); auto;
      destruct (find _ (targets (self w1))); auto;
      destruct (applyTransform _ _ _ _); auto. }
  apply (G (Spec.withConnections w l1) (Spec.withConnections w l2)); reflexivity.
Qed.

Lemma find_none_all {A} (f : A -> bool) (l : list A) :
  (forall x, In x l -> f x = false) -> find f l = None.
Proof.
  induction l as [|y l IH]; simpl; auto.
  intros H. rewrite (H y (or_introl eq_refl)). apply IH.
  intros x Hx. apply H. now right.
Qed.

Lemma withConnections_self (w : world) :
  Spec.withConnections w (connections (self w)) = w.
Proof. destruct w as [[ss ts gs cs] n out]; reflexivity. Qed.

Lemma processList_skip (w : world) (pre post : list ModConnection) (c : ModConnection) :
  Spec.resolves (self w) c = false ->
  self (fold_left (processConnection random) (pre ++ c :: post)%list w)
  = self (fold_left (processConnection random) (pre ++ post)%list w)
  /\ randomCalls (fold_left (processConnection random) (pre ++ c :: post)%list w)
     = randomCalls (fold_left (processConnection random) (pre ++ post)%list w).
Proof.
  intros H. rewrite !fold_left_app; simpl.
  set (w1 := fold_left (processConnection random) pre w).
  assert (H1 : Spec.resolves (self w1) c = false)
    by (unfold w1; now rewrite processList_resolves).
  rewrite (processConnection_dangling w1 c H1).
  apply processList_console; reflexivity.
Qed.

Lemma round_nearest (x : R) :
  exists k : Z, Num.round x = IZR k /\ Rabs (IZR k - x) <= 1 / 2.
Proof.
  exists (Zfloor (x + 1 / 2)). split; [reflexivity|].
  destruct (Zfloor_bound (x + 1 / 2)) as [H1 H2].
  unfold Rabs; destruct (Rcase_abs _); lra.
Qed.

Lemma applyTransform_plain (value : R) (transform : Transform.t) (calls : nat) :
  Transform.trigger transform && Transform.gate transform = false ->
  Transform.jitter transform <= 0 ->
  applyTransform random value transform calls
  = (applyCurve (Transform.curve transform) value
     * (max (Transform.range transform) - min (Transform.range transform))
     + min (Transform.range transform), calls).
Proof.
  intros Hg Hj. unfold applyTransform. rewrite Hg.
  assert (H : (Transform.jitter transform >? 0) = false) by (js_cmp; lra).
  now rewrite H.
Qed.

(** C7: with the single connection from source ['low'] (value 0.5) through
    an exponential transform of range [[0,1]], without trigger/gate and
    with zero jitter, to target ['scale'] with amount 0.8,
    [processConnections] leaves 0.8 * 0.5^2 = 0.2 in ['scale']. The curves
    are: linear the identity, exponential the square, logarithmic the
    square root (of a non-negative value), quantized the nearest multiple
    of 1/8. The curve is applied first, then the range remap, and the
    amount is multiplied last. *)
Theorem exponential_connection_scales :
  (forall w source transform target,
      connections (self w)
      = [mkConnection "low" (Transform.id transform) "scale" (8 / 10)] ->
      findSource (self w) "low" = Some source ->
      Source.value source = 1 / 2 ->
      findTransform (self w) (Transform.id transform) = Some transform ->
      Transform.curve transform = exponential ->
      Transform.range transform = mkRange 0 1 ->
      Transform.trigger transform && Transform.gate transform = false ->
      Transform.jitter transform = 0 ->
      findTarget (self w) "scale" = Some target ->
      exists target',
        findTarget (self (processConnections random w)) "scale" = Some target'
        /\ Target.value target' = 2 / 10
        /\ Target.value target' = 8 / 10 * (1 / 2) ^ 2)
  /\ (forall v,
        applyCurve linear v = v
        /\ applyCurve exponential v = v * v
        /\ (0 <= v -> applyCurve logarithmic v = sqrt v
                      /\ 0 <= applyCurve logarithmic v
                      /\ applyCurve logarithmic v * applyCurve logarithmic v = v)
        /\ exists k : Z, applyCurve quantized v = IZR k / 8
                         /\ Rabs (applyCurve quantized v - v) <= 1 / 16)
  /\ (forall w c source transform target,
        findSource (self w) (sourceId c) = Some source ->
        findTransform (self w) (transformId c) = Some transform ->
        findTarget (self w) (targetId c) = Some target ->
        Transform.trigger transform && Transform.gate transform = false ->
        Transform.jitter transform <= 0 ->
        (Transform.curve transform = logarithmic -> 0 <= Source.value source) ->
        exists target',
          findTarget (self (processConnection random w c)) (targetId c) = Some target'
          /\ Target.value target'
             = (applyCurve (Transform.curve transform) (Source.value source)
                * (max (Transform.range transform) - min (Transform.range transform))
                + min (Transform.range transform))
               * amount c).
Proof.
  assert (General : forall w c source transform target,
        findSource (self w) (sourceId c) = Some source ->
        findTransform (self w) (transformId c) = Some transform ->
        findTarget (self w) (targetId c) = Some target ->
        Transform.trigger transform && Transform.gate transform = false ->
        Transform.jitter transform <= 0 ->
        exists target',
          findTarget (self (processConnection random w c)) (targetId c) = Some target'
          /\ Target.value target'
             = (applyCurve (Transform.curve transform) (Source.value source)
                * (max (Transform.range transform) - min (Transform.range transform))
                + min (Transform.range transform))
               * amount c).
  { intros w c source transform target Hs Ht Hg Hgate Hj.
    unfold processConnection. rewrite Hs, Ht, Hg.
    rewrite (applyTransform_plain _ _ _ Hgate Hj).
    unfold findTarget in *; simpl.
    destruct (findTarget_writeTarget _ _
                ((applyCurve (Transform.curve transform) (Source.value source)
                  * (max (Transform.range transform) - min (Transform.range transform))
                  + min (Transform.range transform)) * amount c) _ Hg)
      as (x' & Hx & Hv & _).
    exists x'. now split. }
  split; [|split; [|intros w c source transform target Hs Ht Hg Hgate Hj _;
                     exact (General w c source transform target Hs Ht Hg Hgate Hj)]].
  - intros w source transform target Hc Hs Hv Ht Hcurve Hrange Hgate Hj Hg.
    unfold processConnections. rewrite Hc. simpl fold_left.
    destruct (General w (mkConnection "low" (Transform.id transform) "scale" (8 / 10))
                source transform target Hs Ht Hg Hgate) as (x' & Hx & Hval).
    { rewrite Hj; lra. }
    exists x'. split; [exact Hx|].
    rewrite Hval, Hcurve, Hrange, Hv; simpl. lra.
  - intros v. split; [reflexivity|]. split; [simpl; ring|]. split.
    + intros Hv. simpl. split; [reflexivity|]. split; [apply sqrt_pos|].
      now apply sqrt_sqrt.
    + destruct (round_nearest (v * 8)) as (k & Hk & Hb).
      exists k. unfold applyCurve. rewrite Hk. split; [reflexivity|].
      unfold Rabs in *. destruct (Rcase_abs _), (Rcase_abs _); lra.
Qed.

End Matrix.

(** The scenarios above on the default catalogue of the matrix, with
    [Math.random()] returning 0.5. *)
Section MatrixScenarios.

Import ModMatrix.

Local Open Scope string_scope.

Lemma exponential_connection_scales_witness :
  let random := fun _ : nat => 1 / 2 in
  let low := Source.mk "low" "Low" (1 / 2) audio in
  let w := mkWorld (mkMatrix (low :: tl initializeDefaultSources)
                             initializeDefaultTransforms initializeDefaultTargets
                             [mkConnection "low" "env1" "scale" (8 / 10)]) 0 [] in
  exists target',
    findTarget (self (processConnections random w)) "scale" = Some target'
    /\ Target.value target' = 2 / 10.
Proof.
  intros random low w.
  destruct (exponential_connection_scales random) as (H & _).
  destruct (H w low (hd (Transform.mk "" "" 0 0 0 linear (mkRange 0 0) unipolar
                                      false false 0)
                        initializeDefaultTransforms)
              (Target.mk "scale" "Scale" motion 1))
    as (x & Hx & Hv & _); try reflexivity.
  exists x. now split.
Defined.

End MatrixScenarios.

(** * Further properties of the event queue *)

Section QueueMore.

Import EventQueue.

Lemma sumEnergy_app (l1 l2 : list AudioEvent) :
  Spec.sumEnergy (l1 ++ l2) = Spec.sumEnergy l1 + Spec.sumEnergy l2.
Proof.
  induction l1 as [|x l1 IH]; simpl; [lra|]. rewrite IH; lra.
Qed.

Lemma sumEnergy_nonneg (l : list AudioEvent) :
  (forall x, In x l -> 0 <= energy x) -> 0 <= Spec.sumEnergy l.
Proof.
  induction l as [|x l IH]; intros H; simpl; [lra|].
  assert (0 <= energy x) by (apply H; now left).
  assert (0 <= Spec.sumEnergy l) by (apply IH; intros; apply H; now right).
  lra.
Qed.


Lemma filter_nil_all {A} (f : A -> bool) (l : list A) :
  filter f l = [] -> filter (fun x => negb (f x)) l = l.
Proof.
  induction l as [|x l IH]; simpl; auto.
  destruct (f x); simpl; [discriminate|]. intros H. now rewrite IH.
Qed.

Lemma push_cases (q : queue) (e : AudioEvent) :
  let inside := filter (inCluster e) (events q) in
  let outside := filter (fun x => negb (inCluster e x)) (events q) in
  (inside = [] -> events (push q e) = events q ++ [e])
  /\ (inside <> [] ->
      exists m,
        events (push q e) = outside ++ [m]
        /\ t m = t e /\ band m = band e
        /\ energy m = Rmin 1 (Spec.sumEnergy inside + energy e)
        /\ pitch m = Spec.guardedAverage pitch (inside ++ [e])
        /\ centroid m = Spec.guardedAverage centroid (inside ++ [e]))
  /\ (forall x, In x outside <-> In x (events q) /\ Rabs (t x - t e) > 3 / 100)
  /\ (forall x, In x inside <-> In x (events q) /\ Rabs (t x - t e) <= 3 / 100)
  /\ halfLife (push q e) = halfLife q.
Proof.
  intros inside outside. split; [|split; [|split; [|split]]].
  - intros H. unfold push, clusterEvent. rewrite partition_as_filter.
    fold inside. rewrite H. simpl. now rewrite (filter_nil_all _ _ H).
  - intros H. exists (combine (inside ++ [e]) e).
    split; [now apply push_inside|].
    rewrite combine_eq; simpl. rewrite sumEnergy_app; simpl.
    rewrite Rplus_0_r. repeat split; reflexivity.
  - intros x. unfold outside.
    rewrite filter_In, negb_true_iff, outside_apart. reflexivity.
  - intros x. unfold inside. rewrite filter_In, inCluster_iff. reflexivity.
  - unfold push, clusterEvent. rewrite partition_as_filter.
    destruct (filter (inCluster e) (events q)); reflexivity.
Qed.

(** X1: what [push] leaves in a queue of any size. The retained events
    outside the 30 ms window of the new event stay, in order; the events
    inside it are replaced by one event placed last, with the new event's
    time and band and with energy [min 1] of the sum of their energies and
    the new one. With nothing inside the window the new event is appended
    as it is. The half-life is untouched. *)
Theorem push_merges_cluster (q : queue) (e : AudioEvent) :
  let inside := filter (inCluster e) (events q) in
  let outside := filter (fun x => negb (inCluster e x)) (events q) in
  (inside = [] -> events (push q e) = events q ++ [e])
  /\ (inside <> [] ->
      exists m,
        events (push q e) = outside ++ [m]
        /\ t m = t e /\ band m = band e
        /\ energy m = Rmin 1 (Spec.sumEnergy inside + energy e)
        /\ pitch m = Spec.guardedAverage pitch (inside ++ [e])
        /\ centroid m = Spec.guardedAverage centroid (inside ++ [e]))
  /\ (forall x, In x outside <-> In x (events q) /\ Rabs (t x - t e) > 3 / 100)
  /\ (forall x, In x inside <-> In x (events q) /\ Rabs (t x - t e) <= 3 / 100)
  /\ halfLife (push q e) = halfLife q.
Proof. exact (push_cases q e). Qed.

Lemma push_merges_cluster_witness :
  let a := mkEvent 0 low (4 / 10) None None in
  let b := mkEvent 1 mid (5 / 10) None None in
  let e := mkEvent (101 / 100) high (3 / 10) None None in
  exists m, events (push (mkQueue [a; b] (3 / 2)) e) = [a; m]
            /\ t m = 101 / 100 /\ band m = high /\ energy m = 8 / 10.
Proof.
  intros a b e.
  assert (Ha : inCluster e a = false).
  { apply outside_apart. unfold Spec.apart, clusterWindow; simpl.
    unfold Rabs; destruct (Rcase_abs _); lra. }
  assert (Hb : inCluster e b = true).
  { apply inCluster_iff. unfold clusterWindow; simpl.
    unfold Rabs; destruct (Rcase_abs _); lra. }
  destruct (push_merges_cluster (mkQueue [a; b] (3 / 2)) e) as (_ & H & _).
  simpl in H. rewrite Ha, Hb in H. simpl in H.
  destruct H as (m & H1 & H2 & H3 & H4 & _); [discriminate|].
  exists m. repeat split; auto.
  rewrite H4. unfold Rmin; destruct (Rle_dec _ _); lra.
Defined.

(** X2: the event count after [push] is the old count plus one minus the
    number of retained events inside the window of the new event; so a
    push never adds more than one entry and never leaves the queue empty. *)
Theorem push_event_count (q : queue) (e : AudioEvent) :
  (getEventCount (push q e)
   + List.length (filter (inCluster e) (events q))
   = getEventCount q + 1)%nat
  /\ (1 <= getEventCount (push q e) <= getEventCount q + 1)%nat.
Proof.
  assert (H : (getEventCount (push q e)
               + List.length (filter (inCluster e) (events q))
               = getEventCount q + 1)%nat).
  { unfold getEventCount. destruct (push_shape q e) as (m & _ & ->).
    rewrite length_app; simpl.
    rewrite <- (filter_length (inCluster e) (events q)). lia. }
  split; [exact H|].
  assert (H1 : (1 <= getEventCount (push q e))%nat).
  { unfold getEventCount. destruct (push_shape q e) as (m & _ & ->).
    rewrite length_app; simpl. lia. }
  lia.
Qed.




Lemma filter_app_single {A} (f : A -> bool) (l : list A) (x : A) :
  filter f (l ++ [x]) = filter f l ++ (if f x then [x] else []).
Proof. rewrite filter_app. reflexivity. Qed.

(** X4: an event pushed into any queue and asked back with a window that
    contains its time and lies within 30 ms of it (as the window of one
    frame) comes back as exactly one event with the pushed time and band;
    nothing older is returned with it, and what remains in the queue is
    later than the window. *)
Theorem push_then_popSince (q : queue) (e : AudioEvent) (t0 t1 : R) :
  t e - 3 / 100 <= t0 -> t0 <= t e -> t e <= t1 -> t1 <= t e + 3 / 100 ->
  exists m,
    fst (popSince (push q e) t0 t1) = [m]
    /\ t m = t e /\ band m = band e
    /\ In m (events (push q e))
    /\ forall x, In x (events (snd (popSince (push q e) t0 t1))) ->
                 In x (events q) /\ t x > t e + 3 / 100.
Proof.
  intros H1 H2 H3 H4.
  destruct (push_shape q e) as (m & Hm & Hev).
  assert (Hb : band m = band e).
  { destruct (filter (inCluster e) (events q)) as [|c cs] eqn:Hc.
    - assert (E : events (push q e) = events q ++ [e])
        by (apply (proj1 (push_cases q e)); exact Hc).
      rewrite Hev in E. apply app_inj_tail in E. destruct E as [_ E]. now subst m.
    - assert (Hne : filter (inCluster e) (events q) <> []) by (rewrite Hc; discriminate).
      rewrite (push_inside q e Hne) in Hev.
      apply app_inj_tail in Hev. destruct Hev as [_ E]. now subst m. }
  exists m. rewrite popSince_eq; simpl. rewrite Hev.
  assert (Hout : forall x, In x (filter (fun x => negb (inCluster e x)) (events q)) ->
                           In x (events q) /\ (t x < t e - 3 / 100 \/ t x > t e + 3 / 100)).
  { intros x Hx. apply filter_In in Hx. destruct Hx as [Hx Hc]. split; auto.
    apply negb_true_iff in Hc. unfold inCluster in Hc.
    apply andb_false_iff in Hc. unfold clusterWindow in Hc.
    destruct Hc as [Hc|Hc]; js_cmp; [left|right]; lra. }
  rewrite !filter_app_single.
  assert (Hw : inWindow t0 t1 m = true).
  { unfold inWindow. apply andb_true_iff. split; js_cmp; lra. }
  assert (Hg : (t m >? t1) = false) by (js_cmp; lra).
  rewrite Hw, Hg, app_nil_r.
  assert (Hnone : filter (inWindow t0 t1)
                    (filter (fun x => negb (inCluster e x)) (events q)) = []).
  { apply filter_none. apply forallb_forall. intros x Hx.
    apply Hout in Hx. destruct Hx as [_ Hx]. apply negb_true_iff.
    unfold inWindow. apply andb_false_iff.
    destruct Hx; [left|right]; js_cmp; lra. }
  rewrite Hnone. simpl. repeat split; auto.
  - apply in_app_iff. right. now left.
  - apply filter_In in H. destruct H as [H _]. now apply Hout in H.
  - apply filter_In in H. destruct H as [H Hgt]. apply Hout in H.
    js_cmp. destruct H as [_ [H|H]]; lra.
Qed.

Lemma push_then_popSince_witness :
  let old := mkEvent (99 / 100) low (1 / 2) None None in
  let e := mkEvent 1 high (1 / 4) None None in
  exists m, fst (popSince (push (mkQueue [old] (3 / 2)) e) (1 - 16 / 1000) 1) = [m]
            /\ t m = 1 /\ band m = high.
Proof.
  intros old e.
  destruct (push_then_popSince (mkQueue [old] (3 / 2)) e (1 - 16 / 1000) 1)
    as (m & H1 & H2 & H3 & _); simpl; try lra.
  exists m. repeat split; auto.
Defined.

(** X5: [popSince] consumes. A second call whose window ends no later
    than the first one's returns nothing and leaves the queue as the first
    call left it. *)
Theorem popSince_consumes (q : queue) (t0 t1 t0' t1' : R) :
  t1' <= t1 ->
  popSince (snd (popSince q t0 t1)) t0' t1' = ([], snd (popSince q t0 t1)).
Proof.
  intros H. rewrite !popSince_eq; simpl. f_equal.
  - apply filter_none. apply forallb_forall. intros x Hx.
    apply filter_In in Hx. destruct Hx as [_ Hx]. js_cmp.
    apply negb_true_iff. unfold inWindow. apply andb_false_iff.
    right. js_cmp. lra.
  - unfold setEvents; simpl. f_equal.
    apply filter_all. apply forallb_forall. intros x Hx.
    apply filter_In in Hx. destruct Hx as [_ Hx]. js_cmp. lra.
Qed.

Lemma popSince_consumes_witness :
  let q := mkQueue [mkEvent 1 low (1 / 2) None None;
                    mkEvent 3 mid (1 / 2) None None] (3 / 2) in
  popSince (snd (popSince q 0 2)) 0 2 = ([], snd (popSince q 0 2)).
Proof.
  intros q. apply (popSince_consumes q 0 2 0 2). lra.
Defined.

(** X6: after [popSince t0 t1] the memory value at any time up to [t1]
    is 0: consumed and expired events no longer contribute, only events
    later than the window do. *)
Theorem popSince_clears_memory (q : queue) (t0 t1 now : R) :
  now <= t1 ->
  getMemoryValue (snd (popSince q t0 t1)) now = 0.
Proof.
  intros H. rewrite getMemoryValue_eq, popSince_eq. unfold Spec.memory; simpl.
  rewrite filter_none.
  - simpl. apply Rmin_right. lra.
  - apply forallb_forall. intros x Hx. apply filter_In in Hx.
    destruct Hx as [_ Hx]. js_cmp. apply negb_true_iff. js_cmp. lra.
Qed.

Lemma popSince_clears_memory_witness :
  let q := mkQueue [mkEvent 1 low 1 None None] (3 / 2) in
  getMemoryValue (snd (popSince q (1 - 16 / 1000) 1)) 1 = 0.
Proof.
  intros q. apply (popSince_clears_memory q (1 - 16 / 1000) 1 1). lra.
Defined.

(** X7: [cleanup] and [getBandEvents] use the same retention bound.
    [getBandEvents] sees the same events before and after [cleanup] at the
    same time, its results all carry the asked band and have not expired,
    the four bands together are exactly the events [cleanup] keeps, and
    cleaning up at a later time subsumes an earlier cleanup. *)
Theorem cleanup_and_band_events (q : queue) (now : R) :
  (forall b, getBandEvents (cleanup q now) b now = getBandEvents q b now)
  /\ (forall b x, In x (getBandEvents q b now) <->
                  In x (events q) /\ band x = b /\ now - t x < 3 * halfLife q)
  /\ (List.length (getBandEvents q low now) + List.length (getBandEvents q mid now)
      + List.length (getBandEvents q high now) + List.length (getBandEvents q full now)
      = getEventCount (cleanup q now))%nat
  /\ (forall later, now <= later -> cleanup (cleanup q now) later = cleanup q later).
Proof.
  split; [|split; [|split]].
  - intros b. unfold getBandEvents, cleanup; simpl.
    rewrite filter_twice. apply filter_ext. intros x.
    destruct (t x >? now - halfLife q * 3) eqn:E1;
      destruct (now - t x <? halfLife q * 3) eqn:E2; simpl;
      rewrite ?andb_true_r, ?andb_false_r; auto; js_cmp; lra.
  - intros b x. unfold getBandEvents. rewrite filter_In, andb_true_iff, ltb_true.
    assert (Hb : Band_eqb (band x) b = true <-> band x = b)
      by (destruct (band x), b; simpl; split; congruence).
    rewrite Hb. split; intros (H1 & H2 & H3); repeat split; auto; lra.
  - unfold getEventCount. rewrite cleanup_eq. unfold getBandEvents.
    induction (events q) as [|x l IH]; simpl; auto.
    replace (now - t x <? halfLife q * 3) with (now - t x <? 3 * halfLife q)
      by (f_equal; lra).
    destruct (now - t x <? 3 * halfLife q); rewrite ?andb_false_r, ?andb_true_r.
    + destruct (band x); simpl; lia.
    + exact IH.
  - intros later H. unfold cleanup, setEvents; simpl. f_equal.
    rewrite filter_twice. apply filter_ext. intros x.
    destruct (t x >? later - halfLife q * 3) eqn:E1; rewrite ?andb_false_r; auto.
    rewrite andb_true_r. js_cmp. lra.
Qed.

Lemma cleanup_and_band_events_witness :
  let q := mkQueue [mkEvent 0 low (1 / 2) None None;
                    mkEvent 4 mid (1 / 2) None None] 1 in
  cleanup (cleanup q 4) 5 = cleanup q 5.
Proof.
  intros q.
  destruct (cleanup_and_band_events q 4) as (_ & _ & _ & H).
  apply H. lra.
Defined.

Lemma decayed_sum_le (h now1 now2 : R) (l : list AudioEvent) :
  0 < h -> now1 <= now2 ->
  (forall e, In e l -> 0 <= energy e) ->
  fold_right (fun e s => energy e * exp (- (now2 - t e) / h) + s) 0 l
  <= fold_right (fun e s => energy e * exp (- (now1 - t e) / h) + s) 0 l.
Proof.
  intros Hh Hn. induction l as [|e l IH]; intros H; simpl; [lra|].
  assert (He : 0 <= energy e) by (apply H; now left).
  assert (Hl := IH (fun x Hx => H x (or_intror Hx))).
  assert (Hexp : exp (- (now2 - t e) / h) <= exp (- (now1 - t e) / h)).
  { assert (Harg : - (now2 - t e) / h <= - (now1 - t e) / h).
    { unfold Rdiv. apply Rmult_le_compat_r; [|lra].
      left. now apply Rinv_0_lt_compat. }
    destruct Harg as [Hlt|Heq]; [left; now apply exp_increasing | rewrite Heq; lra]. }
  assert (energy e * exp (- (now2 - t e) / h) <= energy e * exp (- (now1 - t e) / h))
    by (apply Rmult_le_compat_l; auto).
  lra.
Qed.

(** X8: between events the memory value only decays. With a positive
    half-life and non-negative energies, if no retained event has its time
    in [(now1, now2]], then [getMemoryValue now2 <= getMemoryValue now1];
    and before the first retained event the value is 0. *)
Theorem memory_decays_between_events (q : queue) (now1 now2 : R) :
  0 < halfLife q ->
  (forall e, In e (events q) -> 0 <= energy e) ->
  now1 <= now2 ->
  (forall e, In e (events q) -> ~ (now1 < t e <= now2)) ->
  getMemoryValue q now2 <= getMemoryValue q now1
  /\ ((forall e, In e (events q) -> now1 < t e) -> getMemoryValue q now1 = 0).
Proof.
  intros Hh He Hn Hgap. split.
  - rewrite !getMemoryValue_eq. unfold Spec.memory.
    assert (Hf : filter (fun e => t e <=? now2) (events q)
                 = filter (fun e => t e <=? now1) (events q)).
    { apply filter_ext_in. intros e Hin. specialize (Hgap e Hin).
      destruct (t e <=? now1) eqn:E1; js_cmp; [lra|].
      destruct (Rle_dec (t e) now2); lra. }
    rewrite Hf.
    apply Rmin_glb; [apply Rmin_l|].
    eapply Rle_trans; [apply Rmin_r|].
    apply decayed_sum_le; auto.
    intros e Hin. apply filter_In in Hin. apply He. tauto.
  - intros Hbefore. rewrite getMemoryValue_eq. unfold Spec.memory.
    rewrite filter_none.
    + simpl. apply Rmin_right. lra.
    + apply forallb_forall. intros x Hx. apply negb_true_iff. js_cmp.
      now apply Hbefore.
Qed.

Lemma memory_decays_between_events_witness :
  let q := mkQueue [mkEvent 0 low 1 None None; mkEvent 5 mid (1 / 2) None None] (3 / 2) in
  getMemoryValue q 2 <= getMemoryValue q 1.
Proof.
  intros q.
  apply (memory_decays_between_events q 1 2); simpl; try lra.
  - intros e [He|[He|[]]]; subst e; simpl; lra.
  - intros e [He|[He|[]]]; subst e; simpl; lra.
Defined.

Lemma Rmin_cap (a c : R) : 0 <= c -> Rmin 1 (Rmin 1 a + c) = Rmin 1 (a + c).
Proof.
  intros Hc. unfold Rmin.
  destruct (Rle_dec 1 a), (Rle_dec 1 (1 + c)), (Rle_dec 1 (a + c)); lra.
Qed.

Lemma last_default {A} (x : A) (l : list A) (d d' : A) :
  last (x :: l) d = last (x :: l) d'.
Proof.
  revert x; induction l as [|y l IH]; intros x; [reflexivity|].
  change (last (y :: l) d = last (y :: l) d'). apply IH.
Qed.

(** Pushing events that carry the time of the last retained event, which
    is the only one in their window, keeps merging into that last place. *)
Lemma push_same_time (T h : R) (rem es : list AudioEvent) (m : AudioEvent) :
  (forall x, In x rem -> Rabs (t x - T) > clusterWindow) ->
  t m = T ->
  (forall e, In e es -> t e = T /\ 0 <= energy e) ->
  exists m',
    events (fold_left push es (mkQueue (rem ++ [m]) h)) = rem ++ [m']
    /\ halfLife (fold_left push es (mkQueue (rem ++ [m]) h)) = h
    /\ t m' = T
    /\ band m' = band (last es m)
    /\ (es = [] -> m' = m)
    /\ (es <> [] -> energy m' = Rmin 1 (energy m + Spec.sumEnergy es)).
Proof.
  intros Hrem. revert m. induction es as [|e es IH]; intros m Hm Hes.
  - exists m. simpl. repeat split; auto. congruence.
  - destruct (Hes e (or_introl eq_refl)) as [He Hpos].
    assert (Hin : filter (inCluster e) (rem ++ [m]) = [m]).
    { rewrite filter_app_single.
      assert (Hm1 : inCluster e m = true).
      { apply inCluster_iff. rewrite Hm, He.
        unfold clusterWindow, Rabs; destruct (Rcase_abs _); lra. }
      rewrite Hm1, filter_none; auto.
      apply forallb_forall. intros x Hx. apply negb_true_iff, outside_apart.
      unfold Spec.apart. rewrite He. now apply Hrem. }
    assert (Hout : filter (fun x => negb (inCluster e x)) (rem ++ [m]) = rem).
    { generalize (filter_length (inCluster e) (rem ++ [m])). intros _.
      rewrite filter_app_single.
      assert (Hm1 : inCluster e m = true).
      { apply inCluster_iff. rewrite Hm, He.
        unfold clusterWindow, Rabs; destruct (Rcase_abs _); lra. }
      rewrite Hm1; simpl. rewrite app_nil_r. apply filter_all.
      apply forallb_forall. intros x Hx. apply negb_true_iff, outside_apart.
      unfold Spec.apart. rewrite He. now apply Hrem. }
    assert (Hpush : push (mkQueue (rem ++ [m]) h) e
                    = mkQueue (rem ++ [combine [m; e] e]) h).
    { unfold push, clusterEvent. rewrite partition_as_filter. simpl events.
      rewrite Hin, Hout. reflexivity. }
    simpl fold_left. rewrite Hpush.
    destruct (IH (combine [m; e] e)) as (m' & E1 & E2 & E3 & E4 & E5 & E6).
    { rewrite combine_eq; simpl. exact He. }
    { intros x Hx. apply Hes. now right. }
    exists m'. split; [exact E1|]. split; [exact E2|]. split; [exact E3|].
    assert (Hen : energy (combine [m; e] e) = Rmin 1 (energy m + energy e)).
    { rewrite combine_eq; simpl. f_equal. lra. }
    split; [|split; [discriminate|]].
    + rewrite E4. destruct es as [|e' es]; [reflexivity|].
      change (last (e :: e' :: es) m) with (last (e' :: es) m).
      f_equal. apply last_default.
    + intros _. destruct es as [|e' es].
      * rewrite (E5 eq_refl), Hen. simpl. f_equal. lra.
      * rewrite E6 by discriminate. rewrite Hen.
        assert (Hs : 0 <= Spec.sumEnergy (e' :: es)).
        { apply sumEnergy_nonneg. intros x Hx. apply Hes. now right. }
        rewrite Rmin_cap by exact Hs.
        f_equal. change (Spec.sumEnergy (e :: e' :: es))
                   with (energy e + Spec.sumEnergy (e' :: es)). lra.
Qed.

End QueueMore.

(** * The events of one frame *)

Section FrameEvents.

Import EventQueue.

Lemma queue_eta (q : queue) : q = mkQueue (events q) (halfLife q).
Proof. now destruct q. Qed.

Lemma map_last {A B} (f : A -> B) (l : list A) (d : A) :
  last (map f l) (f d) = f (last l d).
Proof.
  induction l as [|x l IH]; [reflexivity|].
  destruct l as [|y l]; [reflexivity|]. exact IH.
Qed.

(** X9: a frame with at least one onset (of non-negative energies) hands
    the renderer exactly one event, whatever the queue held: its time is
    the frame's, its band is the last onset's, and its energy is the sum of
    the onset energies and of the energies already retained within 30 ms of
    the frame, capped at 1 (a single onset with nothing retained nearby
    keeps its energy uncapped). What stays in the queue is more than 30 ms
    later than the frame. *)
Theorem frame_onsets_give_one_event (q : queue)
  (frame : AudioEngine.AnalysisFrame) (pitch centroid : option R) :
  AudioEngine.onsets frame <> [] ->
  (forall o, In o (AudioEngine.onsets frame) -> 0 <= AudioEngine.energy o) ->
  let T := AudioEngine.time frame in
  let es := StudioView.eventsOfFrame frame pitch centroid in
  let inside :=
    filter (fun x => (t x >=? T - clusterWindow) && (t x <=? T + clusterWindow))
           (events q) in
  exists m,
    fst (StudioView.frameEvents q frame pitch centroid) = [m]
    /\ t m = T
    /\ (forall d, band m = AudioEngine.band (last (AudioEngine.onsets frame) d))
    /\ (inside = [] -> List.length es = 1%nat -> energy m = Spec.sumEnergy es)
    /\ (inside <> [] \/ (1 < List.length es)%nat ->
        energy m = Rmin 1 (Spec.sumEnergy inside + Spec.sumEnergy es))
    /\ (forall x, In x (events (snd (StudioView.frameEvents q frame pitch centroid))) ->
                  In x (events q) /\ t x > T + 3 / 100).
Proof.
  intros Hne Hpos T es inside.
  unfold StudioView.frameEvents. fold es. fold T.
  destruct (AudioEngine.onsets frame) as [|o os] eqn:Hos; [congruence|].
  assert (Hes : es = mkEvent T (AudioEngine.band o) (AudioEngine.energy o) pitch centroid
                     :: map (fun onset => mkEvent T (AudioEngine.band onset)
                                                  (AudioEngine.energy onset) pitch centroid) os).
  { unfold es, StudioView.eventsOfFrame. now rewrite Hos. }
  set (e1 := mkEvent T (AudioEngine.band o) (AudioEngine.energy o) pitch centroid) in *.
  set (es' := map (fun onset => mkEvent T (AudioEngine.band onset)
                                        (AudioEngine.energy onset) pitch centroid) os) in *.
  rewrite Hes. simpl fold_left.
  set (rem := filter (fun x => negb (inCluster e1 x)) (events q)).
  assert (Hinside : inside = filter (inCluster e1) (events q)) by reflexivity.
  destruct (push_shape q e1) as (m1 & Hm1 & Hev1).
  fold rem in Hev1.
  assert (Hq1 : push q e1 = mkQueue (rem ++ [m1]) (halfLife q)).
  { rewrite (queue_eta (push q e1)), Hev1. f_equal.
    apply (proj2 (proj2 (proj2 (proj2 (push_cases q e1))))). }
  assert (Hrem : forall x, In x rem -> Rabs (t x - T) > clusterWindow).
  { intros x Hx. apply filter_In in Hx. destruct Hx as [_ Hx].
    apply negb_true_iff, outside_apart in Hx. exact Hx. }
  assert (Hes' : forall e, In e es' -> t e = T /\ 0 <= energy e).
  { intros e He. apply in_map_iff in He. destruct He as (o' & <- & Ho'). simpl.
    split; auto. apply Hpos. now right. }
  destruct (push_same_time T (halfLife q) rem es' m1 Hrem Hm1 Hes')
    as (m & E1 & E2 & E3 & E4 & E5 & E6).
  rewrite Hq1.
  exists m. rewrite popSince_eq; simpl. rewrite E1, !filter_app_single.
  assert (Hw : inWindow (T - 16 / 1000) T m = true).
  { unfold inWindow. apply andb_true_iff. split; js_cmp; lra. }
  assert (Hg : (t m >? T) = false) by (js_cmp; lra).
  assert (Hnone : filter (inWindow (T - 16 / 1000) T) rem = []).
  { apply filter_none. apply forallb_forall. intros x Hx. apply Hrem in Hx.
    apply negb_true_iff. unfold inWindow. apply andb_false_iff.
    unfold clusterWindow in Hx. unfold Rabs in Hx.
    destruct (Rcase_abs _); [left|right]; js_cmp; lra. }
  rewrite Hw, Hg, Hnone, app_nil_r. simpl.
  assert (Hm1e : (inside = [] -> m1 = e1)
                 /\ (inside <> [] ->
                     energy m1 = Rmin 1 (Spec.sumEnergy inside + energy e1))).
  { destruct (push_cases q e1) as (C1 & C2 & _). rewrite <- Hinside in *. split.
    - intros Hi. specialize (C1 Hi). rewrite Hev1 in C1.
      unfold rem in C1. rewrite Hinside in Hi. rewrite (filter_nil_all _ _ Hi) in C1.
      apply app_inj_tail in C1. tauto.
    - intros Hi. destruct (C2 Hi) as (m0 & D1 & _ & _ & D4 & _).
      rewrite Hev1 in D1. apply app_inj_tail in D1. destruct D1 as [_ <-].
      exact D4. }
  destruct Hm1e as [M1 M2].
  assert (Hs' : 0 <= Spec.sumEnergy es').
  { apply sumEnergy_nonneg. intros x Hx. now apply Hes'. }
  split; [reflexivity|]. split; [exact E3|]. split; [|split; [|split]].
  - intros d. rewrite E4. unfold es'.
    destruct os as [|o' os']; simpl map.
    + simpl. destruct (filter (inCluster e1) (events q)) eqn:Hc.
      * rewrite (M1 Hinside). reflexivity.
      * assert (Hne' : filter (inCluster e1) (events q) <> []) by (rewrite Hc; discriminate).
        rewrite (push_inside q e1 Hne') in Hev1. fold rem in Hev1.
        apply app_inj_tail in Hev1. destruct Hev1 as [_ <-]. reflexivity.
    + change (last (o :: o' :: os') d) with (last (o' :: os') d).
      rewrite (last_default _ _ m1 (mkEvent T (AudioEngine.band d)
                                            (AudioEngine.energy d) pitch centroid)).
      rewrite <- (map_cons (fun onset => mkEvent T (AudioEngine.band onset)
                                                 (AudioEngine.energy onset) pitch centroid)).
      rewrite (map_last (fun onset => mkEvent T (AudioEngine.band onset)
                                              (AudioEngine.energy onset) pitch centroid)
                        (o' :: os') d).
      reflexivity.
  - intros Hi Hlen. simpl in Hlen.
    assert (Hnil : es' = []) by (destruct es'; [reflexivity | simpl in Hlen; lia]).
    rewrite (E5 Hnil), (M1 Hi), Hnil. simpl. lra.
  - intros Hcase. change (AudioEngine.energy o) with (energy e1).
    destruct es' as [|e' es''] eqn:Hes''.
    + destruct Hcase as [Hi|Hlen]; [|simpl in Hlen; lia].
      rewrite (E5 eq_refl), (M2 Hi). simpl. f_equal. lra.
    + rewrite E6 by discriminate.
      destruct (filter (inCluster e1) (events q)) as [|c cs] eqn:Hc.
      * rewrite (M1 Hinside). rewrite Hinside. simpl. f_equal. lra.
      * assert (Hi : inside <> []) by (rewrite Hinside; discriminate).
        rewrite (M2 Hi), Rmin_cap by exact Hs'. f_equal. lra.
  - intros x Hx. apply filter_In in Hx. destruct Hx as [Hx Hgt].
    assert (Hx' := Hrem x Hx). apply filter_In in Hx. js_cmp.
    split; [tauto|]. unfold clusterWindow, Rabs in Hx'.
    destruct (Rcase_abs _); lra.
Qed.

Lemma frame_onsets_give_one_event_witness :
  let frame := AudioEngine.mkFrame 1 [AudioEngine.mkOnset low (4 / 10);
                                      AudioEngine.mkOnset high (5 / 10)] in
  exists m,
    fst (StudioView.frameEvents (constructor (3 / 2)) frame (Some 440) (Some 3)) = [m]
    /\ t m = 1 /\ band m = high /\ energy m = 9 / 10.
Proof.
  intros frame.
  destruct (frame_onsets_give_one_event (constructor (3 / 2)) frame (Some 440) (Some 3))
    as (m & H1 & H2 & H3 & _ & H5 & _).
  - discriminate.
  - intros o [<-|[<-|[]]]; simpl; lra.
  - exists m. split; [exact H1|]. split; [exact H2|]. split.
    + exact (H3 (AudioEngine.mkOnset low 0)).
    + rewrite H5 by (right; simpl; lia). simpl.
      unfold Rmin; destruct (Rle_dec _ _); lra.
Defined.

End FrameEvents.

(** * Further properties of the audio engine *)

Section EngineMore.

Import AudioEngine.

Lemma div_between (a b n d : R) :
  0 < d -> a * d <= n <= b * d -> a <= n / d <= b.
Proof.
  intros Hd [H1 H2].
  assert (Hi : 0 < / d) by now apply Rinv_0_lt_compat.
  assert (E : forall x, x * d / d = x) by (intros x; field; lra).
  rewrite <- (E a), <- (E b). unfold Rdiv.
  split; apply Rmult_le_compat_r; lra.
Qed.

(** X10: the saturation of a frame is always in [[0.3, 1]] and its
    brightness always in [[0.1, 1]], whatever the measured levels. *)
Theorem saturation_brightness_range :
  (forall rms centroid, 3 / 10 <= calculateSaturation rms centroid <= 1)
  /\ (forall rms bassDrum hihat, 1 / 10 <= calculateBrightness rms bassDrum hihat <= 1).
Proof.
  split.
  - intros rms centroid. unfold calculateSaturation, Num.min.
    split; [apply Rmax_l|].
    apply Rmax_lub; [lra|].
    assert (H1 := Rmin_l 1 (rms * 3)).
    assert (H2 := Rmin_l 1 (centroid * (15 / 10))). lra.
  - intros rms bassDrum hihat. unfold calculateBrightness, Num.min.
    split; [apply Rmax_l|].
    apply Rmax_lub; [lra | apply Rmin_l].
Qed.

(** X11: the hue follows a fixed priority, for any levels: bass drum (0),
    then snare (0.33), then hi-hat (0.67), then melody (0.8), the first
    whose level exceeds 0.1; with none above 0.1 it is the level-weighted
    mean of the four anchors when the levels sum to more than 0, and 0
    when they sum to nothing (or less). For non-negative levels the hue
    is always in [[0, 0.8]]. *)
Theorem hue_priority_and_range (bassDrum snare hihat melody : R) :
  (bassDrum > 1 / 10 -> calculateHue bassDrum snare hihat melody = 0)
  /\ (bassDrum <= 1 / 10 -> snare > 1 / 10 ->
      calculateHue bassDrum snare hihat melody = 33 / 100)
  /\ (bassDrum <= 1 / 10 -> snare <= 1 / 10 -> hihat > 1 / 10 ->
      calculateHue bassDrum snare hihat melody = 67 / 100)
  /\ (bassDrum <= 1 / 10 -> snare <= 1 / 10 -> hihat <= 1 / 10 -> melody > 1 / 10 ->
      calculateHue bassDrum snare hihat melody = 8 / 10)
  /\ (bassDrum <= 1 / 10 -> snare <= 1 / 10 -> hihat <= 1 / 10 -> melody <= 1 / 10 ->
      0 < bassDrum + snare + hihat + melody ->
      calculateHue bassDrum snare hihat melody
      = (snare * (33 / 100) + hihat * (67 / 100) + melody * (8 / 10))
        / (bassDrum + snare + hihat + melody))
  /\ (bassDrum <= 1 / 10 -> snare <= 1 / 10 -> hihat <= 1 / 10 -> melody <= 1 / 10 ->
      bassDrum + snare + hihat + melody <= 0 ->
      calculateHue bassDrum snare hihat melody = 0)
  /\ (0 <= bassDrum -> 0 <= snare -> 0 <= hihat -> 0 <= melody ->
      0 <= calculateHue bassDrum snare hihat melody <= 8 / 10).
Proof.
  unfold calculateHue.
  destruct (bassDrum >? 1 / 10) eqn:E1; js_cmp.
  { repeat split; intros; lra. }
  destruct (snare >? 1 / 10) eqn:E2; js_cmp.
  { repeat split; intros; lra. }
  destruct (hihat >? 1 / 10) eqn:E3; js_cmp.
  { repeat split; intros; lra. }
  destruct (melody >? 1 / 10) eqn:E4; js_cmp.
  { repeat split; intros; lra. }
  destruct (bassDrum + snare + hihat + melody >? 0) eqn:E5; js_cmp.
  - repeat split; intros; try lra.
    + apply (div_between 0 (8 / 10)); lra.
    + apply (div_between 0 (8 / 10)); lra.
  - repeat split; intros; lra.
Qed.

Lemma hue_priority_and_range_witness :
  calculateHue (5 / 100) (2 / 10) (9 / 10) 0 = 33 / 100
  /\ calculateHue (5 / 100) (- (2)) (- (3)) (1 / 2) = 8 / 10
  /\ calculateHue 0 0 0 0 = 0
  /\ calculateHue (1 / 10) (- (1 / 10)) 0 0 = 0
  /\ 0 <= calculateHue (5 / 100) (5 / 100) 0 (5 / 100) <= 8 / 10.
Proof.
  split; [|split; [|split; [|split]]].
  - apply (hue_priority_and_range (5 / 100) (2 / 10) (9 / 10) 0); lra.
  - apply (hue_priority_and_range (5 / 100) (- (2)) (- (3)) (1 / 2)); lra.
  - apply (hue_priority_and_range 0 0 0 0); lra.
  - apply (hue_priority_and_range (1 / 10) (- (1 / 10)) 0 0); lra.
  - apply (hue_priority_and_range (5 / 100) (5 / 100) 0 (5 / 100)); lra.
Defined.

Lemma div_strictly_between (a b n d : R) :
  0 < d -> a * d < n < b * d -> a < n / d < b.
Proof.
  intros Hd [H1 H2].
  assert (Hi : 0 < / d) by now apply Rinv_0_lt_compat.
  assert (E : forall x, x * d / d = x) by (intros x; field; lra).
  rewrite <- (E a), <- (E b). unfold Rdiv.
  split; apply Rmult_lt_compat_r; lra.
Qed.

Lemma fold_left_Rplus (l : list R) (acc : R) :
  fold_left Rplus l acc = acc + fold_right Rplus 0 l.
Proof.
  revert acc; induction l as [|x l IH]; intros acc; simpl; [lra|].
  rewrite IH; lra.
Qed.

Lemma sum_between (a b : R) (l : list R) :
  Forall (fun x => a < x < b) l -> l <> [] ->
  a * INR (List.length l) < fold_right Rplus 0 l < b * INR (List.length l).
Proof.
  induction 1 as [|x l Hx Hl IH]; intros Hne; [congruence|].
  destruct l as [|y l].
  - simpl. lra.
  - assert (IH' := IH ltac:(discriminate)).
    change (fold_right Rplus 0 (x :: y :: l)) with (x + fold_right Rplus 0 (y :: l)).
    change (List.length (x :: y :: l)) with (S (List.length (y :: l))).
    rewrite S_INR. lra.
Qed.

Lemma reduceSum_mean_between (a b : R) (l : list R) :
  Forall (fun x => a < x < b) l -> l <> [] ->
  a < reduceSum l / INR (List.length l) < b.
Proof.
  intros H Hne.
  assert (Hs := sum_between a b l H Hne).
  assert (Hr : reduceSum l = fold_right Rplus 0 l).
  { destruct l as [|x l]; [congruence|]. unfold reduceSum; simpl.
    rewrite fold_left_Rplus. reflexivity. }
  rewrite Hr. apply div_strictly_between; auto.
  destruct l; [congruence|]. apply lt_0_INR. simpl. lia.
Qed.

(** X12: the tempo estimate. When the history holds at most 10 values, all
    strictly between 30 and 300, the same is true after [calculateBPM],
    which adds at most one value: only an interval strictly between 200
    and 2000 ms since the last beat is recorded, as [60000 / interval]. The
    result is the mean of the history, hence strictly between 30 and 300,
    and it is 120 when the history is empty. *)
Theorem calculateBPM_range (st : tempo) (now : R) :
  (List.length (bpmHistory st) <= 10)%nat ->
  Forall (fun x => 30 < x < 300) (bpmHistory st) ->
  let bpm := fst (calculateBPM st now) in
  let st' := snd (calculateBPM st now) in
  30 < bpm < 300
  /\ (List.length (bpmHistory st') <= 10)%nat
  /\ Forall (fun x => 30 < x < 300) (bpmHistory st')
  /\ (bpmHistory st' = [] -> bpm = 120)
  /\ (bpmHistory st' <> [] ->
      bpm = fold_right Rplus 0 (bpmHistory st') / INR (List.length (bpmHistory st')))
  /\ (List.length (bpmHistory st') <= List.length (bpmHistory st) + 1)%nat
  /\ core st' = core st /\ onsetCounter st' = onsetCounter st.
Proof.
  intros Hlen Hall bpm st'.
  assert (Hst : (List.length (bpmHistory st') <= 10)%nat
                /\ Forall (fun x => 30 < x < 300) (bpmHistory st')
                /\ (List.length (bpmHistory st') <= List.length (bpmHistory st) + 1)%nat
                /\ core st' = core st /\ onsetCounter st' = onsetCounter st).
  { unfold st', calculateBPM; simpl.
    destruct (0 <? onsetCounter st)%Z; simpl; [|repeat split; auto; lia].
    destruct (lastBeatTime st >? 0); [|repeat split; auto; lia].
    destruct ((now - lastBeatTime st >? 200) && (now - lastBeatTime st <? 2000)) eqn:E;
      [|repeat split; auto; lia].
    js_cmp.
    assert (Hnew : 30 < 60000 / (now - lastBeatTime st) < 300)
      by (apply div_strictly_between; lra).
    assert (Hpushed : Forall (fun x => 30 < x < 300)
                        (bpmHistory st ++ [60000 / (now - lastBeatTime st)])).
    { apply Forall_app. split; auto. }
    assert (Hl : List.length (bpmHistory st ++ [60000 / (now - lastBeatTime st)])
                 = S (List.length (bpmHistory st)))
      by (rewrite length_app; simpl; lia).
    destruct (10 <? List.length _)%nat eqn:E10.
    - destruct (bpmHistory st ++ [60000 / (now - lastBeatTime st)]) as [|x l] eqn:El;
        simpl in *; [repeat split; auto; lia|].
      inversion Hpushed; subst. repeat split; auto; lia.
    - apply Nat.ltb_ge in E10. repeat split; auto; lia. }
  destruct Hst as (H1 & H2 & H3 & H4 & H5).
  assert (Hb : bpm = if (0 <? List.length (bpmHistory st'))%nat
                     then reduceSum (bpmHistory st') / INR (List.length (bpmHistory st'))
                     else 120) by reflexivity.
  split; [|split; [exact H1|split; [exact H2|split; [|split; [|tauto]]]]].
  - rewrite Hb. destruct (bpmHistory st') as [|x l] eqn:E; [simpl; lra|].
    cbn [List.length Nat.ltb Nat.leb].
    apply reduceSum_mean_between; [exact H2 | discriminate].
  - intros E. rewrite Hb, E. reflexivity.
  - intros E. rewrite Hb. destruct (bpmHistory st') as [|x l]; [congruence|].
    cbn [List.length Nat.ltb Nat.leb]. f_equal. unfold reduceSum; simpl.
    rewrite fold_left_Rplus. reflexivity.
Qed.

Lemma calculateBPM_range_witness :
  let st := mkTempo (mkEngine true 44100 16 (repeat 0 16) (repeat 0 16) None)
                    3 [120] 1000 0 in
  30 < fst (calculateBPM st 1500) < 300
  /\ bpmHistory (snd (calculateBPM st 1500)) = [120; 60000 / (1500 - 1000)].
Proof.
  intros st.
  destruct (calculateBPM_range st 1500) as (H & _).
  - simpl; lia.
  - repeat constructor; lra.
  - split; [exact H|]. unfold calculateBPM; simpl.
    assert (E1 : (1000 >? 0) = true) by (js_cmp; lra).
    assert (E2 : (1500 - 1000 >? 200) = true) by (js_cmp; lra).
    assert (E3 : (1500 - 1000 <? 2000) = true) by (js_cmp; lra).
    rewrite E1, E2, E3. reflexivity.
Defined.

Lemma jsRem_small (x y : R) : 0 <= x -> x < y -> jsRem x y = x.
Proof.
  intros Hx Hy. unfold jsRem.
  assert (Hq : 0 <= x / y < 1).
  { assert (H := div_between 0 1 x y). split; [apply H; lra|].
    apply (div_strictly_between (-1) 1 x y); lra. }
  assert (E : (x / y <? 0) = false) by (js_cmp; lra).
  rewrite E, (Zfloor_eq 0) by (simpl; lra). simpl. lra.
Qed.

(** X13: the beat phase. A tempo below 60 BPM leaves the beat state as it
    is. Otherwise, when the last beat is not in the future, the phase
    after the call is in [[0, 1)]: it is the elapsed share of the beat
    interval [60 / bpm], and it is reset to 0, with the last beat moved to
    now, once a full interval has elapsed. *)
Theorem updateBeatPhase_range (st : tempo) (bpm currentTime : R) :
  (bpm < 60 -> updateBeatPhase st bpm currentTime = st)
  /\ (60 <= bpm -> lastBeatTime st <= currentTime ->
      let st' := updateBeatPhase st bpm currentTime in
      0 <= beatPhase st' < 1
      /\ lastBeatTime st' <= currentTime
      /\ (lastBeatTime st <> 0 -> currentTime - lastBeatTime st < 60 / bpm ->
          beatPhase st' = (currentTime - lastBeatTime st) / (60 / bpm)
          /\ lastBeatTime st' = lastBeatTime st)
      /\ (lastBeatTime st = 0 \/ 60 / bpm <= currentTime - lastBeatTime st ->
          beatPhase st' = 0 /\ lastBeatTime st' = currentTime)).
Proof.
  split.
  - intros H. unfold updateBeatPhase.
    assert (E : (bpm <? 60) = true) by (js_cmp; lra). now rewrite E.
  - intros Hb Hl st'. unfold st', updateBeatPhase.
    assert (E : (bpm <? 60) = false) by (js_cmp; lra). rewrite E.
    assert (Hi : 0 < 60 / bpm).
    { apply (div_strictly_between 0 2 60 bpm); lra. }
    destruct (Req_dec_T (lastBeatTime st) 0) as [E0|E0]; simpl.
    { repeat split; intros; try lra; tauto. }
    destruct (currentTime - lastBeatTime st >=? 60 / bpm) eqn:E1; js_cmp; simpl.
    { repeat split; intros; try lra. }
    rewrite jsRem_small by lra.
    assert (Hq : 0 <= (currentTime - lastBeatTime st) / (60 / bpm) < 1).
    { split; [apply (div_between 0 1); lra|].
      apply (div_strictly_between (-1) 1); lra. }
    repeat split; intros; try lra;
      match goal with H : _ \/ _ |- _ => destruct H; [congruence | lra] end.
Qed.

Lemma updateBeatPhase_range_witness :
  let st := mkTempo (mkEngine true 44100 16 (repeat 0 16) (repeat 0 16) None)
                    0 [] 1 0 in
  beatPhase (updateBeatPhase st 120 (5 / 4)) = 1 / 2
  /\ updateBeatPhase st 45 (5 / 4) = st.
Proof.
  intros st.
  destruct (updateBeatPhase_range st 120 (5 / 4)) as (_ & H).
  destruct (updateBeatPhase_range st 45 (5 / 4)) as (H45 & _).
  split; [|apply H45; lra].
  destruct H as (_ & _ & H & _); simpl; try lra.
  destruct H as [H _]; simpl; try lra.
  rewrite H. simpl. lra.
Defined.

Lemma typedSet_same_length (target source : list R) :
  List.length source = List.length target -> typedSet target source = Some source.
Proof.
  intros H. unfold typedSet. rewrite H, Nat.ltb_irrefl.
  rewrite skipn_all, app_nil_r. reflexivity.
Qed.

Lemma detectOnset_step (st : tempo) :
  List.length (frequencyData (core st)) = List.length (previousSpectrum (core st)) ->
  let flux := fold_left (fluxStep (frequencyData (core st)) (previousSpectrum (core st)))
                        (bins 0 (bufferLength (core st))) 0 in
  let st' := snd (detectOnset st) in
  onsetCounter st' = (if flux >? onsetThreshold then 10%Z else Z.max 0 (onsetCounter st - 1))
  /\ fst (detectOnset st) = Some (0 <? onsetCounter st')%Z
  /\ previousSpectrum (core st') = frequencyData (core st)
  /\ frequencyData (core st') = frequencyData (core st)
  /\ bufferLength (core st') = bufferLength (core st).
Proof.
  intros H flux st'. unfold st', detectOnset.
  rewrite (typedSet_same_length _ _ H). simpl. repeat split.
Qed.

(** X14: one call of [detectOnset] on buffers of equal length. The flux
    is the sum of the positive rises of the spectrum over the previous one;
    above 0.3 the hold counter is set to 10, otherwise it is decreased by
    one and never below 0; the answer is whether the counter is positive;
    the spectrum becomes the previous one. So a second call on an unchanged
    spectrum never detects: it only counts down. *)
Theorem detectOnset_counter (st : tempo) :
  List.length (frequencyData (core st)) = List.length (previousSpectrum (core st)) ->
  let flux := fold_left (fluxStep (frequencyData (core st)) (previousSpectrum (core st)))
                        (bins 0 (bufferLength (core st))) 0 in
  let st' := snd (detectOnset st) in
  (flux > 3 / 10 -> onsetCounter st' = 10%Z /\ fst (detectOnset st) = Some true)
  /\ (flux <= 3 / 10 ->
      onsetCounter st' = Z.max 0 (onsetCounter st - 1)
      /\ fst (detectOnset st) = Some (1 <? onsetCounter st)%Z)
  /\ previousSpectrum (core st') = frequencyData (core st)
  /\ onsetCounter (snd (detectOnset st')) = Z.max 0 (onsetCounter st' - 1)
  /\ fst (detectOnset st') = Some (1 <? onsetCounter st')%Z.
Proof.
  intros H flux st'.
  destruct (detectOnset_step st H) as (H1 & H2 & H3 & H4 & H5).
  fold flux in H1. fold st' in H1, H2, H3, H4, H5.
  assert (Hans : forall c, (0 <? Z.max 0 (c - 1))%Z = (1 <? c)%Z).
  { intros c. destruct (1 <? c)%Z eqn:E.
    - apply Z.ltb_lt in E. apply Z.ltb_lt. lia.
    - apply Z.ltb_ge in E. apply Z.ltb_ge. lia. }
  split; [|split; [|split; [exact H3|]]].
  - intros Hf. assert (E : (flux >? onsetThreshold) = true) by (js_cmp; exact Hf).
    rewrite E in H1. rewrite H2, H1. now split.
  - intros Hf. assert (E : (flux >? onsetThreshold) = false) by (js_cmp; exact Hf).
    rewrite E in H1. rewrite H2, H1, Hans. now split.
  - assert (H' : List.length (frequencyData (core st'))
                 = List.length (previousSpectrum (core st'))) by (now rewrite H3, H4).
    destruct (detectOnset_step st' H') as (K1 & K2 & _).
    rewrite H3, H4, fluxLoop_same in K1.
    assert (E : (0 >? onsetThreshold) = false)
      by (js_cmp; unfold onsetThreshold; lra).
    rewrite E in K1. rewrite K2, K1, Hans. now split.
Qed.

Lemma detectOnset_counter_witness :
  let st := mkTempo (mkEngine true 44100 2 [- 90; - 90] [- 100; - 100] None) 0 [] 0 0 in
  onsetCounter (snd (detectOnset st)) = 10%Z
  /\ fst (detectOnset st) = Some true
  /\ onsetCounter (snd (detectOnset (snd (detectOnset st)))) = 9%Z.
Proof.
  intros st.
  assert (Hl : List.length (frequencyData (core st))
               = List.length (previousSpectrum (core st))) by reflexivity.
  destruct (detectOnset_counter st Hl) as (H1 & _ & _ & H4 & _).
  assert (Hf : fold_left (fluxStep (frequencyData (core st)) (previousSpectrum (core st)))
                         (bins 0 (bufferLength (core st))) 0 > 3 / 10).
  { simpl. unfold fluxStep; simpl.
    assert (E1 : (-90 - -100 >? 0) = true) by (js_cmp; lra).
    rewrite !E1. lra. }
  destruct (H1 Hf) as [Hc Ha].
  split; [exact Hc|]. split; [exact Ha|].
  rewrite H4, Hc. reflexivity.
Defined.

Lemma onsetTicks_hold (spectra : list (list R)) (st : tempo) :
  (Z.of_nat (List.length spectra) < onsetCounter st)%Z ->
  (List.length spectra <= 10)%nat ->
  Forall (fun s => List.length s = List.length (previousSpectrum (core st))) spectra ->
  Forall (fun answer => answer = Some true) (fst (onsetTicks st spectra)).
Proof.
  revert st; induction spectra as [|s rest IH]; intros st Hc Hn Hl.
  - simpl. constructor.
  - inversion Hl as [|? ? Hs Hrest]; subst.
    cbn [onsetTicks].
    destruct (onsetTick st s) as [answer st1] eqn:E1.
    destruct (onsetTicks st1 rest) as [answers st2] eqn:E2.
    unfold onsetTick in E1.
    set (st0 := mkTempo _ _ _ _ _) in E1.
    assert (H0 : List.length (frequencyData (core st0))
                 = List.length (previousSpectrum (core st0))) by exact Hs.
    destruct (detectOnset_step st0 H0) as (K1 & K2 & K3 & _).
    rewrite E1 in K1, K2, K3. simpl in K1, K2, K3.
    change (List.length (s :: rest)) with (S (List.length rest)) in Hc, Hn.
    rewrite Nat2Z.inj_succ in Hc.
    assert (Hc1 : (Z.of_nat (List.length rest) < onsetCounter st1)%Z).
    { rewrite K1. destruct (_ >? _); lia. }
    assert (I := IH st1 Hc1).
    rewrite E2 in I. simpl in I. simpl.
    constructor.
    + rewrite K2. f_equal. apply Z.ltb_lt. lia.
    + apply I; [lia|]. rewrite K3. eapply Forall_impl; [|exact Hrest].
      intros a Ha. simpl in Ha. congruence.
Qed.

(** X15: the detection is held for 10 calls. After a call that set the
    hold counter to 10 (a detection), each of the next 9 calls answers
    [true] whatever spectra arrive, as long as they have the length of the
    buffers. *)
Theorem onset_held_for_ten_calls (st : tempo) (spectra : list (list R)) :
  onsetCounter st = 10%Z ->
  (List.length spectra <= 9)%nat ->
  Forall (fun s => List.length s = List.length (previousSpectrum (core st))) spectra ->
  Forall (fun answer => answer = Some true) (fst (onsetTicks st spectra)).
Proof.
  intros Hc Hn Hl. apply onsetTicks_hold; auto; lia.
Qed.

Lemma onset_held_for_ten_calls_witness :
  let st := mkTempo (mkEngine true 44100 2 [0; 0] [0; 0] None) 10 [] 0 0 in
  Forall (fun answer => answer = Some true) (fst (onsetTicks st [[0; 0]; [- 5; - 5]])).
Proof.
  intros st. apply (onset_held_for_ten_calls st [[0; 0]; [- 5; - 5]]).
  - reflexivity.
  - simpl; lia.
  - repeat constructor.
Defined.

Lemma bins_nil (lo hi : Z) : (hi <= lo)%Z -> bins lo hi = [].
Proof.
  intros H. unfold bins. replace (Z.to_nat (hi - lo)) with 0%nat by lia. reflexivity.
Qed.

Lemma bins_cons (lo hi : Z) : (lo < hi)%Z -> bins lo hi = lo :: bins (lo + 1) hi.
Proof.
  intros H. unfold bins.
  replace (Z.to_nat (hi - lo)) with (S (Z.to_nat (hi - (lo + 1)))) by lia.
  cbn [seq map]. f_equal; [lia|].
  rewrite <- seq_shift, map_map. apply map_ext. intros k. lia.
Qed.

Lemma bins_app (lo mid hi : Z) :
  (lo <= mid)%Z -> (mid <= hi)%Z -> bins lo hi = bins lo mid ++ bins mid hi.
Proof.
  intros H1 H2.
  remember (Z.to_nat (mid - lo)) as k eqn:Hk.
  revert lo H1 Hk. induction k as [|k IH]; intros lo H1 Hk.
  - assert (lo = mid) by lia. subst lo. now rewrite (bins_nil mid mid) by lia.
  - rewrite (bins_cons lo hi), (bins_cons lo mid) by lia.
    simpl. f_equal. apply IH; lia.
Qed.

Lemma bins_range (lo hi i : Z) : In i (bins lo hi) -> (lo <= i < hi)%Z.
Proof.
  unfold bins. rewrite in_map_iff. intros (k & <- & Hk).
  apply in_seq in Hk. lia.
Qed.

(** The sum of the magnitudes of the bins of a range that lies inside the
    spectrum. *)
Lemma bandEnergy_sum (fd : list R) (ixs : list Z) (acc : R) :
  (forall i, In i ixs -> (0 <= i < Z.of_nat (List.length fd))%Z) ->
  fold_left (fun energy i => addNaN energy (magnitude fd i)) ixs (Some acc)
  = Some (acc + fold_right (fun i s => Rpower 10 (nth (Z.to_nat i) fd 0 / 10) + s) 0 ixs)
  /\ 0 <= fold_right (fun i s => Rpower 10 (nth (Z.to_nat i) fd 0 / 10) + s) 0 ixs.
Proof.
  revert acc; induction ixs as [|i ixs IH]; intros acc H.
  - simpl. split; [f_equal; lra | lra].
  - assert (Hi := H i (or_introl eq_refl)).
    assert (Hget : get fd i = Some (nth (Z.to_nat i) fd 0)).
    { unfold get. destruct (i <? 0)%Z eqn:E; [apply Z.ltb_lt in E; lia|].
      apply nth_error_nth'. lia. }
    cbn [fold_left fold_right]. unfold magnitude at 2. rewrite Hget. cbn [addNaN].
    destruct (IH (acc + Rpower 10 (nth (Z.to_nat i) fd 0 / 10))
                 (fun j Hj => H j (or_intror Hj))) as [E P].
    rewrite E. split; [f_equal; lra|].
    assert (0 < Rpower 10 (nth (Z.to_nat i) fd 0 / 10)) by (unfold Rpower; apply exp_pos).
    lra.
Qed.

Lemma bin_monotone (st : engine) (a b : R) :
  0 < sampleRate st -> (0 <= bufferLength st)%Z -> 0 <= a -> a <= b ->
  (0 <= bin st a <= bin st b)%Z.
Proof.
  intros Hs Hn Ha Hab. unfold bin.
  assert (Hn' : 0 <= IZR (bufferLength st)) by (now apply IZR_le).
  assert (Hi : 0 < / (sampleRate st / 2)) by (apply Rinv_0_lt_compat; lra).
  assert (H1 : 0 <= a / (sampleRate st / 2)) by (unfold Rdiv; apply Rmult_le_pos; lra).
  assert (H2 : a / (sampleRate st / 2) <= b / (sampleRate st / 2))
    by (unfold Rdiv; apply Rmult_le_compat_r; lra).
  split.
  - apply Zfloor_lub. simpl. apply Rmult_le_pos; lra.
  - apply Zfloor_le. apply Rmult_le_compat_r; lra.
Qed.

(** X16: band energies add up over adjacent bands. On an engine whose
    spectrum has [bufferLength] values and whose sample rate is positive,
    for frequencies [0 <= a <= b <= c] the three band energies are numbers
    (never NaN), each is non-negative, and the energy of [[a, c)] is the sum
    of those of [[a, b)] and [[b, c)]. *)
Theorem bandEnergy_additive (st : engine) (a b c : R) :
  0 < sampleRate st ->
  (0 <= bufferLength st)%Z ->
  Z.of_nat (List.length (frequencyData st)) = bufferLength st ->
  0 <= a -> a <= b -> b <= c ->
  exists x y,
    calculateBandEnergy st a b = Some x
    /\ calculateBandEnergy st b c = Some y
    /\ calculateBandEnergy st a c = Some (x + y)
    /\ 0 <= x /\ 0 <= y.
Proof.
  intros Hs Hn Hlen Ha Hab Hbc.
  destruct (bin_monotone st a b Hs Hn Ha Hab) as [HA HAB].
  destruct (bin_monotone st b c Hs Hn (Rle_trans _ _ _ Ha Hab) Hbc) as [_ HBC].
  unfold calculateBandEnergy. fold (bin st a) (bin st b) (bin st c).
  set (A := bin st a) in *. set (B := bin st b) in *. set (C := bin st c) in *.
  set (n := bufferLength st) in *.
  set (f := fun i s => Rpower 10 (nth (Z.to_nat i) (frequencyData st) 0 / 10) + s).
  assert (Hin : forall lo hi, (0 <= lo)%Z -> (hi <= n)%Z ->
                  forall i, In i (bins lo hi) ->
                            (0 <= i < Z.of_nat (List.length (frequencyData st)))%Z).
  { intros lo hi H1 H2 i Hi. apply bins_range in Hi. lia. }
  destruct (bandEnergy_sum (frequencyData st) (bins A (Z.min B n)) 0
              (Hin _ _ HA (Z.le_min_r _ _))) as [E1 P1].
  assert (HB : (0 <= B)%Z) by lia.
  destruct (bandEnergy_sum (frequencyData st) (bins B (Z.min C n)) 0
              (Hin _ _ HB (Z.le_min_r _ _))) as [E2 P2].
  destruct (bandEnergy_sum (frequencyData st) (bins A (Z.min C n)) 0
              (Hin _ _ HA (Z.le_min_r _ _))) as [E3 P3].
  fold f in E1, E2, E3, P1, P2, P3.
  exists (fold_right f 0 (bins A (Z.min B n))), (fold_right f 0 (bins B (Z.min C n))).
  rewrite E1, E2, E3, !Rplus_0_l. repeat split; auto.
  f_equal.
  assert (Hadd : forall l1 l2, fold_right f 0 (l1 ++ l2) = fold_right f 0 l1 + fold_right f 0 l2).
  { intros l1 l2. induction l1 as [|i l1 IH]; simpl; [lra|]. unfold f at 1 3. rewrite IH. lra. }
  destruct (Z_le_gt_dec B n) as [HBn|HBn].
  - rewrite (Z.min_l B n) by lia.
    rewrite (bins_app A B (Z.min C n)) by lia. apply Hadd.
  - rewrite (Z.min_r B n), (Z.min_r C n) by lia.
    rewrite (bins_nil B n) by lia. simpl. lra.
Qed.

Lemma bandEnergy_additive_witness :
  let st := mkEngine true 8 4 [0; 10; 0; 10] [0; 0; 0; 0] None in
  exists x y,
    calculateBandEnergy st 0 2 = Some x
    /\ calculateBandEnergy st 2 4 = Some y
    /\ calculateBandEnergy st 0 4 = Some (x + y)
    /\ 0 <= x /\ 0 <= y.
Proof.
  intros st. apply (bandEnergy_additive st 0 2 4); simpl; try lra; try lia.
Defined.

Lemma centroid_sums (fd : list R) (top : R) (ixs : list Z) (w0 m0 : R) :
  (forall i, In i ixs -> (0 <= i < Z.of_nat (List.length fd))%Z /\ IZR i <= top) ->
  exists W M,
    fold_left (centroidStep fd) ixs (Some w0, Some m0) = (Some (w0 + W), Some (m0 + M))
    /\ 0 <= W /\ W <= top * M /\ 0 <= M /\ (ixs <> [] -> 0 < M).
Proof.
  revert w0 m0; induction ixs as [|i ixs IH]; intros w0 m0 H.
  - exists 0, 0. simpl. repeat split; try lra; [f_equal; f_equal; lra | congruence].
  - destruct (H i (or_introl eq_refl)) as [Hi Htop].
    assert (Hget : get fd i = Some (nth (Z.to_nat i) fd 0)).
    { unfold get. destruct (i <? 0)%Z eqn:E; [apply Z.ltb_lt in E; lia|].
      apply nth_error_nth'. lia. }
    set (m := Rpower 10 (nth (Z.to_nat i) fd 0 / 10)).
    assert (Hm : 0 < m) by (unfold m, Rpower; apply exp_pos).
    assert (Hi0 : 0 <= IZR i) by (apply IZR_le; lia).
    destruct (IH (w0 + IZR i * m) (m0 + m) (fun j Hj => H j (or_intror Hj)))
      as (W & M & E & P1 & P2 & P3 & _).
    exists (IZR i * m + W), (m + M).
    cbn [fold_left]. unfold centroidStep at 2, magnitude. rewrite Hget. cbn [addNaN].
    fold m. rewrite E.
    assert (0 <= IZR i * m) by (apply Rmult_le_pos; lra).
    assert (IZR i * m <= top * m) by (apply Rmult_le_compat_r; lra).
    repeat split; try lra; try nra.
    f_equal; f_equal; lra.
Qed.

(** X17: the spectral centroid is a bin index. On an engine with at least
    one bin and a spectrum of [bufferLength] values, [calculateSpectralCentroid]
    is a number between 0 and [bufferLength - 1]: the magnitude-weighted
    mean of the bin indices, not a value normalised to [[0,1]]. *)
Theorem spectralCentroid_range (st : engine) :
  (1 <= bufferLength st)%Z ->
  Z.of_nat (List.length (frequencyData st)) = bufferLength st ->
  exists c, calculateSpectralCentroid st = Some c
            /\ 0 <= c <= IZR (bufferLength st) - 1.
Proof.
  intros Hn Hlen. unfold calculateSpectralCentroid.
  destruct (centroid_sums (frequencyData st) (IZR (bufferLength st) - 1)
              (bins 0 (bufferLength st)) 0 0) as (W & M & E & P1 & P2 & P3 & P4).
  { intros i Hi. apply bins_range in Hi. split; [lia|].
    rewrite <- minus_IZR. apply IZR_le. lia. }
  rewrite E.
  assert (HM : 0 < M).
  { apply P4. rewrite bins_cons by lia. discriminate. }
  assert (Hg : (0 + M >? 0) = true) by (js_cmp; lra).
  rewrite Hg. eexists; split; [reflexivity|].
  apply div_between; lra.
Qed.

Lemma spectralCentroid_range_witness :
  let st := mkEngine true 8 4 [0; 10; 0; 10] [0; 0; 0; 0] None in
  exists c, calculateSpectralCentroid st = Some c /\ 0 <= c <= 3.
Proof.
  intros st.
  destruct (spectralCentroid_range st) as (c & H1 & H2).
  - simpl; lia.
  - reflexivity.
  - exists c. split; [exact H1|]. simpl in H2. lra.
Defined.

Lemma pitch_search (timeData : list R) (ps : list nat) (bp : nat) (bc : R) :
  let r := fold_left (pitchStep timeData) ps (bp, bc) in
  bc <= snd r
  /\ (forall p, In p ps -> correlation timeData p <= snd r)
  /\ ((fst r = bp /\ snd r = bc)
      \/ (In (fst r) ps /\ snd r = correlation timeData (fst r) /\ bc < snd r)).
Proof.
  revert bp bc; induction ps as [|p ps IH]; intros bp bc; cbn zeta.
  - simpl. split; [lra|]. split; [tauto|]. now left.
  - cbn [fold_left].
    assert (Hstep : pitchStep timeData (bp, bc) p
                    = if correlation timeData p >? bc
                      then (p, correlation timeData p) else (bp, bc)) by reflexivity.
    rewrite Hstep. clear Hstep.
    destruct (correlation timeData p >? bc) eqn:E; js_cmp.
    + destruct (IH p (correlation timeData p)) as (H1 & H2 & H3).
      split; [lra|]. split.
      * intros q [<-|Hq]; [exact H1 | now apply H2].
      * right. destruct H3 as [[H3 H4]|(H3 & H4 & H5)].
        -- rewrite H3, H4. split; [now left|]. split; [reflexivity | lra].
        -- split; [now right|]. split; [exact H4 | lra].
    + destruct (IH bp bc) as (H1 & H2 & H3).
      split; [exact H1|]. split.
      * intros q [<-|Hq]; [lra | now apply H2].
      * destruct H3 as [H3|(H3 & H4 & H5)]; [now left|].
        right. split; [now right|]. now split.
Qed.

(** X18: the pitch estimate. [calculatePitch] is 0 when no lag from 10 to
    199 samples has a positive autocorrelation; otherwise it is
    [sampleRate / lag] for a lag between 10 and 199 whose autocorrelation is
    positive and at least that of every other lag in the range. *)
Theorem calculatePitch_spec (st : engine) (timeData : list R) :
  (calculatePitch st timeData = 0
   /\ forall p, (10 <= p <= 199)%nat -> correlation timeData p <= 0)
  \/ (exists lag, (10 <= lag <= 199)%nat
        /\ calculatePitch st timeData = sampleRate st / INR lag
        /\ 0 < correlation timeData lag
        /\ forall p, (10 <= p <= 199)%nat ->
                     correlation timeData p <= correlation timeData lag).
Proof.
  unfold calculatePitch. cbn zeta.
  assert (P := pitch_search timeData (seq 10 (200 - 10)) 0%nat 0). cbn zeta in P.
  set (ps := seq 10 (200 - 10)) in *.
  assert (Hseq : forall p, In p ps <-> (10 <= p <= 199)%nat).
  { intros p. unfold ps. rewrite in_seq. simpl. lia. }
  destruct (fold_left (pitchStep timeData) ps (0%nat, 0)) as [best bc].
  cbn [fst snd] in P. destruct P as (H1 & H2 & H3).
  destruct H3 as [[H3 H4]|(H3 & H4 & H5)].
  - left. subst best bc. split; [reflexivity|]. intros p Hp. apply H2. now apply Hseq.
  - right. exists best. apply Hseq in H3.
    split; [lia|]. split.
    + destruct best; [lia | reflexivity].
    + split; [lra|]. intros p Hp. rewrite <- H4. apply H2. now apply Hseq.
Qed.

End EngineMore.

(** * Further properties of the modulation matrix *)

Section MatrixMore.

Import ModMatrix.

Local Open Scope string_scope.

Variable random : nat -> R.

Lemma writeTarget_frame (l : list Target.t) (i : string) (v : R) :
  map Target.id (writeTarget l i v) = map Target.id l
  /\ map Target.name (writeTarget l i v) = map Target.name l
  /\ map Target.category (writeTarget l i v) = map Target.category l.
Proof.
  induction l as [|x l (I1 & I2 & I3)]; simpl; [auto|].
  destruct (Target.id x =? i); simpl; [auto|]. now rewrite I1, I2, I3.
Qed.

Lemma writeTarget_other (l : list Target.t) (i j : string) (v : R) :
  i <> j ->
  find (fun t => Target.id t =? j) (writeTarget l i v)
  = find (fun t => Target.id t =? j) l.
Proof.
  intros Hij. induction l as [|x l IH]; simpl; auto.
  destruct (Target.id x =? i) eqn:E; simpl.
  - apply String.eqb_eq in E.
    assert (F : (Target.id x =? j) = false) by (apply String.eqb_neq; congruence).
    now rewrite F.
  - destruct (Target.id x =? j); auto.
Qed.

Lemma processConnection_frame (w : world) (c : ModConnection) :
  let r := processConnection random w c in
  sources (self r) = sources (self w)
  /\ transforms (self r) = transforms (self w)
  /\ connections (self r) = connections (self w)
  /\ map Target.id (targets (self r)) = map Target.id (targets (self w))
  /\ map Target.name (targets (self r)) = map Target.name (targets (self w))
  /\ map Target.category (targets (self r)) = map Target.category (targets (self w))
  /\ (randomCalls w <= randomCalls r)%nat
  /\ (forall j, j <> targetId c -> findTarget (self r) j = findTarget (self w) j).
Proof.
  unfold processConnection.
  destruct (findSource (self w) (sourceId c)) as [s|]; [|simpl; repeat split; auto].
  destruct (findTransform (self w) (transformId c)) as [tr|]; [|simpl; repeat split; auto].
  destruct (findTarget (self w) (targetId c)) as [tg|]; [|simpl; repeat split; auto].
  assert (Hcalls : (randomCalls w <= snd (applyTransform random (Source.value s) tr (randomCalls w)))%nat).
  { unfold applyTransform. destruct (Transform.jitter tr >? 0); simpl; lia. }
  destruct (applyTransform random (Source.value s) tr (randomCalls w)) as [v n].
  simpl in *.
  destruct (writeTarget_frame (targets (self w)) (targetId c) (v * amount c))
    as (F1 & F2 & F3).
  repeat split; auto.
  intros j Hj. unfold findTarget; simpl. apply writeTarget_other. congruence.
Qed.

Lemma processList_frame (l : list ModConnection) (w : world) :
  let r := fold_left (processConnection random) l w in
  sources (self r) = sources (self w)
  /\ transforms (self r) = transforms (self w)
  /\ connections (self r) = connections (self w)
  /\ map Target.id (targets (self r)) = map Target.id (targets (self w))
  /\ map Target.name (targets (self r)) = map Target.name (targets (self w))
  /\ map Target.category (targets (self r)) = map Target.category (targets (self w))
  /\ (randomCalls w <= randomCalls r)%nat
  /\ (forall j, (forall c, In c l -> targetId c <> j) ->
                findTarget (self r) j = findTarget (self w) j).
Proof.
  revert w; induction l as [|c l IH]; intros w; cbn zeta.
  - simpl. repeat split; auto.
  - cbn [fold_left].
    destruct (IH (processConnection random w c)) as (I1 & I2 & I3 & I4 & I5 & I6 & I7 & I8).
    destruct (processConnection_frame w c) as (P1 & P2 & P3 & P4 & P5 & P6 & P7 & P8).
    cbn zeta in *.
    rewrite I1, I2, I3, I4, I5, I6. repeat split; auto; [lia|].
    intros j Hj. rewrite I8 by (intros c' Hc'; apply Hj; now right).
    apply P8. intros E. apply (Hj c (or_introl eq_refl)). now symmetry.
Qed.

(** X19: [processConnections] writes target values and nothing else. The
    sources, the transforms and the connection list are unchanged; the
    targets keep their number, order, ids, names and categories; and a
    target that no connection of the list names keeps its value. *)
Theorem processConnections_only_writes_values (w : world) :
  let r := processConnections random w in
  sources (self r) = sources (self w)
  /\ transforms (self r) = transforms (self w)
  /\ connections (self r) = connections (self w)
  /\ map Target.id (targets (self r)) = map Target.id (targets (self w))
  /\ map Target.name (targets (self r)) = map Target.name (targets (self w))
  /\ map Target.category (targets (self r)) = map Target.category (targets (self w))
  /\ (forall j, (forall c, In c (connections (self w)) -> targetId c <> j) ->
                findTarget (self r) j = findTarget (self w) j).
Proof.
  destruct (processList_frame (connections (self w)) w)
    as (H1 & H2 & H3 & H4 & H5 & H6 & _ & H8).
  cbn zeta in *. unfold processConnections. repeat split; auto.
Qed.

Lemma processConnection_writes (w : world) (c : ModConnection)
  (source : Source.t) (transform : Transform.t) :
  findSource (self w) (sourceId c) = Some source ->
  findTransform (self w) (transformId c) = Some transform ->
  findTarget (self w) (targetId c) <> None ->
  exists target',
    findTarget (self (processConnection random w c)) (targetId c) = Some target'
    /\ Target.value target'
       = fst (applyTransform random (Source.value source) transform (randomCalls w))
         * amount c.
Proof.
  intros Hs Ht Hg. unfold processConnection. rewrite Hs, Ht.
  destruct (findTarget (self w) (targetId c)) as [tg|] eqn:E; [|congruence].
  destruct (applyTransform random (Source.value source) transform (randomCalls w))
    as [v n].
  unfold findTarget in *; simpl.
  destruct (findTarget_writeTarget _ _ (v * amount c) _ E) as (x' & Hx & Hv & _).
  exists x'. now split.
Qed.

(** X20: the last connection to a target wins. If a connection resolves
    and no later connection of the list names its target, the value of that
    target after [processConnections] is the transformed value of the
    connection's source times its amount, whatever earlier connections
    wrote there. *)
Theorem last_connection_wins (w : world) (pre post : list ModConnection)
  (c : ModConnection) (source : Source.t) (transform : Transform.t) :
  connections (self w) = (pre ++ c :: post)%list ->
  findSource (self w) (sourceId c) = Some source ->
  findTransform (self w) (transformId c) = Some transform ->
  findTarget (self w) (targetId c) <> None ->
  (forall c', In c' post -> targetId c' <> targetId c) ->
  exists target',
    findTarget (self (processConnections random w)) (targetId c) = Some target'
    /\ Target.value target'
       = fst (applyTransform random (Source.value source) transform
                (randomCalls (fold_left (processConnection random) pre w)))
         * amount c.
Proof.
  intros Hc Hs Ht Hg Hpost. unfold processConnections.
  rewrite Hc, fold_left_app. cbn [fold_left].
  set (w1 := fold_left (processConnection random) pre w).
  destruct (processList_frame pre w) as (F1 & F2 & _ & F4 & _). fold w1 in F1, F2, F4.
  assert (Hs1 : findSource (self w1) (sourceId c) = Some source)
    by (unfold findSource in *; now rewrite F1).
  assert (Ht1 : findTransform (self w1) (transformId c) = Some transform)
    by (unfold findTransform in *; now rewrite F2).
  assert (Hg1 : findTarget (self w1) (targetId c) <> None).
  { assert (R1 := processList_resolves random pre w c).
    fold w1 in R1. unfold Spec.resolves in R1. rewrite Hs, Ht, Hs1, Ht1 in R1.
    destruct (findTarget (self w) (targetId c)); [|congruence].
    destruct (findTarget (self w1) (targetId c)); [discriminate | discriminate]. }
  destruct (processConnection_writes w1 c source transform Hs1 Ht1 Hg1)
    as (x & Hx & Hv).
  exists x. split; [|exact Hv].
  destruct (processList_frame post (processConnection random w1 c))
    as (_ & _ & _ & _ & _ & _ & _ & F8).
  cbn zeta in F8. rewrite F8; auto.
Qed.

Lemma processList_last_write (w : world) (pre post : list ModConnection)
  (c : ModConnection) (source : Source.t) (transform : Transform.t) :
  findSource (self w) (sourceId c) = Some source ->
  findTransform (self w) (transformId c) = Some transform ->
  findTarget (self w) (targetId c) <> None ->
  (forall c', In c' post -> targetId c' <> targetId c) ->
  exists target',
    findTarget (self (fold_left (processConnection random) (pre ++ c :: post)%list w))
               (targetId c) = Some target'
    /\ Target.value target'
       = fst (applyTransform random (Source.value source) transform
                (randomCalls (fold_left (processConnection random) pre w)))
         * amount c.
Proof.
  intros Hs Ht Hg Hpost.
  rewrite fold_left_app. cbn [fold_left].
  set (w1 := fold_left (processConnection random) pre w).
  destruct (processList_frame pre w) as (F1 & F2 & _). fold w1 in F1, F2.
  assert (Hs1 : findSource (self w1) (sourceId c) = Some source)
    by (unfold findSource in *; now rewrite F1).
  assert (Ht1 : findTransform (self w1) (transformId c) = Some transform)
    by (unfold findTransform in *; now rewrite F2).
  assert (Hg1 : findTarget (self w1) (targetId c) <> None).
  { assert (R1 := processList_resolves random pre w c).
    fold w1 in R1. unfold Spec.resolves in R1. rewrite Hs, Ht, Hs1, Ht1 in R1.
    destruct (findTarget (self w) (targetId c)); [|congruence].
    destruct (findTarget (self w1) (targetId c)); discriminate. }
  destruct (processConnection_writes w1 c source transform Hs1 Ht1 Hg1)
    as (x & Hx & Hv).
  exists x. split; [|exact Hv].
  destruct (processList_frame post (processConnection random w1 c))
    as (_ & _ & _ & _ & _ & _ & _ & F8).
  cbn zeta in F8. rewrite F8; auto.
Qed.

Lemma processList_console_grows (l : list ModConnection) (w : world) :
  exists added,
    console (fold_left (processConnection random) l w) = (console w ++ added)%list.
Proof.
  revert w; induction l as [|c l IH]; intros w; simpl.
  - exists []. now rewrite app_nil_r.
  - destruct (IH (processConnection random w c)) as (added & E). rewrite E.
    unfold processConnection.
    destruct (findSource (self w) (sourceId c));
      [|exists (warning c :: added); simpl; now rewrite <- app_assoc].
    destruct (findTransform (self w) (transformId c));
      [|exists (warning c :: added); simpl; now rewrite <- app_assoc].
    destruct (findTarget (self w) (targetId c));
      [|exists (warning c :: added); simpl; now rewrite <- app_assoc].
    destruct (applyTransform _ _ _ _). exists added. reflexivity.
Qed.

(** C8: a connection whose source, transform or target id resolves to
    nothing is skipped: processing it changes no source, transform, target
    or connection and draws no random number, it only writes one warning,
    which is in the console after the run. The connections after it are
    still processed: one that resolves and is the last to name its target
    leaves there the transformed value of its source times its amount,
    computed as if the dangling connection had not been in the list; and
    the final sources, transforms and targets are those of the run without
    the dangling connection. [updateTransform], [updateConnectionAmount]
    and [updateManualSource] with ids that match nothing return the matrix
    unchanged. All of these are total functions: nothing is thrown. *)
Theorem dangling_references_are_skipped :
  (forall w c,
      Spec.resolves (self w) c = false ->
      self (processConnection random w c) = self w
      /\ randomCalls (processConnection random w c) = randomCalls w
      /\ console (processConnection random w c) = (console w ++ [warning c])%list)
  /\ (forall w pre c post,
        connections (self w) = (pre ++ c :: post)%list ->
        Spec.resolves (self w) c = false ->
        let r := processConnections random w in
        let r' := processConnections random (Spec.withConnections w (pre ++ post)%list) in
        targets (self r) = targets (self r')
        /\ sources (self r) = sources (self r')
        /\ transforms (self r) = transforms (self r')
        /\ randomCalls r = randomCalls r'
        /\ In (warning c) (console r))
  /\ (forall w pre c mid next rest source transform,
        connections (self w) = (pre ++ c :: mid ++ next :: rest)%list ->
        Spec.resolves (self w) c = false ->
        findSource (self w) (sourceId next) = Some source ->
        findTransform (self w) (transformId next) = Some transform ->
        findTarget (self w) (targetId next) <> None ->
        (forall c', In c' rest -> targetId c' <> targetId next) ->
        exists target',
          findTarget (self (processConnections random w)) (targetId next) = Some target'
          /\ Target.value target'
             = fst (applyTransform random (Source.value source) transform
                      (randomCalls (fold_left (processConnection random)
                                              (pre ++ mid)%list w)))
               * amount next)
  /\ (forall m transformId' updates,
        (forall x, In x (transforms m) -> Transform.id x <> transformId') ->
        updateTransform m transformId' updates = m)
  /\ (forall m sourceId' targetId' amount',
        (forall x, In x (connections m) ->
                   ~ (sourceId x = sourceId' /\ targetId x = targetId')) ->
        updateConnectionAmount m sourceId' targetId' amount' = m)
  /\ (forall m sourceId' value,
        (forall x, In x (sources m) ->
                   ~ (Source.id x = sourceId' /\ Source.type x = manual)) ->
        updateManualSource m sourceId' value = m).
Proof.
  split; [|split; [|split; [|split; [|split]]]].
  - intros w c H. now rewrite (processConnection_dangling random w c H).
  - intros w pre c post Hc H r r'.
    assert (Hwarn : In (warning c) (console r)).
    { unfold r, processConnections. rewrite Hc, fold_left_app. cbn [fold_left].
      set (w1 := fold_left (processConnection random) pre w).
      assert (H1 : Spec.resolves (self w1) c = false)
        by (unfold w1; now rewrite processList_resolves).
      rewrite (processConnection_dangling random w1 c H1).
      destruct (processList_console_grows post
                  (mkWorld (self w1) (randomCalls w1) (console w1 ++ [warning c])%list))
        as (added & E).
      rewrite E. simpl. apply in_app_iff. left. apply in_app_iff. right. now left. }
    unfold r, r', processConnections in *.
    rewrite Hc in *. simpl connections.
    destruct (processList_skip random w pre post c H) as [E1 E2].
    rewrite E1, E2.
    rewrite <- (withConnections_self w) at 1 3 5 7.
    destruct (processList_connections random (pre ++ post)%list (connections (self w))
                (pre ++ post)%list w) as (S1 & S2 & S3 & S4 & _).
    simpl in S1, S2, S3, S4. rewrite S1, S2, S3, S4. repeat split. exact Hwarn.
  - intros w pre c mid next rest source transform Hc H Hs Ht Hg Hrest.
    unfold processConnections. rewrite Hc.
    replace (pre ++ c :: mid ++ next :: rest)%list
      with ((pre ++ c :: mid) ++ next :: rest)%list
      by (rewrite <- app_assoc; reflexivity).
    destruct (processList_last_write w (pre ++ c :: mid)%list rest next source transform
                Hs Ht Hg Hrest) as (x & Hx & Hv).
    exists x. split; [exact Hx|]. rewrite Hv.
    now rewrite (proj2 (processList_skip random w pre mid c H)).
  - intros m i u H. unfold updateTransform, findTransform.
    rewrite find_none_all; auto.
    intros x Hx. apply String.eqb_neq. now apply H.
  - intros m i j a H. unfold updateConnectionAmount.
    rewrite find_none_all; auto.
    intros x Hx. apply andb_false_iff.
    destruct (sourceId x =? i) eqn:E1; [|now left].
    destruct (targetId x =? j) eqn:E2; [|now right].
    apply String.eqb_eq in E1, E2. exfalso. now apply (H x Hx).
  - intros m i v H. unfold updateManualSource.
    rewrite find_none_all; auto.
    intros x Hx. unfold isManual. apply andb_false_iff.
    destruct (Source.id x =? i) eqn:E1; [|now left].
    right. apply String.eqb_eq in E1.
    destruct (Source.type x) eqn:E2; auto. exfalso. now apply (H x Hx).
Qed.

End MatrixMore.

(** * Editing the matrix *)

Section MatrixEdits.

Import ModMatrix.

Local Open Scope string_scope.

Lemma samePair_iff (s t : string) (c : ModConnection) :
  Spec.samePair s t c = true <-> sourceId c = s /\ targetId c = t.
Proof.
  unfold Spec.samePair. rewrite andb_true_iff, !String.eqb_eq. reflexivity.
Qed.

Lemma matrix_eta (m : matrix) :
  m = mkMatrix (sources m) (transforms m) (targets m) (connections m).
Proof. now destruct m. Qed.

(** X21: [removeConnection s t] removes every connection from source [s]
    to target [t] and keeps all others in order; afterwards
    [updateConnectionAmount s t] finds nothing to change, removing again
    changes nothing, and a connection added to a matrix that had none from
    [s] to [t] is removed again, giving the matrix back. *)
Theorem removeConnection_spec (m : matrix) (s t : string) :
  connections (removeConnection m s t)
  = filter (fun c => negb (Spec.samePair s t c)) (connections m)
  /\ (forall c, In c (connections (removeConnection m s t))
                <-> In c (connections m) /\ ~ (sourceId c = s /\ targetId c = t))
  /\ (forall a, updateConnectionAmount (removeConnection m s t) s t a
                = removeConnection m s t)
  /\ removeConnection (removeConnection m s t) s t = removeConnection m s t
  /\ (forall c, sourceId c = s -> targetId c = t ->
                removeConnection (addConnection m c) s t = removeConnection m s t)
  /\ (forall c, sourceId c = s -> targetId c = t ->
                (forall x, In x (connections m) -> ~ (sourceId x = s /\ targetId x = t)) ->
                removeConnection (addConnection m c) s t = m).
Proof.
  assert (H0 : forall m', connections (removeConnection m' s t)
                          = filter (fun c => negb (Spec.samePair s t c)) (connections m'))
    by reflexivity.
  assert (Hin : forall c, In c (connections (removeConnection m s t))
                          <-> In c (connections m) /\ ~ (sourceId c = s /\ targetId c = t)).
  { intros c. rewrite H0, filter_In, negb_true_iff, <- not_true_iff_false, samePair_iff.
    reflexivity. }
  assert (Hadd : forall c, sourceId c = s -> targetId c = t ->
                  removeConnection (addConnection m c) s t = removeConnection m s t).
  { intros c Hs Ht. unfold removeConnection, addConnection; simpl. f_equal.
    rewrite filter_app; simpl. rewrite Hs, Ht, !String.eqb_refl; simpl.
    apply app_nil_r. }
  split; [apply H0|]. split; [exact Hin|]. split; [|split; [|split; [exact Hadd|]]].
  - intros a. unfold updateConnectionAmount.
    rewrite find_none_all; auto.
    intros x Hx. apply Hin in Hx. destruct Hx as [_ Hx].
    apply not_true_iff_false. fold (Spec.samePair s t x). now rewrite samePair_iff.
  - unfold removeConnection; simpl. f_equal. apply filter_idem.
  - intros c Hs Ht Hnone. rewrite (Hadd c Hs Ht).
    rewrite (matrix_eta m) at 2. unfold removeConnection. f_equal.
    apply filter_all. apply forallb_forall. intros x Hx.
    apply negb_true_iff, not_true_iff_false. fold (Spec.samePair s t x).
    rewrite samePair_iff. now apply Hnone.
Qed.

Lemma removeConnection_spec_witness :
  let c := mkConnection "low" "env1" "scale" (8 / 10) in
  removeConnection (addConnection constructor c) "low" "scale" = constructor.
Proof.
  intros c.
  destruct (removeConnection_spec constructor "low" "scale") as (_ & _ & _ & _ & _ & H).
  apply (H c); try reflexivity. intros x [].
Defined.

(** X22: [updateConnectionAmount s t a] rewrites the amount of the first
    connection from [s] to [t] and of no other: later connections of the
    same pair keep their amounts, and every connection keeps its source,
    transform and target. *)
Theorem updateConnectionAmount_first (m : matrix) (s t : string) (a : R)
  (pre post : list ModConnection) (c : ModConnection) :
  connections m = (pre ++ c :: post)%list ->
  (forall x, In x pre -> ~ (sourceId x = s /\ targetId x = t)) ->
  sourceId c = s -> targetId c = t ->
  connections (updateConnectionAmount m s t a)
  = (pre ++ mkConnection (sourceId c) (transformId c) (targetId c) a :: post)%list
  /\ sources (updateConnectionAmount m s t a) = sources m
  /\ transforms (updateConnectionAmount m s t a) = transforms m
  /\ targets (updateConnectionAmount m s t a) = targets m.
Proof.
  intros Hc Hpre Hs Ht.
  assert (Hw : writeAmount (pre ++ c :: post) s t a
               = (pre ++ mkConnection (sourceId c) (transformId c) (targetId c) a :: post)%list
               /\ find (Spec.samePair s t) (pre ++ c :: post) = Some c).
  { clear Hc. induction pre as [|x pre IH]; simpl.
    - fold (Spec.samePair s t c). rewrite (proj2 (samePair_iff s t c) (conj Hs Ht)). auto.
    - fold (Spec.samePair s t x).
      assert (F : Spec.samePair s t x = false).
      { apply not_true_iff_false. rewrite samePair_iff. apply Hpre. now left. }
      rewrite F. destruct IH as [I1 I2]; [intros y Hy; apply Hpre; now right|].
      now rewrite I1, I2. }
  destruct Hw as [W1 W2]. unfold updateConnectionAmount.
  fold (Spec.samePair s t). rewrite Hc, W2. simpl. rewrite W1. auto.
Qed.

Lemma updateConnectionAmount_first_witness :
  let c1 := mkConnection "low" "env1" "scale" (8 / 10) in
  let c2 := mkConnection "low" "env2" "scale" (1 / 2) in
  let m := mkMatrix initializeDefaultSources initializeDefaultTransforms
                    initializeDefaultTargets [c1; c2] in
  connections (updateConnectionAmount m "low" "scale" 1)
  = [mkConnection "low" "env1" "scale" 1; c2].
Proof.
  intros c1 c2 m.
  assert (Hpre : forall x, In x [] -> ~ (sourceId x = "low" /\ targetId x = "scale"))
    by (intros x []).
  exact (proj1 (updateConnectionAmount_first m "low" "scale" 1 [] [c2] c1
                  eq_refl Hpre eq_refl eq_refl)).
Defined.

(** X23: [updateManualSource id v] writes [v] into the first manual source
    with that id and into nothing else; a source that is not manual is
    never changed, even when it carries the id. *)
Theorem updateManualSource_first (m : matrix) (i : string) (v : R) :
  (forall pre s post,
      sources m = (pre ++ s :: post)%list ->
      (forall x, In x pre -> ~ (Source.id x = i /\ Source.type x = manual)) ->
      Source.id s = i -> Source.type s = manual ->
      sources (updateManualSource m i v)
      = (pre ++ Source.mk (Source.id s) (Source.name s) v manual :: post)%list)
  /\ (forall k s, nth_error (sources m) k = Some s -> Source.type s <> manual ->
                  nth_error (sources (updateManualSource m i v)) k = Some s)
  /\ map Source.id (sources (updateManualSource m i v)) = map Source.id (sources m)
  /\ map Source.type (sources (updateManualSource m i v)) = map Source.type (sources m)
  /\ transforms (updateManualSource m i v) = transforms m
  /\ targets (updateManualSource m i v) = targets m
  /\ connections (updateManualSource m i v) = connections m.
Proof.
  assert (Hman : forall s, isManual i s = true <-> Source.id s = i /\ Source.type s = manual).
  { intros s. unfold isManual. rewrite andb_true_iff, String.eqb_eq.
    destruct (Source.type s); simpl; split; intros [H1 H2]; split; auto; discriminate. }
  assert (Hsrc : sources (updateManualSource m i v) = writeManual (sources m) i v).
  { unfold updateManualSource. destruct (find (isManual i) (sources m)) eqn:E; auto.
    induction (sources m) as [|x l IH]; simpl in *; auto.
    destruct (isManual i x); [discriminate|]. f_equal. now apply IH. }
  assert (Hrest : transforms (updateManualSource m i v) = transforms m
                  /\ targets (updateManualSource m i v) = targets m
                  /\ connections (updateManualSource m i v) = connections m).
  { unfold updateManualSource. destruct (find (isManual i) (sources m)); auto. }
  split; [|split; [|split; [|split; [|exact Hrest]]]]; rewrite Hsrc.
  - intros pre s post Hs Hpre Hid Hty. rewrite Hs. clear Hs.
    induction pre as [|x pre IH]; simpl.
    + rewrite (proj2 (Hman s) (conj Hid Hty)). now rewrite Hty.
    + assert (F : isManual i x = false).
      { apply not_true_iff_false. rewrite Hman. apply Hpre. now left. }
      rewrite F. f_equal. apply IH. intros y Hy. apply Hpre. now right.
  - clear Hsrc Hrest.
    induction (sources m) as [|x l IH]; intros k s Hk Hty; [destruct k; discriminate|].
    simpl. destruct (isManual i x) eqn:E.
    + apply Hman in E. destruct k; simpl in *; auto.
      inversion Hk; subst. tauto.
    + destruct k; simpl in *; auto.
  - clear Hsrc Hrest. induction (sources m) as [|x l IH]; simpl; auto.
    destruct (isManual i x); simpl; auto. now rewrite IH.
  - clear Hsrc Hrest. induction (sources m) as [|x l IH]; simpl; auto.
    destruct (isManual i x); simpl; auto. now rewrite IH.
Qed.

Lemma updateManualSource_first_witness :
  findSource (updateManualSource constructor "manual1" (3 / 4)) "manual1"
  = Some (Source.mk "manual1" "Manual 1" (3 / 4) manual)
  /\ updateManualSource constructor "low" (3 / 4) = constructor.
Proof.
  destruct (updateManualSource_first constructor "manual1" (3 / 4)) as (H & _).
  split.
  - unfold findSource.
    rewrite (H (firstn 9 initializeDefaultSources)
               (Source.mk "manual1" "Manual 1" 0 manual)
               (skipn 10 initializeDefaultSources)); try reflexivity.
    intros x Hx. simpl in Hx.
    repeat (destruct Hx as [<-|Hx]; [simpl; intros [_ F]; discriminate|]).
    destruct Hx.
  - reflexivity.
Defined.

(** X24: [updateTransform id updates] assigns the given properties to the
    first transform with that id and to no other; the properties that
    [updates] does not have are kept. When [updates] carries no id, the
    transform is found again under the same id with the new properties. *)
Theorem updateTransform_first (m : matrix) (i : string) (u : TransformUpdates)
  (pre post : list Transform.t) (t0 : Transform.t) :
  transforms m = (pre ++ t0 :: post)%list ->
  (forall x, In x pre -> Transform.id x <> i) ->
  Transform.id t0 = i ->
  transforms (updateTransform m i u) = (pre ++ assign t0 u :: post)%list
  /\ (u_id u = None -> findTransform (updateTransform m i u) i = Some (assign t0 u))
  /\ (u_curve u = None -> Transform.curve (assign t0 u) = Transform.curve t0)
  /\ (forall c, u_curve u = Some c -> Transform.curve (assign t0 u) = c)
  /\ sources (updateTransform m i u) = sources m
  /\ targets (updateTransform m i u) = targets m
  /\ connections (updateTransform m i u) = connections m.
Proof.
  intros Ht Hpre Hid.
  assert (Hw : assignFirst (pre ++ t0 :: post) i u = (pre ++ assign t0 u :: post)%list
               /\ find (fun t => Transform.id t =? i) (pre ++ t0 :: post) = Some t0
               /\ (u_id u = None ->
                   find (fun t => Transform.id t =? i) (pre ++ assign t0 u :: post)
                   = Some (assign t0 u))).
  { clear Ht. induction pre as [|x pre IH]; simpl.
    - rewrite Hid, String.eqb_refl. repeat split; auto.
      intros Hu. rewrite Hu; simpl. now rewrite String.eqb_refl.
    - assert (F : (Transform.id x =? i) = false)
        by (apply String.eqb_neq; apply Hpre; now left).
      rewrite F. destruct IH as (I1 & I2 & I3); [intros y Hy; apply Hpre; now right|].
      rewrite I1, I2. repeat split; auto. }
  destruct Hw as (W1 & W2 & W3).
  unfold updateTransform, findTransform. rewrite Ht, W2. simpl. rewrite W1.
  repeat split; auto.
  - intros Hu. unfold assign. now rewrite Hu.
  - intros c Hu. unfold assign. now rewrite Hu.
Qed.

Lemma updateTransform_first_witness :
  let u := mkUpdates None None None None None (Some linear) None None None None None in
  exists t', findTransform (updateTransform constructor "env1" u) "env1" = Some t'
             /\ Transform.curve t' = linear /\ Transform.decay t' = 3 / 10.
Proof.
  intros u.
  destruct (updateTransform_first constructor "env1" u []
              (tl initializeDefaultTransforms)
              (hd (Transform.mk "" "" 0 0 0 linear (mkRange 0 0) unipolar false false 0)
                  initializeDefaultTransforms))
    as (_ & H & _); try reflexivity.
  - intros x [].
  - eexists. split; [apply H; reflexivity|]. split; reflexivity.
Defined.

End MatrixEdits.

(** * Oscillators, transforms and presets *)

Section MatrixSignals.

Import ModMatrix.

Local Open Scope string_scope.

Lemma lfo_value_range (x : R) : 0 <= sin x * (1 / 2) + 1 / 2 <= 1.
Proof. destruct (SIN_bound x). lra. Qed.

Lemma lfo_value_period (time frequency : R) :
  frequency = 1 / 2 \/ frequency = 1 ->
  sin ((time + 2) * frequency * PI * 2) = sin (time * frequency * PI * 2).
Proof.
  intros [-> | ->].
  - replace ((time + 2) * (1 / 2) * PI * 2) with (time * (1 / 2) * PI * 2 + 2 * INR 1 * PI)
      by (simpl; field).
    apply sin_period.
  - replace ((time + 2) * 1 * PI * 2) with (time * 1 * PI * 2 + 2 * INR 2 * PI)
      by (simpl; field).
    apply sin_period.
Qed.

(** X25: [updateLFOs] gives every LFO source a value in [[0,1]] and leaves
    every other source, and the rest of the matrix, as it was. The values
    depend on the time only: a later call overwrites an earlier one, and
    the whole bank repeats every 2 seconds (LFO 1 runs at 0.5 Hz, every
    other LFO at 1 Hz). *)
Theorem updateLFOs_spec (m : matrix) (time : R) :
  (forall s, In s (sources (updateLFOs m time)) -> Source.type s = lfo ->
             0 <= Source.value s <= 1)
  /\ (forall k s, nth_error (sources m) k = Some s -> Source.type s <> lfo ->
                  nth_error (sources (updateLFOs m time)) k = Some s)
  /\ map Source.id (sources (updateLFOs m time)) = map Source.id (sources m)
  /\ map Source.type (sources (updateLFOs m time)) = map Source.type (sources m)
  /\ updateLFOs m (time + 2) = updateLFOs m time
  /\ (forall earlier, updateLFOs (updateLFOs m earlier) time = updateLFOs m time)
  /\ transforms (updateLFOs m time) = transforms m
  /\ targets (updateLFOs m time) = targets m
  /\ connections (updateLFOs m time) = connections m.
Proof.
  split; [|split; [|split; [|split; [|split; [|split]]]]]; try (repeat split; reflexivity).
  - intros s Hs Hty. unfold updateLFOs in Hs; simpl in Hs.
    apply in_map_iff in Hs. destruct Hs as (x & Hx & _).
    destruct (SourceType_eqb (Source.type x) lfo) eqn:E.
    + subst s; simpl. apply lfo_value_range.
    + subst s. rewrite Hty in E. discriminate.
  - intros k s Hk Hty. unfold updateLFOs; simpl.
    rewrite nth_error_map, Hk; simpl.
    destruct (Source.type s); simpl; congruence.
  - unfold updateLFOs; simpl. rewrite map_map. apply map_ext. intros x.
    destruct (SourceType_eqb (Source.type x) lfo); reflexivity.
  - unfold updateLFOs; simpl. rewrite map_map. apply map_ext. intros x.
    destruct (SourceType_eqb (Source.type x) lfo); reflexivity.
  - unfold updateLFOs. f_equal. apply map_ext. intros x.
    destruct (SourceType_eqb (Source.type x) lfo); auto.
    f_equal. f_equal. f_equal. apply lfo_value_period.
    destruct (Source.id x =? "lfo1"); auto.
  - intros earlier. unfold updateLFOs; simpl. f_equal.
    rewrite map_map. apply map_ext. intros x.
    destruct (SourceType_eqb (Source.type x) lfo) eqn:E; simpl; now rewrite E.
Qed.

Lemma round_range (x : R) (n : Z) : 0 <= x <= IZR n -> 0 <= Num.round x <= IZR n.
Proof.
  intros [H1 H2]. unfold Num.round.
  destruct (Zfloor_bound (x + 1 / 2)) as [F1 F2].
  split.
  - apply IZR_le. apply Zfloor_lub. simpl. lra.
  - apply IZR_le. apply Z.lt_succ_r. apply lt_IZR. rewrite succ_IZR. lra.
Qed.

Lemma applyCurve_unit (c : Curve) (v : R) : 0 <= v <= 1 -> 0 <= applyCurve c v <= 1.
Proof.
  intros [H0 H1]. destruct c; simpl.
  - lra.
  - nra.
  - split; [apply sqrt_pos|]. rewrite <- sqrt_1. apply sqrt_le_1_alt. exact H1.
  - destruct (round_range (v * 8) 8) as [R0 R1]; [lra|]. lra.
Qed.

(** X26: a source value in [[0,1]] is mapped into the range of the
    transform, up to its jitter. With [range.min <= range.max], a
    non-negative jitter, a decay in [[0,1]] and [Math.random()] in [[0,1)],
    the result of [applyTransform] lies in
    [[range.min - jitter, range.max + jitter]]; with zero jitter it lies in
    the range and no random number is drawn. *)
Theorem applyTransform_range (random : nat -> R) (value : R)
  (transform : Transform.t) (calls : nat) :
  0 <= value <= 1 ->
  min (Transform.range transform) <= max (Transform.range transform) ->
  0 <= Transform.jitter transform ->
  0 <= Transform.decay transform <= 1 ->
  0 <= random calls < 1 ->
  let r := applyTransform random value transform calls in
  min (Transform.range transform) - Transform.jitter transform <= fst r
  /\ fst r <= max (Transform.range transform) + Transform.jitter transform
  /\ (Transform.jitter transform = 0 ->
      min (Transform.range transform) <= fst r <= max (Transform.range transform)
      /\ snd r = calls)
  /\ (0 < Transform.jitter transform -> snd r = S calls).
Proof.
  intros Hv Hr Hj Hd Hrand.
  set (e := if Transform.trigger transform && Transform.gate transform
            then applyEnvelope value transform else value).
  assert (He : 0 <= e <= 1).
  { unfold e. destruct (Transform.trigger transform && Transform.gate transform); auto.
    unfold applyEnvelope. destruct (value >? 1 / 10); [lra|]. nra. }
  assert (Hc := applyCurve_unit (Transform.curve transform) e He).
  set (u := applyCurve (Transform.curve transform) e) in *.
  set (lo := min (Transform.range transform)) in *.
  set (hi := max (Transform.range transform)) in *.
  assert (Hm : lo <= u * (hi - lo) + lo <= hi) by nra.
  unfold applyTransform. fold e. fold u. fold lo hi. cbn zeta.
  destruct (Transform.jitter transform >? 0) eqn:E; js_cmp; simpl.
  - repeat split; try lra; try nra.
  - assert (Transform.jitter transform = 0) by lra.
    repeat split; try lra.
Qed.

Lemma applyTransform_range_witness :
  let random := fun _ : nat => 1 / 4 in
  let env2 := Transform.mk "env2" "Envelope 2" (5 / 100) (5 / 10) (2 / 10) linear
                           (mkRange (- 1) 1) bipolar true true (1 / 10) in
  - 1 - 1 / 10 <= fst (applyTransform random (1 / 2) env2 0)
  /\ fst (applyTransform random (1 / 2) env2 0) <= 1 + 1 / 10.
Proof.
  intros random env2.
  assert (Hrand : 0 <= random 0%nat < 1) by (unfold random; lra).
  assert (Hv : 0 <= 1 / 2 <= 1) by lra.
  assert (Hr : min (Transform.range env2) <= max (Transform.range env2)) by (simpl; lra).
  assert (Hj : 0 <= Transform.jitter env2) by (simpl; lra).
  assert (Hd : 0 <= Transform.decay env2 <= 1) by (simpl; lra).
  destruct (applyTransform_range random (1 / 2) env2 0 Hv Hr Hj Hd Hrand)
    as (H1 & H2 & _).
  split; [exact H1 | exact H2].
Defined.

End MatrixSignals.

(** * The built-in presets *)

Section Presets.

Import ModMatrix.

Local Open Scope string_scope.

Lemma fold_addConnection (l : list ModConnection) (m : matrix) :
  fold_left addConnection l m
  = mkMatrix (sources m) (transforms m) (targets m) (connections m ++ l)%list.
Proof.
  revert m; induction l as [|c l IH]; intros m; simpl.
  - rewrite app_nil_r. now destruct m.
  - rewrite IH. unfold addConnection; simpl. now rewrite <- app_assoc.
Qed.

(** X27: applying a preset replaces the connection list of the matrix by
    the preset's connections, in their order, and touches nothing else; so
    the connections of an earlier preset never survive. [getPresetById]
    finds each built-in preset under its own id and nothing under any
    other id. *)
Theorem applyPreset_replaces_connections (m : matrix) (p : LivePresets.preset) :
  connections (LivePresets.applyPresetToModMatrix m p) = LivePresets.connections p
  /\ sources (LivePresets.applyPresetToModMatrix m p) = sources m
  /\ transforms (LivePresets.applyPresetToModMatrix m p) = transforms m
  /\ targets (LivePresets.applyPresetToModMatrix m p) = targets m
  /\ (forall earlier,
        LivePresets.applyPresetToModMatrix
          (LivePresets.applyPresetToModMatrix m earlier) p
        = LivePresets.applyPresetToModMatrix m p)
  /\ (forall q, In q LivePresets.getAllPresets ->
                LivePresets.getPresetById (LivePresets.id q) = Some q)
  /\ (forall i, i <> "beam" -> i <> "wave" -> i <> "particles" ->
                LivePresets.getPresetById i = None).
Proof.
  unfold LivePresets.applyPresetToModMatrix.
  split; [|split; [|split; [|split; [|split; [|split]]]]];
    try (rewrite fold_addConnection; reflexivity).
  - intros earlier. rewrite !fold_addConnection. reflexivity.
  - intros q [<-|[<-|[<-|[]]]]; reflexivity.
  - intros i H1 H2 H3.
    destruct (LivePresets.getPresetById i) as [q|] eqn:E; [|reflexivity].
    unfold LivePresets.getPresetById in E. apply find_some in E.
    destruct E as [E1 E2]. apply String.eqb_eq in E2.
    destruct E1 as [<-|[<-|[<-|[]]]]; simpl in E2; congruence.
Qed.

Lemma find_by_id {A} (key : A -> string) (l : list A) (i : string) :
  In i (map key l) -> find (fun x => key x =? i) l <> None.
Proof.
  induction l as [|x l IH]; simpl; [tauto|].
  intros [H|H].
  - rewrite H, String.eqb_refl. discriminate.
  - destruct (key x =? i); [discriminate | now apply IH].
Qed.

Lemma find_ids_only {A B} (keyA : A -> string) (keyB : B -> string)
  (la : list A) (lb : list B) (i : string) :
  map keyA la = map keyB lb ->
  find (fun x => keyB x =? i) lb <> None ->
  find (fun x => keyA x =? i) la <> None.
Proof.
  intros Hmap H. apply find_by_id. rewrite Hmap.
  destruct (find (fun x => keyB x =? i) lb) as [x|] eqn:E; [|congruence].
  apply find_some in E. destruct E as [E1 E2]. apply String.eqb_eq in E2.
  subst i. now apply in_map.
Qed.

Lemma processList_no_warning (random : nat -> R) (l : list ModConnection) (w : world) :
  (forall c, In c l -> Spec.resolves (self w) c = true) ->
  console (fold_left (processConnection random) l w) = console w.
Proof.
  revert w; induction l as [|c l IH]; intros w H; simpl; auto.
  rewrite IH.
  - assert (Hc := H c (or_introl eq_refl)).
    unfold Spec.resolves in Hc. unfold processConnection.
    destruct (findSource (self w) (sourceId c)); [|discriminate].
    destruct (findTransform (self w) (transformId c)); [|discriminate].
    destruct (findTarget (self w) (targetId c)); [|discriminate].
    destruct (applyTransform _ _ _ _); reflexivity.
  - intros c' Hc'. rewrite processConnection_resolves. apply H. now right.
Qed.

(** X28: the built-in presets never dangle. On any matrix whose sources,
    transforms and targets carry the ids of the default catalogue, every
    connection of every built-in preset resolves, so [processConnections]
    writes no warning, tick after tick. *)
Theorem presets_never_dangle (random : nat -> R) (w : world) (p : LivePresets.preset) :
  In p LivePresets.getAllPresets ->
  map Source.id (sources (self w)) = map Source.id initializeDefaultSources ->
  map Transform.id (transforms (self w)) = map Transform.id initializeDefaultTransforms ->
  map Target.id (targets (self w)) = map Target.id initializeDefaultTargets ->
  connections (self w) = LivePresets.connections p ->
  (forall c, In c (LivePresets.connections p) -> Spec.resolves (self w) c = true)
  /\ console (processConnections random w) = console w
  /\ console (processConnections random (processConnections random w)) = console w.
Proof.
  intros Hp Hs Ht Hg Hc.
  assert (Hres : forall c, In c (LivePresets.connections p) ->
                           Spec.resolves (self w) c = true).
  { intros c Hin.
    assert (Hdef : findSource constructor (sourceId c) <> None
                   /\ findTransform constructor (transformId c) <> None
                   /\ findTarget constructor (targetId c) <> None).
    { destruct Hp as [<-|[<-|[<-|[]]]]; simpl in Hin;
        repeat (destruct Hin as [<-|Hin]; [repeat split; discriminate|]);
        destruct Hin. }
    destruct Hdef as (D1 & D2 & D3).
    unfold Spec.resolves.
    assert (E1 := find_ids_only Source.id Source.id _ _ (sourceId c) Hs D1).
    assert (E2 := find_ids_only Transform.id Transform.id _ _ (transformId c) Ht D2).
    assert (E3 := find_ids_only Target.id Target.id _ _ (targetId c) Hg D3).
    unfold findSource, findTransform, findTarget.
    destruct (find _ (sources (self w))); [|congruence].
    destruct (find _ (transforms (self w))); [|congruence].
    destruct (find _ (targets (self w))); [|congruence].
    reflexivity. }
  assert (H1 : console (processConnections random w) = console w).
  { unfold processConnections. apply processList_no_warning. now rewrite Hc. }
  split; [exact Hres|]. split; [exact H1|].
  transitivity (console (processConnections random w)); [|exact H1].
  unfold processConnections at 1.
  apply processList_no_warning.
  destruct (processList_frame random (connections (self w)) w) as (_ & _ & F3 & _).
  cbn zeta in F3. fold (processConnections random w) in F3. rewrite F3, Hc.
  intros c Hin. unfold processConnections. rewrite processList_resolves.
  now apply Hres.
Qed.

End Presets.

Section PresetScenarios.

Import ModMatrix.

Local Open Scope string_scope.

Lemma dangling_references_are_skipped_witness :
  let random := fun _ : nat => 1 / 2 in
  let good := mkConnection "low" "env1" "scale" (8 / 10) in
  let bad := mkConnection "low" "env9" "scale" (1 / 2) in
  let w := mkWorld (mkMatrix (Source.mk "low" "Low" (1 / 2) audio
                              :: tl initializeDefaultSources)
                             initializeDefaultTransforms
                             initializeDefaultTargets [bad; good]) 0 [] in
  Spec.resolves (self w) bad = false
  /\ self (processConnection random w bad) = self w
  /\ targets (self (processConnections random w))
     = targets (self (processConnections random (Spec.withConnections w [good])))
  /\ In (warning bad) (console (processConnections random w))
  /\ (exists target',
        findTarget (self (processConnections random w)) "scale" = Some target'
        /\ Target.value target' = 2 / 10)
  /\ updateTransform (self w) "env9" (mkUpdates None None None None None None None
                                                None None None (Some 1)) = self w.
Proof.
  intros random good bad w.
  destruct (dangling_references_are_skipped random) as (H1 & H2 & H2' & H3 & _).
  assert (Hbad : Spec.resolves (self w) bad = false) by reflexivity.
  split; [exact Hbad|]. split; [|split; [|split; [|split]]].
  - exact (proj1 (H1 w bad Hbad)).
  - exact (proj1 (H2 w [] bad [good] eq_refl Hbad)).
  - exact (proj2 (proj2 (proj2 (proj2 (H2 w [] bad [good] eq_refl Hbad))))).
  - assert (Hnone : findTarget (self w) (targetId good) <> None)
      by (simpl; discriminate).
    assert (Hrest : forall c', In c' [] -> targetId c' <> targetId good)
      by (intros c' []).
    destruct (H2' w [] bad [] good []
                (Source.mk "low" "Low" (1 / 2) audio)
                (Transform.mk "env1" "Envelope 1" (1 / 10) (3 / 10) (1 / 10) exponential
                              (mkRange 0 1) unipolar false false 0)
                eq_refl Hbad eq_refl eq_refl Hnone Hrest) as (x & Hx & Hv).
    exists x. split; [exact Hx|]. rewrite Hv.
    unfold applyTransform; simpl.
    assert (E : (0 >? 0) = false) by (js_cmp; lra).
    rewrite E. simpl. lra.
  - apply H3. intros x Hx. simpl in Hx.
    destruct Hx as [<-|[<-|[<-|[]]]]; simpl; discriminate.
Defined.

Lemma presets_never_dangle_witness :
  let random := fun _ : nat => 1 / 2 in
  let w := mkWorld (LivePresets.applyPresetToModMatrix constructor
                      LivePresets.getBeamPreset) 0 [] in
  console (processConnections random w) = [].
Proof.
  intros random w.
  exact (proj1 (proj2 (presets_never_dangle random w LivePresets.getBeamPreset
                         (or_introl eq_refl) eq_refl eq_refl eq_refl eq_refl))).
Defined.

Lemma last_connection_wins_witness :
  let random := fun _ : nat => 1 / 2 in
  let c1 := mkConnection "low" "env1" "scale" (8 / 10) in
  let c2 := mkConnection "manual1" "curve1" "scale" (1 / 2) in
  let m := updateManualSource (addConnection (addConnection constructor c1) c2)
                              "manual1" 1 in
  exists target',
    findTarget (self (processConnections random (mkWorld m 0 []))) "scale" = Some target'
    /\ Target.value target' = Num.round (1 * 8) / 8 * (1 - 0) * (1 / 2).
Proof.
  intros random c1 c2 m.
  assert (Hnone : findTarget (self (mkWorld m 0 [])) (targetId c2) <> None)
    by (simpl; discriminate).
  assert (Hpost : forall c', In c' [] -> targetId c' <> targetId c2) by (intros c' []).
  destruct (last_connection_wins random (mkWorld m 0 []) [c1] [] c2
              (Source.mk "manual1" "Manual 1" 1 manual)
              (Transform.mk "curve1" "Curve 1" 0 0 0 quantized (mkRange 0 1)
                            unipolar false false 0)
              eq_refl eq_refl eq_refl Hnone Hpost) as (x & Hx & Hv).
  exists x. split; [exact Hx|]. rewrite Hv.
  unfold applyTransform; simpl.
  assert (E : (0 >? 0) = false) by (js_cmp; lra).
  rewrite E. simpl. lra.
Defined.

End PresetScenarios.

(** * What [cleanup] costs the memory value *)

Section CleanupMemory.

Import EventQueue.

Lemma exp_minus_3 : exp (- 3) <= 52 / 1000.
Proof.
  destruct exp_neg_upper as [H1 H2].
  assert (P1 := exp_pos (- 1)). assert (P2 := exp_pos (- 2)).
  replace (- 3) with (- 1 + - 2) by lra. rewrite exp_plus. nra.
Qed.

Lemma Rmin_add (a b : R) : 0 <= b -> Rmin 1 (a + b) <= Rmin 1 a + b.
Proof.
  intros Hb. unfold Rmin. destruct (Rle_dec 1 (a + b)), (Rle_dec 1 a); lra.
Qed.

Lemma cleanup_sum (h now : R) (l : list AudioEvent) :
  0 < h ->
  (forall e, In e l -> 0 <= energy e) ->
  let term := fun e s => energy e * exp (- (now - t e) / h) + s in
  let kept := filter (fun e => t e >? now - h * 3) l in
  let dropped := filter (fun e => negb (t e >? now - h * 3)) l in
  fold_right term 0 (filter (fun e => t e <=? now) kept)
  <= fold_right term 0 (filter (fun e => t e <=? now) l)
  /\ fold_right term 0 (filter (fun e => t e <=? now) l)
     <= fold_right term 0 (filter (fun e => t e <=? now) kept)
        + 52 / 1000 * Spec.sumEnergy dropped.
Proof.
  intros Hh. induction l as [|e l IH]; intros He; cbn zeta.
  - simpl. lra.
  - assert (Hpos : 0 <= energy e) by (apply He; now left).
    destruct (IH (fun x Hx => He x (or_intror Hx))) as [I1 I2]. cbn zeta in I1, I2.
    cbn [filter]. destruct (t e >? now - h * 3) eqn:E1; js_cmp; cbn [negb].
    + cbn [filter]. destruct (t e <=? now); cbn [fold_right]; lra.
    + assert (E2 : (t e <=? now) = true) by (js_cmp; lra).
      rewrite E2. cbn [fold_right].
      change (Spec.sumEnergy (e :: filter (fun e => negb (t e >? now - h * 3)) l))
        with (energy e + Spec.sumEnergy (filter (fun e => negb (t e >? now - h * 3)) l)).
      assert (Hd : exp (- (now - t e) / h) <= 52 / 1000).
      { eapply Rle_trans; [|apply exp_minus_3].
        assert (Harg : - (now - t e) / h <= - 3).
        { apply (Rmult_le_reg_r h); [lra|].
          unfold Rdiv. rewrite Rmult_assoc, Rinv_l by lra. lra. }
        destruct Harg as [Hlt|Heq]; [left; now apply exp_increasing | rewrite Heq; lra]. }
      assert (Hx := exp_pos (- (now - t e) / h)).
      assert (0 <= energy e * exp (- (now - t e) / h)) by (apply Rmult_le_pos; lra).
      assert (energy e * exp (- (now - t e) / h) <= energy e * (52 / 1000))
        by (apply Rmult_le_compat_l; lra).
      lra.
Qed.

(** X29: [cleanup] is almost invisible to the memory value. With a
    positive half-life and non-negative energies, the memory value at the
    time of a cleanup does not grow, and it drops by at most 5.2% of the
    total energy of the events the cleanup removed: each of them had
    decayed by a factor [exp (-3)] or more. *)
Theorem cleanup_memory_loss (q : queue) (now : R) :
  0 < halfLife q ->
  (forall e, In e (events q) -> 0 <= energy e) ->
  let removed := filter (fun e => negb (t e >? now - halfLife q * 3)) (events q) in
  getMemoryValue (cleanup q now) now <= getMemoryValue q now
  /\ getMemoryValue q now
     <= getMemoryValue (cleanup q now) now + 52 / 1000 * Spec.sumEnergy removed.
Proof.
  intros Hh He removed.
  destruct (cleanup_sum (halfLife q) now (events q) Hh He) as [H1 H2].
  cbn zeta in H1, H2. fold removed in H2.
  assert (Hr : 0 <= Spec.sumEnergy removed).
  { apply sumEnergy_nonneg. intros x Hx. apply filter_In in Hx. apply He. tauto. }
  rewrite !getMemoryValue_eq. unfold Spec.memory, cleanup; simpl.
  split.
  - apply Rmin_glb; [apply Rmin_l|]. eapply Rle_trans; [apply Rmin_r | exact H1].
  - eapply Rle_trans; [|apply Rmin_add; lra].
    apply Rmin_glb; [apply Rmin_l|]. eapply Rle_trans; [apply Rmin_r | exact H2].
Qed.

Lemma cleanup_memory_loss_witness :
  let q := mkQueue [mkEvent 0 low (1 / 2) None None; mkEvent 9 mid (1 / 2) None None] 1 in
  getMemoryValue (cleanup q 10) 10 <= getMemoryValue q 10.
Proof.
  intros q.
  apply (cleanup_memory_loss q 10); simpl; try lra.
  intros e [He|[He|[]]]; subst e; simpl; lra.
Defined.

End CleanupMemory.
